(** * Content negotiation: [internal/negotiator/mediatype.go]

    A shallow embedding of the media-type negotiator and the properties
    of its four stages: the segmenter ([splitMediaTypes]), the spec parser
    ([parseMediaType], [parseAccept]), the specificity matcher ([specify],
    [getMediaTypePriority]) and the resolver ([PreferredMediaTypes]).

    Conventions.
    - A Go [string] is a byte string: Rocq's [string], one [ascii] per byte.
    - [strings.TrimSpace] and [strings.EqualFold] are modelled on bytes: the
      six ASCII white-space bytes are trimmed and the ASCII letters are
      folded.  Bytes from 0x80 on are ordinary bytes here (Go would decode
      them as UTF-8 and also trim or fold a few non-ASCII runes).
    - [float64] is the IEEE 754 value type [spec_float] with its comparison
      ([SFltb], [SFeqb]): NaN is unordered and different from itself.
    - [strconv.ParseFloat] is not modelled: it is a parameter of the
      development, and a theorem that needs a fact about it says so.
    - The order in which [range] visits a Go map is unspecified: it is a
      parameter too ([rangeParams]), constrained to enumerate the map.
    - [splitMediaTypes] has a loop that may run forever; the loop is
      modelled by its step function, iterated with fuel, and [None] stands
      for a call that does not return.

    After the negotiator come two parts of the session middleware: the
    defaults of its configuration ([configDefault]) and the generated
    MessagePack codec of the session data ([MarshalMsg], [UnmarshalMsg],
    [Msgsize], [EncodeMsg], [DecodeMsg]), whose runtime, package msgp, is a parameter with the laws
    that a theorem needs stated as its hypotheses. *)

From Stdlib Require Import ZArith Ascii String Bool Lia.
From Stdlib Require Import Floats.SpecFloat.
From stdpp Require Import base option list gmap strings sorting.

Local Open Scope string_scope.
Local Open Scope list_scope.
Local Open Scope Z_scope.

(** ** Bytes and the [strings] package *)

Module strings.

(** The double-quote byte. *)
Definition dquote : ascii := "034"%char.

(** [s[n:]]. *)
Fixpoint drop (n : nat) (s : string) : string :=
  match n, s with
  | O, _ => s
  | S _, EmptyString => EmptyString
  | S n', String _ s' => drop n' s'
  end.

(** [s[:n]]. *)
Fixpoint take (n : nat) (s : string) : string :=
  match n, s with
  | O, _ => EmptyString
  | S _, EmptyString => EmptyString
  | S n', String c s' => String c (take n' s')
  end.

(** [strings.IndexByte(s, c)]: the index of the first [c], [None] for -1. *)
Fixpoint IndexByte (s : string) (c : ascii) : option nat :=
  match s with
  | EmptyString => None
  | String b s' =>
      if Ascii.eqb b c then Some O else S <$> IndexByte s' c
  end.

(** [strings.Count(s, sep)] for a one-byte [sep]. *)
Fixpoint Count (s : string) (c : ascii) : nat :=
  match s with
  | EmptyString => O
  | String b s' => ((if Ascii.eqb b c then 1 else 0) + Count s' c)%nat
  end.

(** [strings.Split(s, sep)] for a one-byte [sep]: always at least one
    element. *)
Fixpoint Split (s : string) (sep : ascii) : list string :=
  match s with
  | EmptyString => [EmptyString]
  | String b s' =>
      if Ascii.eqb b sep then EmptyString :: Split s' sep
      else match Split s' sep with
           | [] => [String b EmptyString]
           | p :: ps => String b p :: ps
           end
  end.

(** [strings.SplitN(s, sep, 2)] for a one-byte [sep]: cut at the first
    separator, or the whole string alone. *)
Definition SplitN2 (s : string) (sep : ascii) : list string :=
  match IndexByte s sep with
  | None => [s]
  | Some i => [take i s; drop (S i) s]
  end.

(** The table [asciiSpace] of package strings. *)
Definition asciiSpace (c : ascii) : bool :=
  match nat_of_ascii c with
  | 9%nat | 10%nat | 11%nat | 12%nat | 13%nat | 32%nat => true
  | _ => false
  end.

Fixpoint TrimLeft (s : string) : string :=
  match s with
  | EmptyString => EmptyString
  | String c s' => if asciiSpace c then TrimLeft s' else s
  end.

Fixpoint TrimRight (s : string) : string :=
  match s with
  | EmptyString => EmptyString
  | String c s' =>
      match TrimRight s' with
      | EmptyString => if asciiSpace c then EmptyString else String c EmptyString
      | r => String c r
      end
  end.

(** [strings.TrimSpace(s)]. *)
Definition TrimSpace (s : string) : string := TrimRight (TrimLeft s).

(** A string that does not start with white space. *)
Definition trimmedLeft (s : string) : Prop :=
  match s with
  | EmptyString => True
  | String c _ => asciiSpace c = false
  end.

(** ASCII lower-casing of one byte. *)
Definition lower (c : ascii) : ascii :=
  let n := nat_of_ascii c in
  if ((65 <=? n) && (n <=? 90))%nat then ascii_of_nat (n + 32) else c.

(** [strings.EqualFold(s, t)]. *)
Fixpoint EqualFold (s t : string) : bool :=
  match s, t with
  | EmptyString, EmptyString => true
  | String a s', String b t' => Ascii.eqb (lower a) (lower b) && EqualFold s' t'
  | _, _ => false
  end.

End strings.

(** ** [float64] *)

Abbreviation float64 := spec_float (only parsing).

Module float64.

(** The constants [0] and [1.0]. *)
Definition zero : float64 := S754_zero false.
Definition one : float64 := S754_finite false 4503599627370496 (-52).
Definition NaN : float64 := S754_nan.

(** Go's [a > b], [a != b] and [a <= b] on float64. *)
Definition gt (a b : float64) : bool := SFltb b a.
Definition ne (a b : float64) : bool := negb (SFeqb a b).
Definition le (a b : float64) : bool := SFleb a b.

Definition isNaN (a : float64) : bool :=
  match a with S754_nan => true | _ => false end.

(** The float64 nearest to the integer [n], and to the quotient [n / d]
    of two integers that are float64 values themselves. *)
Definition ofZ (n : Z) : float64 := binary_normalize 53 1024 n 0 false.
Definition ofRatio (n d : Z) : float64 := SFdiv 53 1024 (ofZ n) (ofZ d).

End float64.

(** ** The [mediaType] struct *)

Module mediaType.

Record t : Type := mk {
  Type_ : string;
  Subtype : string;
  Params : gmap string string;
  Q : float64;
  I : Z;
  S : Z
}.

End mediaType.

(** The states of a [for] loop whose body either goes round again or
    leaves the loop with a result. *)
Inductive loop (St R : Type) : Type :=
| Again (st : St)
| Break (r : R).
Arguments Again {St R} st.
Arguments Break {St R} r.

(** ** Package [sort] *)

Module sort.

Section InsertionSort.
Context {A : Type} (less : A -> A -> bool).

(** The inner loop of [insertionSort]: [x = data[j]] is swapped with its
    left neighbour while [less(j, j-1)].  [left] is [data[a:j]] read from
    right to left, and so is the result. *)
Fixpoint sift (x : A) (left : list A) : list A :=
  match left with
  | [] => [x]
  | y :: left' => if less x y then y :: sift x left' else x :: left
  end.

(** [insertionSort(data, 0, n)]. *)
Definition insertionSort (data : list A) : list A :=
  rev (fold_left (fun left x => sift x left) data []).

(** [sort.SliceStable(data, less)].  Up to 20 elements the library runs
    exactly this insertion sort.  A longer slice is cut in blocks of 20,
    each block sorted in this way, and the blocks merged by [symMerge];
    when [less] is a strict weak order on the elements every stable sort
    returns the same slice. *)
Definition SliceStable (data : list A) : list A := insertionSort data.

End InsertionSort.

End sort.

(** ** Package [negotiator] *)

Module negotiator.

Section Negotiator.

(** [strconv.ParseFloat(value, 64)]: [Some q] when [err == nil]. *)
Variable ParseFloat : string -> option float64.

(** The order in which a [range] over [Params] yields the entries. *)
Variable rangeParams : gmap string string -> list (string * string).

(** [quoteCount]: the number of double quotes of [str]. *)
Definition quoteCount (str : string) : nat := strings.Count str strings.dquote.

(** One turn of the loop of [splitMediaTypes], entered with
    [len(accept) > 0]. *)
Definition splitStep (accept : string) (parts : list string)
  : loop (string * list string) (list string) :=
  let accept := strings.TrimSpace accept in
  match strings.IndexByte accept "," with
  | None => Break (parts ++ [accept])
  | Some idx =>
      let inQuotes := (quoteCount (strings.take idx accept) mod 2 =? 1)%nat in
      if inQuotes then Again (accept, parts)
      else Again (strings.drop (S idx) accept,
                  parts ++ [strings.take idx accept])
  end.

(** The loop [for len(accept) > 0 { ... }], at most [fuel] turns;
    [None] when the turns run out. *)
Fixpoint splitLoop (fuel : nat) (accept : string) (parts : list string)
  : option (list string) :=
  match accept with
  | EmptyString => Some parts
  | String _ _ =>
      match fuel with
      | O => None
      | S fuel' =>
          match splitStep accept parts with
          | Break r => Some r
          | Again (accept', parts') => splitLoop fuel' accept' parts'
          end
      end
  end.

(** [splitMediaTypes]: one turn more than [accept] has bytes decides the
    loop ([splitLoop_adequate]); [None] is a call that never returns. *)
Definition splitMediaTypes (accept : string) : option (list string) :=
  splitLoop (S (String.length accept)) accept [].

(** The body of the loop over [parts[1:]] in [parseMediaType]. *)
Definition parseParam (m : mediaType.t) (part : string) : mediaType.t :=
  match strings.SplitN2 part "=" with
  | [k; v] =>
      let key := strings.TrimSpace k in
      let value := strings.TrimSpace v in
      if String.eqb key "q" then
        match ParseFloat value with
        | Some q =>
            mediaType.mk (mediaType.Type_ m) (mediaType.Subtype m)
              (mediaType.Params m) q (mediaType.I m) (mediaType.S m)
        | None => m
        end
      else
        mediaType.mk (mediaType.Type_ m) (mediaType.Subtype m)
          (<[key := value]> (mediaType.Params m)) (mediaType.Q m)
          (mediaType.I m) (mediaType.S m)
  | _ => m
  end.

(** [parseMediaType]: [None] is the nil pointer.  [strings.Split] never
    returns an empty slice ([Split_not_nil]), so [parts[0]] is there. *)
Definition parseMediaType (str : string) (i : Z) : option mediaType.t :=
  match strings.Split str ";" with
  | [] => None
  | p0 :: rest =>
      match strings.SplitN2 p0 "/" with
      | [t; st] =>
          Some (fold_left parseParam rest
                  (mediaType.mk (strings.TrimSpace t) (strings.TrimSpace st)
                     ∅ float64.one i 0))
      | _ => None
      end
  end.

(** The loop of [parseAccept] from index [i] on. *)
Fixpoint parseAccepts (accepts : list string) (i : Z) : list mediaType.t :=
  match accepts with
  | [] => []
  | a :: rest =>
      match parseMediaType (strings.TrimSpace a) i with
      | Some m => m :: parseAccepts rest (i + 1)
      | None => parseAccepts rest (i + 1)
      end
  end.

Definition parseAccept (accept : string) : option (list mediaType.t) :=
  accepts ← splitMediaTypes accept; Some (parseAccepts accepts 0).

(** The [range spec.Params] loop of [specify], over the entries in the
    order given: the score so far, or [None] for [return nil]. *)
Fixpoint specifyParams (kvs : list (string * string)) (p : mediaType.t) (s : Z)
  : option Z :=
  match kvs with
  | [] => Some s
  | (key, val) :: rest =>
      if String.eqb val "*"
         || strings.EqualFold val (default EmptyString (mediaType.Params p !! key))
      then specifyParams rest p (Z.lor s 1)
      else None
  end.

(** [specify]. *)
Definition specify (typ : string) (spec : mediaType.t) (index : Z)
  : option mediaType.t :=
  p ← parseMediaType typ 0;
  s ← (if strings.EqualFold (mediaType.Type_ spec) (mediaType.Type_ p)
       then Some (Z.lor 0 4)
       else if String.eqb (mediaType.Type_ spec) "*" then Some 0 else None);
  s ← (if strings.EqualFold (mediaType.Subtype spec) (mediaType.Subtype p)
       then Some (Z.lor s 2)
       else if String.eqb (mediaType.Subtype spec) "*" then Some s else None);
  s ← specifyParams (rangeParams (mediaType.Params spec)) p s;
  Some (mediaType.mk (mediaType.Type_ spec) (mediaType.Subtype spec)
          (mediaType.Params spec) (mediaType.Q spec) index s).

(** The condition under which [getMediaTypePriority] replaces
    [priority] by [spec]. *)
Definition takes (spec : mediaType.t) (priority : option mediaType.t) : bool :=
  match priority with
  | None => true
  | Some p =>
      (mediaType.S p <? mediaType.S spec)
      || ((mediaType.S spec =? mediaType.S p)
          && float64.gt (mediaType.Q spec) (mediaType.Q p))
  end.

(** The loop of [getMediaTypePriority], entered with [priority]. *)
Fixpoint priorityLoop (typ : string) (accepted : list mediaType.t) (index : Z)
  (priority : option mediaType.t) : option mediaType.t :=
  match accepted with
  | [] => priority
  | a :: rest =>
      match specify typ a index with
      | Some spec =>
          if takes spec priority
          then priorityLoop typ rest index (Some spec)
          else priorityLoop typ rest index priority
      | None => priorityLoop typ rest index priority
      end
  end.

Definition getMediaTypePriority (typ : string) (accepted : list mediaType.t)
  (index : Z) : option mediaType.t :=
  priorityLoop typ accepted index None.

(** [isQuality] and [getFullType]. *)
Definition isQuality (m : mediaType.t) : bool :=
  float64.gt (mediaType.Q m) float64.zero.

Definition getFullType (m : mediaType.t) : string :=
  (mediaType.Type_ m ++ "/" ++ mediaType.Subtype m)%string.

(** The comparison handed to [sort.SliceStable]. *)
Definition less (a b : mediaType.t) : bool :=
  if float64.ne (mediaType.Q a) (mediaType.Q b)
  then float64.gt (mediaType.Q a) (mediaType.Q b)
  else if negb (mediaType.S a =? mediaType.S b)
  then mediaType.S b <? mediaType.S a
  else mediaType.I a <? mediaType.I b.

(** The loop that collects the full types of the accepted specs. *)
Fixpoint acceptedTypes (accepts : list mediaType.t) : list string :=
  match accepts with
  | [] => []
  | m :: rest =>
      if isQuality m then getFullType m :: acceptedTypes rest
      else acceptedTypes rest
  end.

(** The loop [for i, typ := range provided] from index [i] on. *)
Fixpoint priorityList (provided : list string) (i : Z)
  (accepts : list mediaType.t) : list mediaType.t :=
  match provided with
  | [] => []
  | typ :: rest =>
      match getMediaTypePriority typ accepts i with
      | Some priority => priority :: priorityList rest (i + 1) accepts
      | None => priorityList rest (i + 1) accepts
      end
  end.

(** The loop that emits [provided[priority.I]]; every [priority.I] is an
    index of [provided] ([priorityList_index]). *)
Fixpoint providedTypes (provided : list string) (priorities : list mediaType.t)
  : list string :=
  match priorities with
  | [] => []
  | priority :: rest =>
      if isQuality priority
      then nth (Z.to_nat (mediaType.I priority)) provided EmptyString
             :: providedTypes provided rest
      else providedTypes provided rest
  end.

(** [PreferredMediaTypes]. *)
Definition PreferredMediaTypes (accept : string) (provided : list string)
  : option (list string) :=
  let accept := if String.eqb accept "" then "*/*" else accept in
  accepts ← parseAccept accept;
  let accepts := sort.SliceStable less accepts in
  if (length provided =? 0)%nat then Some (acceptedTypes accepts)
  else Some (providedTypes provided (priorityList provided 0 accepts)).

End Negotiator.

End negotiator.

(** ** Package [time] *)

Module time.

(** [time.Duration]: a count of nanoseconds. *)
Definition Second : Z := 1000000000.
Definition Hour : Z := 3600 * Second.

(** [d.Seconds()]: with [sec := d / Second] and [nsec := d % Second] it
    is [float64(sec) + float64(nsec)/1e9]. *)
Definition Seconds (d : Z) : float64 :=
  SFadd 53 1024 (float64.ofZ (Z.quot d Second))
    (SFdiv 53 1024 (float64.ofZ (Z.rem d Second)) (float64.ofZ 1000000000)).

End time.

(** The conversion [int(f)] of a float64: the fraction is dropped.  The
    value of [Seconds] is a number within the range of [int]; on the
    other values, where Go leaves the result open, this is 0. *)
Definition toInt (f : float64) : Z :=
  match f with
  | S754_finite s m e =>
      let n := if 0 <=? e then Z.shiftl (Z.pos m) e else Z.shiftr (Z.pos m) (- e) in
      if s then - n else n
  | _ => 0
  end.

(** A call that returns, or that panics with a message. *)
Inductive outcome (A : Type) : Type :=
| Returns (a : A)
| Panics (msg : string).
Arguments Returns {A} a.
Arguments Panics {A} msg.

(** ** Package [msgp]: what the generated code uses of it *)

(** A Go [[]byte]: one [ascii] per byte, as in a string. *)
Abbreviation bytes := (list ascii) (only parsing).

(** A call that returns a value, or an error that is not nil. *)
Inductive result (E A : Type) : Type :=
| Ok (a : A)
| Err (e : E).
Arguments Ok {E A} a.
Arguments Err {E A} e.

Module msgp.

(** The constants [msgp.MapHeaderSize] and [msgp.StringPrefixSize]. *)
Definition MapHeaderSize : Z := 5.
Definition StringPrefixSize : Z := 5.

(** [msgp.UnsafeString(b)]: the bytes of [b] as a string. *)
Definition UnsafeString (b : bytes) : string := string_of_list_ascii b.

(** [msgp.Require(b, sz)] returns [b] with room for [sz] more bytes: the
    same bytes. *)
Definition Require (b : bytes) (sz : Z) : bytes := b.

(** The functions of the runtime that the generated code calls.  [V] is
    the type of the values of [interface{}], [E] the type of the errors;
    a [uint32] is an [N]. *)
Class Runtime (V E : Type) : Type := {
  AppendMapHeader : bytes -> N -> bytes;
  AppendString : bytes -> string -> bytes;
  AppendIntf : bytes -> V -> result E bytes;
  ReadMapHeaderBytes : bytes -> result E (N * bytes);
  ReadMapKeyZC : bytes -> result E (bytes * bytes);
  ReadStringBytes : bytes -> result E (string * bytes);
  ReadIntfBytes : bytes -> result E (V * bytes);
  Skip : bytes -> result E bytes;
  WrapError : E -> list string -> E;
  GuessSize : V -> Z
}.

(** The methods of [*msgp.Writer] and of [*msgp.Reader] that the
    generated code calls.  [W] and [R] are the states of a writer and of
    a reader; a method returns the state after the call, or the error.
    [SkipField] is the method [Skip] of the reader. *)
Class Writer (V E W : Type) : Type := {
  Append : W -> bytes -> result E W;
  WriteMapHeader : W -> N -> result E W;
  WriteString : W -> string -> result E W;
  WriteIntf : W -> V -> result E W
}.

Class Reader (V E R : Type) : Type := {
  ReadMapHeader : R -> result E (N * R);
  ReadMapKeyPtr : R -> result E (bytes * R);
  ReadString : R -> result E (string * R);
  ReadIntf : R -> result E (V * R);
  SkipField : R -> result E R
}.

End msgp.

(** ** Package [session]: the configuration *)

Module session.

Section Config.

(** The types of the fields that hold a function, a pointer or an
    interface value; [None] is nil. *)
Context {Handler StorePtr ErrorHandlerFunc StorageValue KeyGeneratorFunc : Type}.

(** [utils.UUIDv4]. *)
Variable UUIDv4 : KeyGeneratorFunc.

Record Config : Type := mkConfig {
  Next : option Handler;
  Store : option StorePtr;
  ErrorHandler : option ErrorHandlerFunc;
  IdleTimeout : Z;
  Storage : option StorageValue;
  KeyLookup : string;
  CookieDomain : string;
  CookiePath : string;
  CookieSecure : bool;
  CookieHTTPOnly : bool;
  CookieSameSite : string;
  CookieSessionOnly : bool;
  KeyGenerator : option KeyGeneratorFunc;
  source : string;
  sessionName : string
}.

(** The constants of type [Source]. *)
Definition SourceCookie : string := "cookie".
Definition SourceHeader : string := "header".
Definition SourceURLQuery : string := "query".

(** The value that the package gives to the variable [ConfigDefault]. *)
Definition ConfigDefault : Config :=
  mkConfig None None None (24 * time.Hour) None "cookie:session_id"
    "" "" false false "" false (Some UUIDv4) "cookie" "session_id".

(** The assignments to the fields of [cfg]. *)
Definition setIdleTimeout (d : Z) (c : Config) : Config :=
  mkConfig (Next c) (Store c) (ErrorHandler c) d (Storage c) (KeyLookup c)
    (CookieDomain c) (CookiePath c) (CookieSecure c) (CookieHTTPOnly c)
    (CookieSameSite c) (CookieSessionOnly c) (KeyGenerator c) (source c)
    (sessionName c).

Definition setKeyLookup (k : string) (c : Config) : Config :=
  mkConfig (Next c) (Store c) (ErrorHandler c) (IdleTimeout c) (Storage c) k
    (CookieDomain c) (CookiePath c) (CookieSecure c) (CookieHTTPOnly c)
    (CookieSameSite c) (CookieSessionOnly c) (KeyGenerator c) (source c)
    (sessionName c).

Definition setKeyGenerator (g : option KeyGeneratorFunc) (c : Config) : Config :=
  mkConfig (Next c) (Store c) (ErrorHandler c) (IdleTimeout c) (Storage c)
    (KeyLookup c) (CookieDomain c) (CookiePath c) (CookieSecure c)
    (CookieHTTPOnly c) (CookieSameSite c) (CookieSessionOnly c) g (source c)
    (sessionName c).

Definition setSource (s : string) (c : Config) : Config :=
  mkConfig (Next c) (Store c) (ErrorHandler c) (IdleTimeout c) (Storage c)
    (KeyLookup c) (CookieDomain c) (CookiePath c) (CookieSecure c)
    (CookieHTTPOnly c) (CookieSameSite c) (CookieSessionOnly c)
    (KeyGenerator c) s (sessionName c).

Definition setSessionName (n : string) (c : Config) : Config :=
  mkConfig (Next c) (Store c) (ErrorHandler c) (IdleTimeout c) (Storage c)
    (KeyLookup c) (CookieDomain c) (CookiePath c) (CookieSecure c)
    (CookieHTTPOnly c) (CookieSameSite c) (CookieSessionOnly c)
    (KeyGenerator c) (source c) n.

(** The first part of [configDefault]: the three fields that get the
    value of [ConfigDefault] when they are not set.  [current] is the
    value of the package variable [ConfigDefault] at the call. *)
Definition withDefaults (current cfg : Config) : Config :=
  let cfg :=
    if toInt (time.Seconds (IdleTimeout cfg)) <=? 0
    then setIdleTimeout (IdleTimeout current) cfg else cfg in
  let cfg :=
    if String.eqb (KeyLookup cfg) ""
    then setKeyLookup (KeyLookup current) cfg else cfg in
  match KeyGenerator cfg with
  | None => setKeyGenerator (KeyGenerator current) cfg
  | Some _ => cfg
  end.

(** [configDefault(config...)]. *)
Definition configDefault (current : Config) (config : list Config)
  : outcome Config :=
  match config with
  | [] => Returns current
  | cfg :: _ =>
      let cfg := withDefaults current cfg in
      let selectors := strings.Split (KeyLookup cfg) ":" in
      if negb (length selectors =? 2)%nat
      then Panics "[session] KeyLookup must in the form of <source>:<name>"
      else
        let sel0 := nth 0 selectors EmptyString in
        let sel1 := nth 1 selectors EmptyString in
        if String.eqb sel0 SourceCookie
        then Returns (setSessionName sel1 (setSource SourceCookie cfg))
        else if String.eqb sel0 SourceHeader
        then Returns (setSessionName sel1 (setSource SourceHeader cfg))
        else if String.eqb sel0 SourceURLQuery
        then Returns (setSessionName sel1 (setSource SourceURLQuery cfg))
        else Panics "[session] source is not supported"
  end.

(** [Config{}]: every field at its zero value. *)
Definition zeroConfig : Config :=
  mkConfig None None None 0 None "" "" "" false false "" false None "" "".

(** The [KeyLookup] that [configDefault] reads its selectors from. *)
Definition effectiveKeyLookup (current cfg : Config) : string :=
  if String.eqb (KeyLookup cfg) "" then KeyLookup current else KeyLookup cfg.

End Config.

Arguments Config : clear implicits.

(** *** The generated codec of [data] *)

Section Data.

Context {V E : Type} `{!msgp.Runtime V E}.

(** The order in which a [range] over [z.Data] yields the entries. *)
Variable rangeData : gmap string V -> list (string * V).

(** The struct [data], as the generated code uses it: its one field
    [Data] is a [map[string]interface{}], [None] when it is nil. *)
Record data : Type := mkData { Data : option (gmap string V) }.

(** [len(z.Data)] and the entries that [range z.Data] yields; a nil map
    has none. *)
Definition lenData (z : data) : nat :=
  match Data z with None => O | Some m => size m end.

Definition entries (z : data) : list (string * V) :=
  match Data z with None => [] | Some m => rangeData m end.

(** The conversion [uint32(n)] of an [int] that is not negative. *)
Definition uint32 (n : nat) : N := (N.of_nat n mod 4294967296)%N.

(** [Msgsize]. *)
Definition Msgsize (z : data) : Z :=
  let s := 1 + 5 + msgp.MapHeaderSize in
  match Data z with
  | None => s
  | Some m =>
      fold_left
        (fun s kv =>
           s + (msgp.StringPrefixSize + Z.of_nat (String.length kv.1)
                + msgp.GuessSize kv.2))
        (rangeData m) s
  end.

(** The loop of [MarshalMsg] over the entries that are left. *)
Fixpoint marshalEntries (kvs : list (string * V)) (o : bytes) : result E bytes :=
  match kvs with
  | [] => Ok o
  | (za0001, za0002) :: rest =>
      let o := msgp.AppendString o za0001 in
      match msgp.AppendIntf o za0002 with
      | Err err => Err (msgp.WrapError err ["Data"; za0001])
      | Ok o => marshalEntries rest o
      end
  end.

(** [MarshalMsg]: the bytes [0x81 0xa4 0x44 0x61 0x74 0x61], the header
    of the map and its entries, after [b]. *)
Definition MarshalMsg (z : data) (b : bytes) : result E bytes :=
  let o := msgp.Require b (Msgsize z) in
  let o := o ++ ["129"; "164"; "068"; "097"; "116"; "097"]%char in
  let o := msgp.AppendMapHeader o (uint32 (lenData z)) in
  marshalEntries (entries z) o.

(** The loop [for key := range z.Data { delete(z.Data, key) }]. *)
Definition clearData (m : gmap string V) : gmap string V :=
  fold_left (fun m kv => delete kv.1 m) (rangeData m) m.

(** The map that [UnmarshalMsg] fills: a new one when [z.Data] is nil,
    and [z.Data] itself, emptied when it has entries. *)
Definition resetData (z : data) : gmap string V :=
  match Data z with
  | None => ∅
  | Some m => if (0 <? size m)%nat then clearData m else m
  end.

(** The inner loop of [UnmarshalMsg], [zb0002] entries to go: the map so
    far and the rest of the bytes, or the error. *)
Fixpoint unmarshalEntries (zb0002 : nat) (m : gmap string V) (bts : bytes)
  : gmap string V * result E bytes :=
  match zb0002 with
  | O => (m, Ok bts)
  | S zb0002 =>
      match msgp.ReadStringBytes bts with
      | Err err => (m, Err (msgp.WrapError err ["Data"]))
      | Ok (za0001, bts) =>
          match msgp.ReadIntfBytes bts with
          | Err err => (m, Err (msgp.WrapError err ["Data"; za0001]))
          | Ok (za0002, bts) =>
              unmarshalEntries zb0002 (<[za0001 := za0002]> m) bts
          end
      end
  end.

(** The outer loop of [UnmarshalMsg], [zb0001] fields to go. *)
Fixpoint unmarshalFields (zb0001 : nat) (z : data) (bts : bytes)
  : data * result E bytes :=
  match zb0001 with
  | O => (z, Ok bts)
  | S zb0001 =>
      match msgp.ReadMapKeyZC bts with
      | Err err => (z, Err (msgp.WrapError err []))
      | Ok (field, bts) =>
          if String.eqb (msgp.UnsafeString field) "Data" then
            match msgp.ReadMapHeaderBytes bts with
            | Err err => (z, Err (msgp.WrapError err ["Data"]))
            | Ok (zb0002, bts) =>
                match unmarshalEntries (N.to_nat zb0002) (resetData z) bts with
                | (m, Err err) => (mkData (Some m), Err err)
                | (m, Ok bts) => unmarshalFields zb0001 (mkData (Some m)) bts
                end
            end
          else
            match msgp.Skip bts with
            | Err err => (z, Err (msgp.WrapError err []))
            | Ok bts => unmarshalFields zb0001 z bts
            end
      end
  end.

(** [UnmarshalMsg]: the receiver after the call, and the bytes left over
    or the error. *)
Definition UnmarshalMsg (z : data) (bts : bytes) : data * result E bytes :=
  match msgp.ReadMapHeaderBytes bts with
  | Err err => (z, Err (msgp.WrapError err []))
  | Ok (zb0001, bts) => unmarshalFields (N.to_nat zb0001) z bts
  end.

(** The writer and the reader of [EncodeMsg] and [DecodeMsg]. *)
Context {W R : Type} `{!msgp.Writer V E W} `{!msgp.Reader V E R}.

(** The loop of [EncodeMsg] over the entries that are left. *)
Fixpoint encodeLoop (kvs : list (string * V)) (en : W) : result E W :=
  match kvs with
  | [] => Ok en
  | (za0001, za0002) :: rest =>
      match msgp.WriteString en za0001 with
      | Err err => Err (msgp.WrapError err ["Data"])
      | Ok en =>
          match msgp.WriteIntf en za0002 with
          | Err err => Err (msgp.WrapError err ["Data"; za0001])
          | Ok en => encodeLoop rest en
          end
      end
  end.

(** [EncodeMsg]: the writer after the call, or the error. *)
Definition EncodeMsg (z : data) (en : W) : result E W :=
  match msgp.Append en ["129"; "164"; "068"; "097"; "116"; "097"]%char with
  | Err err => Err err
  | Ok en =>
      match msgp.WriteMapHeader en (uint32 (lenData z)) with
      | Err err => Err (msgp.WrapError err ["Data"])
      | Ok en => encodeLoop (entries z) en
      end
  end.

(** The inner loop of [DecodeMsg], [zb0002] entries to go. *)
Fixpoint decodeEntries (zb0002 : nat) (m : gmap string V) (dc : R)
  : gmap string V * result E R :=
  match zb0002 with
  | O => (m, Ok dc)
  | S zb0002 =>
      match msgp.ReadString dc with
      | Err err => (m, Err (msgp.WrapError err ["Data"]))
      | Ok (za0001, dc) =>
          match msgp.ReadIntf dc with
          | Err err => (m, Err (msgp.WrapError err ["Data"; za0001]))
          | Ok (za0002, dc) => decodeEntries zb0002 (<[za0001 := za0002]> m) dc
          end
      end
  end.

(** The outer loop of [DecodeMsg], [zb0001] fields to go. *)
Fixpoint decodeFields (zb0001 : nat) (z : data) (dc : R)
  : data * result E R :=
  match zb0001 with
  | O => (z, Ok dc)
  | S zb0001 =>
      match msgp.ReadMapKeyPtr dc with
      | Err err => (z, Err (msgp.WrapError err []))
      | Ok (field, dc) =>
          if String.eqb (msgp.UnsafeString field) "Data" then
            match msgp.ReadMapHeader dc with
            | Err err => (z, Err (msgp.WrapError err ["Data"]))
            | Ok (zb0002, dc) =>
                match decodeEntries (N.to_nat zb0002)
                        (resetData z) dc with
                | (m, Err err) => (mkData (Some m), Err err)
                | (m, Ok dc) => decodeFields zb0001 (mkData (Some m)) dc
                end
            end
          else
            match msgp.SkipField dc with
            | Err err => (z, Err (msgp.WrapError err []))
            | Ok dc => decodeFields zb0001 z dc
            end
      end
  end.

(** [DecodeMsg]: the receiver and the reader after the call, or the
    error. *)
Definition DecodeMsg (z : data) (dc : R)
  : data * result E R :=
  match msgp.ReadMapHeader dc with
  | Err err => (z, Err (msgp.WrapError err []))
  | Ok (zb0001, dc) => decodeFields (N.to_nat zb0001) z dc
  end.

End Data.

Arguments data : clear implicits.

End session.

(** ** Notions used in the statements *)

(** The test that [specify] makes of one parameter declared on the spec:
    its value is the wildcard, or folds to the value that the candidate
    has under the same key (the empty string when it has none). *)
Definition paramMatches (p : mediaType.t) (key val : string) : bool :=
  String.eqb val "*"
  || strings.EqualFold val (default EmptyString (mediaType.Params p !! key)).

(** [r] is at least as good a match as [m]: no lower score, and at equal
    score [m] has no greater quality. *)
Definition atLeast (r m : mediaType.t) : Prop :=
  mediaType.S m <= mediaType.S r
  /\ (mediaType.S m = mediaType.S r ->
      float64.gt (mediaType.Q m) (mediaType.Q r) = false).

(** [r] is a strictly better match than [p]: the test under which
    [getMediaTypePriority] replaces [p] by [r]. *)
Definition better (r p : mediaType.t) : Prop :=
  mediaType.S p < mediaType.S r
  \/ (mediaType.S r = mediaType.S p
      /\ float64.gt (mediaType.Q r) (mediaType.Q p) = true).

(** [m] with its index field set to [i]. *)
Definition setI (i : Z) (m : mediaType.t) : mediaType.t :=
  mediaType.mk (mediaType.Type_ m) (mediaType.Subtype m) (mediaType.Params m)
    (mediaType.Q m) i (mediaType.S m).

(** The candidate [typ] has a best match among [accepts], and that match
    has a quality above zero. *)
Definition acceptable (ParseFloat : string -> option float64)
  (rangeParams : gmap string string -> list (string * string))
  (accepts : list mediaType.t) (typ : string) : bool :=
  match negotiator.getMediaTypePriority ParseFloat rangeParams typ accepts 0 with
  | Some priority => negotiator.isQuality priority
  | None => false
  end.

(** The ordering rule: [a] comes before [b] when it has the greater
    quality, or the same quality and the greater score, or the same
    quality and score and the smaller index. *)
Definition precedes (a b : mediaType.t) : Prop :=
  float64.gt (mediaType.Q a) (mediaType.Q b) = true
  \/ (float64.ne (mediaType.Q a) (mediaType.Q b) = false
      /\ (mediaType.S b < mediaType.S a
          \/ (mediaType.S a = mediaType.S b /\ mediaType.I a < mediaType.I b))).

(** The call without candidates returns the full types of the parsed
    specs of positive quality, each once, in the order of the rule. *)
Definition emittedInOrder (ParseFloat : string -> option float64)
  (rangeParams : gmap string string -> list (string * string))
  (accept : string) : Prop :=
  exists specs emitted,
    negotiator.parseAccept ParseFloat
      (if String.eqb accept "" then "*/*" else accept) = Some specs
    /\ negotiator.PreferredMediaTypes ParseFloat rangeParams accept []
       = Some (map negotiator.getFullType emitted)
    /\ emitted ≡ₚ List.filter negotiator.isQuality specs
    /\ StronglySorted precedes emitted.

(** The ordering rule without its specificity key. *)
Definition lessQI (a b : mediaType.t) : bool :=
  if float64.ne (mediaType.Q a) (mediaType.Q b)
  then float64.gt (mediaType.Q a) (mediaType.Q b)
  else mediaType.I a <? mediaType.I b.

(** The base token of a segment: what precedes its first semicolon. *)
Definition baseToken (str : string) : string :=
  match strings.Split str ";" with
  | [] => EmptyString
  | p0 :: _ => p0
  end.

(** A header in which a quoted parameter value holds a comma:
    [text/html;title=<dq>a,b<dq>]. *)
Definition quotedComma : string :=
  ("text/html;title="
   ++ String strings.dquote ("a,b" ++ String strings.dquote EmptyString))%string.


(** A piece is outside quotes when its double quotes pair up: the
    negation of [inQuotes] in [splitMediaTypes]. *)
Definition evenQuotes (s : string) : bool :=
  negb (negotiator.quoteCount s mod 2 =? 1)%nat.

(** The plain comma split of a string: its pieces between the commas,
    each without its leading white space, and without the last piece when
    it is empty and not the only one. *)
Definition plainSplit (s : string) : list string :=
  let segs := strings.Split s "," in
  map strings.TrimLeft
    (if (1 <? length segs)%nat && String.eqb (List.last segs EmptyString) EmptyString
     then removelast segs else segs).

(** The plain comma split of a header, trimmed first. *)
Definition commaSegments (accept : string) : list string :=
  plainSplit (strings.TrimSpace accept).

(** The quality that one parameter token sets: the value of a [q]
    parameter that [ParseFloat] accepts. *)
Definition qualityOf (ParseFloat : string -> option float64) (part : string)
  : option float64 :=
  match strings.SplitN2 part "=" with
  | [k; v] =>
      if String.eqb (strings.TrimSpace k) "q"
      then ParseFloat (strings.TrimSpace v) else None
  | _ => None
  end.

(** A string without white space, comma or semicolon. *)
Definition plainToken (s : string) : bool :=
  forallb (fun c => negb (strings.asciiSpace c)
                    && negb (Ascii.eqb c ",") && negb (Ascii.eqb c ";"))
    (list_ascii_of_string s).

(** What holds of every entry of [Params]. *)
Definition trimmedParams (m : mediaType.t) : Prop :=
  forall key value, mediaType.Params m !! key = Some value ->
    key <> "q" /\ strings.TrimSpace key = key /\ strings.TrimSpace value = value.


(** What [MarshalMsg] writes for a list of entries: for each entry its
    key as a string and its value, or the error of the first value that
    [AppendIntf] refuses. *)
Fixpoint encodeEntries {V E : Type} `{!msgp.Runtime V E}
  (kvs : list (string * V)) : result E bytes :=
  match kvs with
  | [] => Ok []
  | (key, value) :: rest =>
      match msgp.AppendIntf [] value with
      | Err err => Err (msgp.WrapError err ["Data"; key])
      | Ok ev =>
          match encodeEntries rest with
          | Err err => Err err
          | Ok er => Ok (msgp.AppendString [] key ++ ev ++ er)
          end
      end
  end.

(** The map that a list of entries makes, later entries first. *)
Definition insertAll {V : Type} (kvs : list (string * V)) (m : gmap string V)
  : gmap string V :=
  fold_left (fun m kv => <[kv.1 := kv.2]> m) kvs m.

(** [ReadIntfBytes] reads back what [AppendIntf] writes for [value]. *)
Definition readsBack {V E : Type} `{!msgp.Runtime V E} (value : V) : Prop :=
  forall ev rest,
    msgp.AppendIntf [] value = Ok ev ->
    msgp.ReadIntfBytes (ev ++ rest) = Ok (value, rest).

(** ** Instances for the examples *)

(** The value of a decimal digit, and of a string of digits read after
    [acc]. *)
Definition digit (c : ascii) : option Z :=
  let n := nat_of_ascii c in
  if ((48 <=? n) && (n <=? 57))%nat then Some (Z.of_nat (n - 48)) else None.

Fixpoint digits (s : string) (acc : Z) : option Z :=
  match s with
  | EmptyString => Some acc
  | String c s' => d ← digit c; digits s' (10 * acc + d)
  end.

(** What [strconv.ParseFloat] returns on [NaN] and on unsigned decimal
    literals of up to 15 digits: such a literal is the quotient of two
    integers that are float64 values, rounded to the nearest float64.
    Every other string is refused here. *)
Definition decimalFloat (s : string) : option float64 :=
  if String.eqb s "NaN" then Some float64.NaN
  else
    match strings.SplitN2 s "." with
    | [int] =>
        if String.eqb int "" then None
        else n ← digits int 0; Some (float64.ofRatio n 1)
    | [int; frac] =>
        if String.eqb (int ++ frac)%string "" then None
        else n ← digits (int ++ frac)%string 0;
             Some (float64.ofRatio n (10 ^ Z.of_nat (String.length frac)))
    | _ => None
    end.

(** A visit of the entries of a map in the reverse of the order of
    [map_to_list]. *)
Definition rangeReversed (m : gmap string string) : list (string * string) :=
  rev (map_to_list m).

(** A spec that accepts every subtype of [text], with one parameter. *)
Definition textLevel1 : mediaType.t :=
  mediaType.mk "text" "*" {["level" := "1"]} float64.one 0 0.

(** A config that reads the session id from a header and asks for an idle
    timeout of half a second, and what [configDefault] makes of it. *)
Definition headerConfig : session.Config unit unit unit unit unit :=
  session.mkConfig None None None 500000000 None "header:X-Session-Id"
    "" "/" true false "" false None "" "".

Definition headerConfigDefaulted : session.Config unit unit unit unit unit :=
  session.mkConfig None None None (24 * time.Hour) None "header:X-Session-Id"
    "" "/" true false "" false (Some tt) "header" "X-Session-Id".

(** A config that sets cookie attributes only. *)
Definition cookieConfig : session.Config unit unit unit unit unit :=
  session.mkConfig None None None 0 None "" "example.com" "/" true true "Strict"
    false None "" "".

(** A runtime for the examples: the MessagePack encoding of the headers
    of maps, of strings and of the two booleans, which are the values
    here; an error is its message. *)
Module wire.

(** The four bytes of a [uint32], most significant first. *)
Definition be32 (n : N) : bytes :=
  [ascii_of_N (n / 16777216); ascii_of_N (n / 65536 mod 256);
   ascii_of_N (n / 256 mod 256); ascii_of_N (n mod 256)]%N.

Definition readBe32 (b3 b2 b1 b0 : ascii) : N :=
  (N_of_ascii b3 * 16777216 + N_of_ascii b2 * 65536
   + N_of_ascii b1 * 256 + N_of_ascii b0)%N.

(** [fixmap] and [map32]; [fixstr] and [str32]. *)
Definition mapHeader (n : N) : bytes :=
  if (n <=? 15)%N then [ascii_of_N (128 + n)] else "223"%char :: be32 n.

Definition strHeader (n : N) : bytes :=
  if (n <=? 31)%N then [ascii_of_N (160 + n)] else "219"%char :: be32 n.

Definition readMapHeader (b : bytes) : result string (N * bytes) :=
  match b with
  | [] => Err "short bytes"
  | lead :: rest =>
      let l := N_of_ascii lead in
      if ((128 <=? l) && (l <=? 143))%N then Ok ((l - 128)%N, rest)
      else if (l =? 223)%N then
        match rest with
        | b3 :: b2 :: b1 :: b0 :: rest' => Ok (readBe32 b3 b2 b1 b0, rest')
        | _ => Err "short bytes"
        end
      else Err "bad prefix"
  end.

Definition readBody (n : N) (b : bytes) : result string (bytes * bytes) :=
  if (N.of_nat (length b) <? n)%N then Err "short bytes"
  else Ok (firstn (N.to_nat n) b, skipn (N.to_nat n) b).

Definition readString (b : bytes) : result string (bytes * bytes) :=
  match b with
  | [] => Err "short bytes"
  | lead :: rest =>
      let l := N_of_ascii lead in
      if ((160 <=? l) && (l <=? 191))%N then readBody (l - 160)%N rest
      else if (l =? 219)%N then
        match rest with
        | b3 :: b2 :: b1 :: b0 :: rest' => readBody (readBe32 b3 b2 b1 b0) rest'
        | _ => Err "short bytes"
        end
      else Err "bad prefix"
  end.

Definition encodeString (s : string) : bytes :=
  strHeader (N.of_nat (String.length s)) ++ list_ascii_of_string s.

#[global] Instance runtime : msgp.Runtime bool string := {|
  msgp.AppendMapHeader b n := b ++ mapHeader n;
  msgp.AppendString b s := b ++ encodeString s;
  msgp.AppendIntf b value :=
    Ok (b ++ [if value : bool then "195"%char else "194"%char]);
  msgp.ReadMapHeaderBytes := readMapHeader;
  msgp.ReadMapKeyZC := readString;
  msgp.ReadStringBytes b :=
    match readString b with
    | Ok (s, rest) => Ok (string_of_list_ascii s, rest)
    | Err err => Err err
    end;
  msgp.ReadIntfBytes b :=
    match b with
    | [] => Err "short bytes"
    | lead :: rest =>
        if Ascii.eqb lead "195" then Ok (true, rest)
        else if Ascii.eqb lead "194" then Ok (false, rest)
        else Err "bad prefix"
    end;
  msgp.Skip b := Err "not supported";
  msgp.WrapError err ctx := (err ++ " at " ++ String.concat "/" ctx)%string;
  msgp.GuessSize value := 1
|}.

End wire.

(** A writer that keeps what was written, and a reader of a byte slice,
    over the runtime of the examples. *)
#[global] Instance wireWriter : msgp.Writer bool string bytes := {|
  msgp.Append en b := Ok (en ++ b);
  msgp.WriteMapHeader en n := Ok (msgp.AppendMapHeader en n);
  msgp.WriteString en s := Ok (msgp.AppendString en s);
  msgp.WriteIntf en value := msgp.AppendIntf en value
|}.

#[global] Instance wireReader : msgp.Reader bool string bytes := {|
  msgp.ReadMapHeader := msgp.ReadMapHeaderBytes;
  msgp.ReadMapKeyPtr := msgp.ReadMapKeyZC;
  msgp.ReadString := msgp.ReadStringBytes;
  msgp.ReadIntf := msgp.ReadIntfBytes;
  msgp.SkipField := msgp.Skip
|}.

(** Two session maps and the message of the first. *)
Definition userData : session.data bool :=
  session.mkData (Some {["user" := true; "admin" := false]}).

Definition staleData : session.data bool :=
  session.mkData (Some {["stale" := true]}).

(** The message that [MarshalMsg] writes for [userData]. *)
Definition userMessage : bytes :=
  ["129"; "164"; "D"; "a"; "t"; "a"; "130"; "164"; "u"; "s"; "e"; "r"; "195";
   "165"; "a"; "d"; "m"; "i"; "n"; "194"]%char.

(** * Properties *)

(** ** Facts about the [strings] model *)

Module StringFacts.
Import strings.

Lemma Split_not_nil (s : string) (sep : ascii) : Split s sep <> [].
Proof.
  destruct s as [|b s]; simpl; [discriminate|].
  destruct (Ascii.eqb b sep); [discriminate|].
  destruct (Split s sep); discriminate.
Qed.

Lemma IndexByte_lt (s : string) (c : ascii) (i : nat) :
  IndexByte s c = Some i -> (i < String.length s)%nat.
Proof.
  revert i. induction s as [|b s IH]; intros i; simpl; [discriminate|].
  destruct (Ascii.eqb b c).
  - intros [= <-]. lia.
  - destruct (IndexByte s c) as [j|]; simpl; [|discriminate].
    intros [= <-]. specialize (IH j eq_refl). lia.
Qed.

Lemma length_drop (n : nat) (s : string) :
  String.length (drop n s) = (String.length s - n)%nat.
Proof.
  revert s. induction n as [|n IH]; intros [|b s]; simpl; auto.
Qed.

Lemma length_TrimLeft (s : string) :
  (String.length (TrimLeft s) <= String.length s)%nat.
Proof.
  induction s as [|c s IH]; simpl; [lia|].
  destruct (asciiSpace c); simpl; lia.
Qed.

Lemma length_TrimRight (s : string) :
  (String.length (TrimRight s) <= String.length s)%nat.
Proof.
  induction s as [|c s IH]; simpl; [lia|].
  destruct (TrimRight s) as [|d r]; simpl in *.
  - destruct (asciiSpace c); simpl; lia.
  - lia.
Qed.

Lemma length_TrimSpace (s : string) :
  (String.length (TrimSpace s) <= String.length s)%nat.
Proof.
  unfold TrimSpace.
  pose proof (length_TrimRight (TrimLeft s)). pose proof (length_TrimLeft s). lia.
Qed.

Lemma TrimLeft_trimmedLeft (s : string) : trimmedLeft (TrimLeft s).
Proof.
  induction s as [|c s IH]; simpl; [exact Logic.I|].
  destruct (asciiSpace c) eqn:E; simpl; auto.
Qed.

Lemma TrimLeft_id (s : string) : trimmedLeft s -> TrimLeft s = s.
Proof. destruct s as [|c s]; simpl; [reflexivity|]. intros ->. reflexivity. Qed.

Lemma TrimRight_trimmedLeft (s : string) :
  trimmedLeft s -> trimmedLeft (TrimRight s).
Proof.
  destruct s as [|c s]; simpl; [auto|]. intros Hc.
  destruct (TrimRight s); simpl; [rewrite Hc|]; simpl; auto.
Qed.

Lemma TrimRight_idem (s : string) : TrimRight (TrimRight s) = TrimRight s.
Proof.
  induction s as [|c s IH]; simpl; [reflexivity|].
  destruct (TrimRight s) as [|d r] eqn:E.
  - destruct (asciiSpace c) eqn:Ec; simpl; [reflexivity|]. rewrite Ec. reflexivity.
  - change (TrimRight (String c (String d r))) with
      (match TrimRight (String d r) with
       | EmptyString => if asciiSpace c then EmptyString else String c EmptyString
       | r' => String c r'
       end).
    rewrite IH. reflexivity.
Qed.

Lemma TrimSpace_idem (s : string) : TrimSpace (TrimSpace s) = TrimSpace s.
Proof.
  unfold TrimSpace.
  rewrite (TrimLeft_id (TrimRight (TrimLeft s))).
  - apply TrimRight_idem.
  - apply TrimRight_trimmedLeft, TrimLeft_trimmedLeft.
Qed.

End StringFacts.

(** ** The segmenter *)

Section Segmenter.
Import strings StringFacts negotiator.

(** A turn of the loop either leaves it, or shortens [accept], or hands
    the state it was given back unchanged. *)
Lemma splitStep_progress (accept : string) (parts : list string) :
  match splitStep accept parts with
  | Break _ => True
  | Again (accept', parts') =>
      (String.length accept' < String.length accept)%nat
      \/ (accept' <> EmptyString
          /\ splitStep accept' parts' = Again (accept', parts'))
  end.
Proof.
  unfold splitStep.
  destruct (IndexByte (TrimSpace accept) ",") as [idx|] eqn:Hidx; [|exact Logic.I].
  destruct (_ =? 1)%nat eqn:Hq.
  - right. split.
    + intros E. rewrite E in Hidx. discriminate.
    + rewrite TrimSpace_idem, Hidx, Hq. reflexivity.
  - left. rewrite length_drop.
    pose proof (IndexByte_lt _ _ _ Hidx). pose proof (length_TrimSpace accept). lia.
Qed.

(** A state that a turn hands back unchanged is never left. *)
Lemma splitLoop_stuck (accept : string) (parts : list string) :
  accept <> EmptyString ->
  splitStep accept parts = Again (accept, parts) ->
  forall fuel, splitLoop fuel accept parts = None.
Proof.
  intros Hne Hstep fuel. induction fuel as [|fuel IH]; simpl.
  - destruct accept; [contradiction|reflexivity].
  - destruct accept; [contradiction|]. rewrite Hstep. exact IH.
Qed.

Lemma splitLoop_mono (fuel fuel' : nat) (accept : string) (parts r : list string) :
  splitLoop fuel accept parts = Some r -> (fuel <= fuel')%nat ->
  splitLoop fuel' accept parts = Some r.
Proof.
  revert fuel' accept parts. induction fuel as [|fuel IH]; intros fuel' accept parts.
  - destruct accept; simpl; [|discriminate].
    intros [= <-] _. destruct fuel'; reflexivity.
  - destruct accept as [|c s]; simpl.
    + intros [= <-] _. destruct fuel'; reflexivity.
    + intros H Hle. destruct fuel' as [|fuel']; [lia|]. simpl.
      destruct (splitStep (String c s) parts) as [[a' p']|r']; [|exact H].
      apply IH; [exact H|lia].
Qed.

Lemma splitLoop_decides (n : nat) (accept : string) (parts : list string) :
  (String.length accept < n)%nat ->
  splitLoop n accept parts = None ->
  forall fuel, splitLoop fuel accept parts = None.
Proof.
  revert accept parts. induction n as [|n IH]; intros accept parts Hlen; [lia|].
  destruct accept as [|c s]; [discriminate|]. simpl.
  pose proof (splitStep_progress (String c s) parts) as Hp.
  destruct (splitStep (String c s) parts) as [[a' p']|r'] eqn:Hstep; [|discriminate].
  intros Hn [|fuel]; [reflexivity|]. simpl. rewrite Hstep.
  destruct Hp as [Hshort|[Hne Hfix]].
  - apply IH; [simpl in *; lia|exact Hn].
  - apply splitLoop_stuck; assumption.
Qed.

(** The fuel of [splitMediaTypes] is enough: a result is the result of
    every longer run, and no result means that no run of the loop, however
    long, leaves it. *)
Lemma splitLoop_adequate (accept : string) :
  match splitMediaTypes accept with
  | Some r =>
      forall fuel, (S (String.length accept) <= fuel)%nat ->
                   splitLoop fuel accept [] = Some r
  | None => forall fuel, splitLoop fuel accept [] = None
  end.
Proof.
  unfold splitMediaTypes.
  destruct (splitLoop (S (String.length accept)) accept []) as [r|] eqn:E.
  - intros fuel Hle. eapply splitLoop_mono; eassumption.
  - eapply splitLoop_decides; [|exact E]. lia.
Qed.

(** C1. [splitMediaTypes] does not return on every header.  When the
    first comma of what is left of the header comes after an odd number
    of double quotes, a turn of the loop changes nothing and the loop
    goes round for ever: on [text/html;title=<dq>a,b<dq>] no number of
    turns ends it, and so [PreferredMediaTypes] does not return
    either. *)
Theorem splitMediaTypes_quotedComma_never_returns :
  (forall fuel, splitLoop fuel quotedComma [] = None)
  /\ splitMediaTypes quotedComma = None
  /\ forall ParseFloat rangeParams provided,
       PreferredMediaTypes ParseFloat rangeParams quotedComma provided = None.
Proof.
  split; [|split].
  - apply splitLoop_stuck; [discriminate|]. vm_compute. reflexivity.
  - vm_compute. reflexivity.
  - intros ParseFloat rangeParams provided.
    unfold PreferredMediaTypes, parseAccept.
    change (String.eqb quotedComma "") with false. cbv iota.
    assert (splitMediaTypes quotedComma = None) as -> by (vm_compute; reflexivity).
    reflexivity.
Qed.

End Segmenter.

(** ** Facts about the comparison of [float64] *)

Module FloatFacts.

Ltac cmp_cases :=
  repeat match goal with
    | |- context [Z.compare ?a ?b] =>
        let H := fresh in destruct (Z.compare_spec a b) as [H|H|H]
    | |- context [PosDef.Pos.compare_cont Eq ?a ?b] =>
        let H := fresh in
        change (PosDef.Pos.compare_cont Eq a b) with (Pos.compare a b);
        destruct (Pos.compare_spec a b) as [H|H|H]
    end.

Lemma SFcompare_Lt_trans (a b c : spec_float) :
  SFcompare a b = Some Lt -> SFcompare b c = Some Lt -> SFcompare a c = Some Lt.
Proof.
  destruct a as [sa|sa| |sa ma ea], b as [sb|sb| |sb mb eb],
    c as [sc|sc| |sc mc ec]; simpl;
    try discriminate;
    repeat match goal with s : bool |- _ => destruct s end;
    try discriminate; try reflexivity;
    cmp_cases; simpl; try discriminate; try reflexivity; intros; lia.
Qed.

Lemma gt_trans (a b c : spec_float) :
  float64.gt a b = true -> float64.gt b c = true -> float64.gt a c = true.
Proof.
  unfold float64.gt, SFltb. intros Hab Hbc.
  destruct (SFcompare b a) as [[]|] eqn:E1; try discriminate.
  destruct (SFcompare c b) as [[]|] eqn:E2; try discriminate.
  rewrite (SFcompare_Lt_trans c b a E2 E1). reflexivity.
Qed.

Lemma le_not_gt (a b : spec_float) :
  float64.le a b = true -> float64.gt a b = false.
Proof.
  unfold float64.le, float64.gt, SFleb, SFltb.
  destruct a as [sa|sa| |sa ma ea], b as [sb|sb| |sb mb eb]; simpl;
    try discriminate; try reflexivity;
    repeat match goal with s : bool |- _ => destruct s end;
    try discriminate; try reflexivity;
    cmp_cases; simpl; try discriminate; try reflexivity; intros; lia.
Qed.

Lemma gt_irrefl (a : spec_float) : float64.gt a a = false.
Proof.
  unfold float64.gt, SFltb.
  destruct a as [sa|sa| |sa ma ea]; simpl; try reflexivity;
    repeat match goal with s : bool |- _ => destruct s end; try reflexivity;
    cmp_cases; simpl; try reflexivity; lia.
Qed.

Lemma SFcompare_Eq_Lt (a b c : spec_float) :
  SFcompare a b = Some Eq -> SFcompare b c = Some Lt -> SFcompare a c = Some Lt.
Proof.
  destruct a as [sa|sa| |sa ma ea], b as [sb|sb| |sb mb eb],
    c as [sc|sc| |sc mc ec]; simpl;
    try discriminate;
    repeat match goal with s : bool |- _ => destruct s end;
    try discriminate; try reflexivity;
    cmp_cases; simpl; try discriminate; try reflexivity; intros; lia.
Qed.

Lemma SFcompare_Lt_Eq (a b c : spec_float) :
  SFcompare a b = Some Lt -> SFcompare b c = Some Eq -> SFcompare a c = Some Lt.
Proof.
  destruct a as [sa|sa| |sa ma ea], b as [sb|sb| |sb mb eb],
    c as [sc|sc| |sc mc ec]; simpl;
    try discriminate;
    repeat match goal with s : bool |- _ => destruct s end;
    try discriminate; try reflexivity;
    cmp_cases; simpl; try discriminate; try reflexivity; intros; lia.
Qed.

Lemma SFcompare_Eq_trans (a b c : spec_float) :
  SFcompare a b = Some Eq -> SFcompare b c = Some Eq -> SFcompare a c = Some Eq.
Proof.
  destruct a as [sa|sa| |sa ma ea], b as [sb|sb| |sb mb eb],
    c as [sc|sc| |sc mc ec]; simpl;
    try discriminate;
    repeat match goal with s : bool |- _ => destruct s end;
    try discriminate; try reflexivity;
    cmp_cases; simpl; try discriminate; try reflexivity; intros; lia.
Qed.

Lemma SFcompare_opp (a b : spec_float) :
  SFcompare b a = CompOpp <$> SFcompare a b.
Proof.
  destruct a as [sa|sa| |sa ma ea], b as [sb|sb| |sb mb eb]; simpl;
    try reflexivity;
    repeat match goal with s : bool |- _ => destruct s end; try reflexivity;
    cmp_cases; simpl; try reflexivity; lia.
Qed.

Lemma SFcompare_number (a b : spec_float) :
  float64.isNaN a = false -> float64.isNaN b = false ->
  exists c, SFcompare a b = Some c.
Proof. destruct a, b; simpl; try discriminate; eauto. Qed.

(** On numbers, [!=] and [>] are those of a total preorder. *)
Lemma ne_false_gt (a b c : spec_float) :
  float64.ne a b = false -> float64.gt a c = float64.gt b c.
Proof.
  unfold float64.ne, float64.gt, SFeqb, SFltb. intros Hab.
  destruct (SFcompare a b) as [[]|] eqn:E; try discriminate.
  destruct (SFcompare c a) as [[]|] eqn:E1, (SFcompare c b) as [[]|] eqn:E2;
    try reflexivity; exfalso.
  all: pose proof (SFcompare_opp a b) as Hba; rewrite E in Hba; simpl in Hba.
  all: pose proof (SFcompare_opp c a) as Hac; rewrite E1 in Hac; simpl in Hac.
  all: pose proof (SFcompare_opp c b) as Hbc; rewrite E2 in Hbc; simpl in Hbc.
  all: first
    [ pose proof (SFcompare_Eq_trans _ _ _ E1 E) as X; congruence
    | pose proof (SFcompare_Lt_Eq _ _ _ E1 E) as X; congruence
    | pose proof (SFcompare_Lt_Eq _ _ _ E2 Hba) as X; congruence
    | pose proof (SFcompare_Eq_trans _ _ _ E2 Hba) as X; congruence
    | pose proof (SFcompare_Eq_Lt _ _ _ Hba Hac) as X; congruence
    | pose proof (SFcompare_Eq_Lt _ _ _ E Hbc) as X; congruence
    | destruct c, a; simpl in *; repeat match goal with s : bool |- _ => destruct s end;
      discriminate
    | destruct c, b; simpl in *; repeat match goal with s : bool |- _ => destruct s end;
      discriminate ].
Qed.

Lemma ne_false_gt_r (a b c : spec_float) :
  float64.ne b c = false -> float64.gt a b = float64.gt a c.
Proof.
  unfold float64.ne, float64.gt, SFeqb, SFltb. intros Hbc.
  destruct (SFcompare b c) as [[]|] eqn:E; try discriminate.
  pose proof (SFcompare_opp b c) as Hcb; rewrite E in Hcb; simpl in Hcb.
  destruct (SFcompare b a) as [[]|] eqn:E1, (SFcompare c a) as [[]|] eqn:E2;
    try reflexivity; exfalso.
  all: pose proof (SFcompare_opp b a) as Hab; rewrite E1 in Hab; simpl in Hab.
  all: pose proof (SFcompare_opp c a) as Hac; rewrite E2 in Hac; simpl in Hac.
  all: first
    [ pose proof (SFcompare_Eq_trans _ _ _ Hcb E1) as X; congruence
    | pose proof (SFcompare_Eq_Lt _ _ _ Hcb E1) as X; congruence
    | pose proof (SFcompare_Eq_trans _ _ _ E E2) as X; congruence
    | pose proof (SFcompare_Eq_Lt _ _ _ E E2) as X; congruence
    | pose proof (SFcompare_Lt_Eq _ _ _ Hab E) as X; congruence
    | pose proof (SFcompare_Lt_Eq _ _ _ Hac Hcb) as X; congruence
    | destruct b, a; simpl in *; repeat match goal with s : bool |- _ => destruct s end;
      discriminate
    | destruct c, a; simpl in *; repeat match goal with s : bool |- _ => destruct s end;
      discriminate ].
Qed.

Lemma ne_sym (a b : spec_float) : float64.ne a b = float64.ne b a.
Proof.
  unfold float64.ne, SFeqb. rewrite (SFcompare_opp a b).
  by destruct (SFcompare a b) as [[]|].
Qed.

Lemma ne_false_trans (a b c : spec_float) :
  float64.ne a b = false -> float64.ne b c = false -> float64.ne a c = false.
Proof.
  unfold float64.ne, SFeqb.
  destruct (SFcompare a b) as [[]|] eqn:E1; try discriminate.
  destruct (SFcompare b c) as [[]|] eqn:E2; try discriminate.
  by rewrite (SFcompare_Eq_trans _ _ _ E1 E2).
Qed.

Lemma gt_ne (a b : spec_float) : float64.gt a b = true -> float64.ne a b = true.
Proof.
  unfold float64.ne, float64.gt, SFeqb, SFltb. rewrite (SFcompare_opp b a).
  by destruct (SFcompare b a) as [[]|].
Qed.

Lemma ne_gt_total (a b : spec_float) :
  float64.isNaN a = false -> float64.isNaN b = false -> float64.ne a b = true ->
  float64.gt a b = true \/ float64.gt b a = true.
Proof.
  intros Ha Hb. unfold float64.ne, float64.gt, SFeqb, SFltb.
  rewrite (SFcompare_opp a b).
  destruct (SFcompare_number a b Ha Hb) as [[] ->]; simpl; auto.
Qed.

End FloatFacts.

(** ** The specificity matcher *)

Section Matcher.
Import strings negotiator.

Variable ParseFloat : string -> option float64.
Variable rangeParams : gmap string string -> list (string * string).

(** A [range] over a map yields each of its entries once. *)
Hypothesis rangeParams_perm : forall m, rangeParams m ≡ₚ map_to_list m.

Local Abbreviation parseMediaType := (negotiator.parseMediaType ParseFloat).
Local Abbreviation specify := (negotiator.specify ParseFloat rangeParams).

Lemma specifyParams_forallb (kvs : list (string * string)) (p : mediaType.t) (s : Z) :
  specifyParams kvs p s =
  if forallb (fun kv => paramMatches p kv.1 kv.2) kvs
  then Some (match kvs with [] => s | _ :: _ => Z.lor s 1 end)
  else None.
Proof.
  revert s. induction kvs as [|[key val] kvs IH]; intros s; simpl; [reflexivity|].
  fold (paramMatches p key val). destruct (paramMatches p key val); simpl; [|reflexivity].
  rewrite IH. destruct (forallb _ kvs); [|reflexivity].
  destruct kvs; [reflexivity|]. rewrite <- Z.lor_assoc. reflexivity.
Qed.

Lemma forallb_false_elem {A : Type} (f : A -> bool) (l : list A) :
  forallb f l = false -> exists x, x ∈ l /\ f x = false.
Proof.
  induction l as [|x l IH]; simpl; [discriminate|].
  destruct (f x) eqn:E; simpl.
  - intros H. destruct (IH H) as (y & Hy & Hf). exists y. split; [by right|done].
  - intros _. exists x. split; [by left|done].
Qed.

Lemma forallb_true_elem {A : Type} (f : A -> bool) (l : list A) :
  forallb f l = true <-> forall x, x ∈ l -> f x = true.
Proof.
  rewrite forallb_forall. split; intros H x Hx; apply H; by apply list_elem_of_In.
Qed.

Lemma forallb_ext_elem {A : Type} (f g : A -> bool) (l : list A) :
  (forall x, x ∈ l -> f x = g x) -> forallb f l = forallb g l.
Proof.
  induction l as [|x l IH]; intros H; simpl; [reflexivity|].
  rewrite H by (by left). rewrite IH; [reflexivity|].
  intros y Hy. apply H. by right.
Qed.

Lemma rangeParams_elem (m : gmap string string) (key val : string) :
  (key, val) ∈ rangeParams m <-> m !! key = Some val.
Proof. rewrite rangeParams_perm. apply elem_of_map_to_list. Qed.

Lemma rangeParams_nil (m : gmap string string) : rangeParams m = [] <-> m = ∅.
Proof.
  rewrite <- map_to_list_empty_iff. split; intros H.
  - apply Permutation_nil. rewrite <- H. apply rangeParams_perm.
  - apply Permutation_nil. rewrite <- H. symmetry. apply rangeParams_perm.
Qed.

(** The parameter loop of [specify], whatever the order of the visit:
    it fails when some declared parameter does not match, and otherwise
    sets bit 1 when there is a declared parameter. *)
Lemma specifyParams_range (m : gmap string string) (p : mediaType.t) (s : Z) :
  (specifyParams (rangeParams m) p s = None <->
     exists key val, m !! key = Some val /\ paramMatches p key val = false)
  /\ (forall s', specifyParams (rangeParams m) p s = Some s' ->
        s' = Z.lor s (if decide (m = ∅) then 0 else 1)
        /\ forall key val, m !! key = Some val -> paramMatches p key val = true).
Proof.
  rewrite specifyParams_forallb.
  destruct (forallb _ (rangeParams m)) eqn:E.
  - rewrite forallb_true_elem in E. split.
    + split; [discriminate|]. intros (key & val & Hm & Hf).
      apply rangeParams_elem, E in Hm. simpl in Hm. congruence.
    + intros s' [= <-]. split.
      * destruct (decide (m = ∅)) as [Hm|Hm].
        -- apply rangeParams_nil in Hm. rewrite Hm. by rewrite Z.lor_0_r.
        -- destruct (rangeParams m) eqn:Er; [|done].
           by apply rangeParams_nil in Er.
      * intros key val Hm. by apply rangeParams_elem, E in Hm.
  - split; [|discriminate]. split; [|done]. intros _.
    apply forallb_false_elem in E as ([key val] & Hin & Hf).
    exists key, val. split; [by apply rangeParams_elem|done].
Qed.

Lemma paramMatches_false (p : mediaType.t) (key val : string) :
  paramMatches p key val = false <->
  val <> "*"
  /\ EqualFold val (default EmptyString (mediaType.Params p !! key)) = false.
Proof.
  unfold paramMatches. rewrite orb_false_iff, String.eqb_neq. reflexivity.
Qed.

(** [specify] as one expression: the two name tests, then the parameter
    loop started with the score of the names. *)
Lemma specify_eq (typ : string) (spec : mediaType.t) (index : Z) :
  specify typ spec index =
  match parseMediaType typ 0 with
  | None => None
  | Some p =>
      let exactT := EqualFold (mediaType.Type_ spec) (mediaType.Type_ p) in
      let exactS := EqualFold (mediaType.Subtype spec) (mediaType.Subtype p) in
      if (exactT || String.eqb (mediaType.Type_ spec) "*")
         && (exactS || String.eqb (mediaType.Subtype spec) "*")
      then
        s ← specifyParams (rangeParams (mediaType.Params spec)) p
               (Z.lor (if exactT then 4 else 0) (if exactS then 2 else 0));
        Some (mediaType.mk (mediaType.Type_ spec) (mediaType.Subtype spec)
                (mediaType.Params spec) (mediaType.Q spec) index s)
      else None
  end.
Proof.
  unfold negotiator.specify. destruct (parseMediaType typ 0) as [p|]; [|reflexivity].
  simpl.
  destruct (EqualFold (mediaType.Type_ spec) (mediaType.Type_ p));
    destruct (EqualFold (mediaType.Subtype spec) (mediaType.Subtype p));
    destruct (String.eqb (mediaType.Type_ spec) "*");
    destruct (String.eqb (mediaType.Subtype spec) "*"); reflexivity.
Qed.

(** C5. [specify] returns nil exactly when the candidate does not parse
    as type/subtype, or the type of the spec is neither the wildcard nor
    equal under case folding to the type of the candidate, or likewise
    for the subtype, or a parameter declared on the spec has a value that
    is neither the wildcard nor equal under case folding to the value of
    the candidate for that key.  On success the result is the spec with
    the given index and, as its score, the bitwise or of 4 (type matched
    exactly), 2 (subtype matched exactly) and 1 (the spec declares a
    parameter).  Parameters that only the candidate has do not count: two
    candidates with the same type and subtype that agree on the keys the
    spec declares get the same answer. *)
Theorem specify_spec (typ : string) (spec : mediaType.t) (index : Z) :
  (specify typ spec index = None <->
     parseMediaType typ 0 = None
     \/ exists p, parseMediaType typ 0 = Some p
          /\ ((EqualFold (mediaType.Type_ spec) (mediaType.Type_ p) = false
               /\ mediaType.Type_ spec <> "*")
              \/ (EqualFold (mediaType.Subtype spec) (mediaType.Subtype p) = false
                  /\ mediaType.Subtype spec <> "*")
              \/ exists key val,
                  mediaType.Params spec !! key = Some val
                  /\ val <> "*"
                  /\ EqualFold val
                       (default EmptyString (mediaType.Params p !! key)) = false))
  /\ (forall r, specify typ spec index = Some r ->
        exists p, parseMediaType typ 0 = Some p
          /\ r = mediaType.mk (mediaType.Type_ spec) (mediaType.Subtype spec)
                   (mediaType.Params spec) (mediaType.Q spec) index
                   (Z.lor
                      (Z.lor
                         (if EqualFold (mediaType.Type_ spec) (mediaType.Type_ p)
                          then 4 else 0)
                         (if EqualFold (mediaType.Subtype spec) (mediaType.Subtype p)
                          then 2 else 0))
                      (if decide (mediaType.Params spec = ∅) then 0 else 1)))
  /\ (forall typ' p p',
        parseMediaType typ 0 = Some p -> parseMediaType typ' 0 = Some p' ->
        mediaType.Type_ p = mediaType.Type_ p' ->
        mediaType.Subtype p = mediaType.Subtype p' ->
        (forall key, is_Some (mediaType.Params spec !! key) ->
                     mediaType.Params p !! key = mediaType.Params p' !! key) ->
        specify typ' spec index = specify typ spec index).
Proof.
  split; [|split].
  - rewrite specify_eq. destruct (parseMediaType typ 0) as [p|]; [|by split; [left|]].
    cbv zeta.
    destruct (EqualFold (mediaType.Type_ spec) (mediaType.Type_ p)) eqn:ET;
      destruct (String.eqb_spec (mediaType.Type_ spec) "*") as [HT|HT];
      destruct (EqualFold (mediaType.Subtype spec) (mediaType.Subtype p)) eqn:ES;
      destruct (String.eqb_spec (mediaType.Subtype spec) "*") as [HS|HS];
      cbn [orb andb];
      try (split; [intros _; right; exists p; split; [done|]; tauto|done]).
    all: match goal with
         | |- context [specifyParams ?l ?p0 ?s] =>
             pose proof (specifyParams_range (mediaType.Params spec) p0 s) as [HN _];
             destruct (specifyParams l p0 s) as [s'|] eqn:E
         end; simpl.
    all: split; first
      [ discriminate
      | done
      | intros _; right; exists p; split; [done|]; right; right;
        destruct HN as [HN _]; destruct (HN eq_refl) as (k & v & Hk & Hf);
        apply paramMatches_false in Hf; by exists k, v
      | intros [[=]|(p0 & [= <-] & [[? ?]|[[? ?]|(k & v & Hk & Hv1 & Hv2)]])];
        first
          [ congruence
          | assert (Some s' = None) as [=];
            apply HN; exists k, v; split; [done|]; by apply paramMatches_false ] ].
  - intros r. rewrite specify_eq.
    destruct (parseMediaType typ 0) as [p|]; [|discriminate]. cbv zeta.
    destruct (_ && _); [|discriminate].
    match goal with
    | |- context [specifyParams ?l ?p0 ?s] =>
        pose proof (specifyParams_range (mediaType.Params spec) p0 s) as [_ HS];
        destruct (specifyParams l p0 s) as [s'|] eqn:E
    end; simpl; [|discriminate].
    intros [= <-]. exists p. split; [done|].
    destruct (HS s' eq_refl) as [-> _]. reflexivity.
  - intros typ' p p' Hp Hp' HT HS Hkeys. rewrite !specify_eq, Hp, Hp'. cbv zeta.
    rewrite <- HT, <- HS. destruct (_ && _); [|reflexivity].
    rewrite !specifyParams_forallb.
    assert (forallb (fun kv => paramMatches p' kv.1 kv.2)
              (rangeParams (mediaType.Params spec))
            = forallb (fun kv => paramMatches p kv.1 kv.2)
                (rangeParams (mediaType.Params spec))) as ->; [|reflexivity].
    apply forallb_ext_elem. intros [key val] Hin. unfold paramMatches. simpl.
    apply rangeParams_elem in Hin. rewrite Hkeys; [reflexivity|]. by exists val.
Qed.

End Matcher.

(** ** Facts about the insertion sort *)

Module SortFacts.
Import sort.

Section Facts.
Context {A : Type}.

Lemma sift_perm (less : A -> A -> bool) (x : A) (left : list A) :
  sift less x left ≡ₚ x :: left.
Proof.
  induction left as [|y left IH]; simpl; [reflexivity|].
  destruct (less x y); [|reflexivity].
  rewrite IH. apply perm_swap.
Qed.

Lemma fold_sift_perm (less : A -> A -> bool) (data left : list A) :
  fold_left (fun left x => sift less x left) data left ≡ₚ data ++ left.
Proof.
  revert left. induction data as [|x data IH]; intros left; simpl; [reflexivity|].
  rewrite IH, sift_perm. symmetry. apply Permutation_middle.
Qed.

Lemma SliceStable_perm (less : A -> A -> bool) (data : list A) :
  SliceStable less data ≡ₚ data.
Proof.
  unfold SliceStable, insertionSort.
  rewrite <- Permutation_rev, fold_sift_perm. by rewrite app_nil_r.
Qed.

Lemma sift_ext (less less' : A -> A -> bool) (x : A) (left : list A) :
  (forall y, y ∈ left -> less x y = less' x y) ->
  sift less x left = sift less' x left.
Proof.
  induction left as [|y left IH]; intros H; simpl; [reflexivity|].
  rewrite <- H by (by left). destruct (less x y); [|reflexivity].
  rewrite IH; [reflexivity|]. intros z Hz. apply H. by right.
Qed.

Lemma fold_sift_ext (less less' : A -> A -> bool) (data left : list A) :
  (forall x y, x ∈ data ++ left -> y ∈ data ++ left -> less x y = less' x y) ->
  fold_left (fun left x => sift less x left) data left
  = fold_left (fun left x => sift less' x left) data left.
Proof.
  revert left. induction data as [|x data IH]; intros left H; simpl; [reflexivity|].
  rewrite (sift_ext less less' x left).
  - apply IH. intros y z Hy Hz.
    rewrite sift_perm, <- Permutation_middle in Hy, Hz. by apply H.
  - intros y Hy. apply H; simpl; [by left|]. right. apply elem_of_app. by right.
Qed.

(** The sort only looks at [less] on the elements of the slice. *)
Lemma SliceStable_ext (less less' : A -> A -> bool) (data : list A) :
  (forall x y, x ∈ data -> y ∈ data -> less x y = less' x y) ->
  SliceStable less data = SliceStable less' data.
Proof.
  intros H. unfold SliceStable, insertionSort. f_equal.
  apply fold_sift_ext. intros x y. rewrite app_nil_r. apply H.
Qed.

(** When [less] is transitive and decides every pair of the slice, the
    insertion sort puts the slice in the order of [less]. *)
Lemma sift_sorted (less : A -> A -> bool) (x : A) (left : list A) :
  (forall a b c, less a b = true -> less b c = true -> less a c = true) ->
  StronglySorted (fun a b => less b a = true) left ->
  (forall y, y ∈ left -> less x y = true \/ less y x = true) ->
  StronglySorted (fun a b => less b a = true) (sift less x left).
Proof.
  intros Htrans. induction left as [|y left IH]; intros Hs Htot; simpl.
  - repeat constructor.
  - apply StronglySorted_cons in Hs as [Hy Hs].
    destruct (less x y) eqn:Hxy.
    + apply StronglySorted_cons. split.
      * rewrite sift_perm. by constructor.
      * apply IH; [done|]. intros z Hz. apply Htot. by right.
    + assert (less y x = true) as Hyx.
      { destruct (Htot y) as [H|H]; [by left|congruence|done]. }
      apply StronglySorted_cons. split; [|by apply StronglySorted_cons].
      constructor; [done|].
      eapply Forall_impl; [exact Hy|]. intros z Hz. simpl in Hz. by eapply Htrans.
Qed.

Lemma fold_sift_sorted (less : A -> A -> bool) (data left : list A) :
  (forall a b c, less a b = true -> less b c = true -> less a c = true) ->
  StronglySorted (fun a b => less b a = true) left ->
  StronglySorted (fun a b => less a b = true \/ less b a = true) data ->
  (forall y x, y ∈ left -> x ∈ data -> less x y = true \/ less y x = true) ->
  StronglySorted (fun a b => less b a = true)
    (fold_left (fun left x => sift less x left) data left).
Proof.
  intros Htrans. revert left.
  induction data as [|x data IH]; intros left Hs Hd Htot; simpl; [done|].
  apply StronglySorted_cons in Hd as [Hx Hd].
  apply IH; [|done|].
  - apply sift_sorted; [done..|]. intros y Hy. apply Htot; [done|by left].
  - intros y z Hy Hz. rewrite sift_perm in Hy.
    apply elem_of_cons in Hy as [->|Hy].
    + rewrite Forall_forall in Hx. destruct (Hx z Hz); tauto.
    + apply Htot; [done|by right].
Qed.

Lemma StronglySorted_rev (R : A -> A -> Prop) (l : list A) :
  StronglySorted (fun a b => R b a) l -> StronglySorted R (rev l).
Proof.
  induction l as [|x l IH]; intros H; simpl; [constructor|].
  apply StronglySorted_cons in H as [Hx H].
  apply StronglySorted_app. split; [|split].
  - intros a b Ha Hb. apply list_elem_of_In, in_rev, list_elem_of_In in Ha.
    apply list_elem_of_singleton in Hb as ->.
    rewrite Forall_forall in Hx. by apply Hx.
  - by apply IH.
  - repeat constructor.
Qed.

Lemma SliceStable_sorted (less : A -> A -> bool) (data : list A) :
  (forall a b c, less a b = true -> less b c = true -> less a c = true) ->
  StronglySorted (fun a b => less a b = true \/ less b a = true) data ->
  StronglySorted (fun a b => less a b = true) (SliceStable less data).
Proof.
  intros Htrans Hd. apply StronglySorted_rev.
  apply fold_sift_sorted; [done|constructor|done|].
  intros y x Hy. by apply elem_of_nil in Hy.
Qed.

Lemma StronglySorted_weaken (R R' : A -> A -> Prop) (l : list A) :
  (forall a b, a ∈ l -> b ∈ l -> R a b -> R' a b) ->
  StronglySorted R l -> StronglySorted R' l.
Proof.
  induction l as [|x l IH]; intros H Hs; [constructor|].
  apply StronglySorted_cons in Hs as [Hx Hs]. apply StronglySorted_cons. split.
  - rewrite Forall_forall in *. intros y Hy.
    apply H; [by left|by right|by apply Hx].
  - apply IH; [|done]. intros a b Ha Hb. apply H; by right.
Qed.

Lemma filter_perm (f : A -> bool) (l l' : list A) :
  l ≡ₚ l' -> List.filter f l ≡ₚ List.filter f l'.
Proof.
  induction 1 as [|x l l' _ IH|x y l|l l' l'' _ IH1 _ IH2]; simpl.
  - reflexivity.
  - destruct (f x); by rewrite IH.
  - destruct (f x), (f y); try reflexivity. apply perm_swap.
  - by rewrite IH1.
Qed.

Lemma StronglySorted_filter (R : A -> A -> Prop) (f : A -> bool) (l : list A) :
  StronglySorted R l -> StronglySorted R (List.filter f l).
Proof.
  induction l as [|x l IH]; intros Hs; simpl; [constructor|].
  apply StronglySorted_cons in Hs as [Hx Hs].
  destruct (f x); [|by apply IH].
  apply StronglySorted_cons. split; [|by apply IH].
  rewrite Forall_forall in *. intros y Hy.
  apply Hx. apply list_elem_of_In, filter_In in Hy as [Hy _]. by apply list_elem_of_In.
Qed.

End Facts.

End SortFacts.

(** ** The best match of a candidate *)

Section Priority.
Import strings negotiator FloatFacts.

Variable ParseFloat : string -> option float64.
Variable rangeParams : gmap string string -> list (string * string).

Local Abbreviation specify := (negotiator.specify ParseFloat rangeParams).
Local Abbreviation priorityLoop := (negotiator.priorityLoop ParseFloat rangeParams).
Local Abbreviation getMediaTypePriority :=
  (negotiator.getMediaTypePriority ParseFloat rangeParams).

Lemma takes_better (spec p : mediaType.t) :
  takes spec (Some p) = true <-> better spec p.
Proof.
  unfold takes, better.
  rewrite orb_true_iff, andb_true_iff, Z.ltb_lt, Z.eqb_eq. reflexivity.
Qed.

Lemma takes_atLeast (spec p : mediaType.t) :
  takes spec (Some p) = false -> atLeast p spec.
Proof.
  unfold takes, atLeast.
  rewrite orb_false_iff, andb_false_iff, Z.ltb_ge, Z.eqb_neq.
  intros [Hle [Hne|Hq]]; split; done.
Qed.

Lemma better_trans (r s p : mediaType.t) : better r s -> better s p -> better r p.
Proof.
  unfold better. intros [H1|[H1 Q1]] [H2|[H2 Q2]]; try (left; lia).
  right. split; [lia|]. eapply gt_trans; eassumption.
Qed.

Lemma gt_asym (a b : spec_float) : float64.gt a b = true -> float64.gt b a = false.
Proof.
  intros H. destruct (float64.gt b a) eqn:E; [|reflexivity].
  pose proof (gt_trans _ _ _ H E) as Haa. by rewrite gt_irrefl in Haa.
Qed.

Lemma atLeast_refl (r : mediaType.t) : atLeast r r.
Proof. split; [lia|]. intros _. apply gt_irrefl. Qed.

Lemma better_atLeast (r p : mediaType.t) : better r p -> atLeast r p.
Proof.
  intros [H|[H HQ]]; split; try lia. intros _. by apply gt_asym.
Qed.

Lemma better_atLeast_trans (r p m : mediaType.t) :
  r = p \/ better r p -> atLeast p m -> atLeast r m.
Proof.
  intros [->|[H|[H HQ]]] [Hle Hq]; [done| |]; split; try lia.
  intros E. destruct (float64.gt (mediaType.Q m) (mediaType.Q r)) eqn:G; [|reflexivity].
  rewrite <- Hq by lia. symmetry. eapply gt_trans; eassumption.
Qed.

(** The loop invariant of [getMediaTypePriority]. *)
Lemma priorityLoop_spec (typ : string) (accepted : list mediaType.t) (index : Z)
  (priority : option mediaType.t) :
  match priorityLoop typ accepted index priority with
  | None =>
      priority = None /\ forall a, a ∈ accepted -> specify typ a index = None
  | Some r =>
      (priority = Some r \/ exists a, a ∈ accepted /\ specify typ a index = Some r)
      /\ (forall p, priority = Some p -> r = p \/ better r p)
      /\ (forall a m, a ∈ accepted -> specify typ a index = Some m -> atLeast r m)
  end.
Proof.
  revert priority. induction accepted as [|a rest IH]; intros priority; simpl.
  - destruct priority as [r|].
    + split; [by left|]. split; [intros p [= <-]; by left|].
      intros a m Ha. by apply elem_of_nil in Ha.
    + split; [done|]. intros a Ha. by apply elem_of_nil in Ha.
  - destruct (specify typ a index) as [spec|] eqn:Hspec.
    + destruct (takes spec priority) eqn:Ht.
      * specialize (IH (Some spec)).
        destruct (priorityLoop typ rest index (Some spec)) as [r|]; [|by destruct IH].
        destruct IH as (Hfrom & Hprio & Hall).
        specialize (Hprio spec eq_refl).
        split; [|split].
        -- right. destruct Hfrom as [[= <-]|(a' & Ha' & Hs)].
           ++ exists a. split; [by left|done].
           ++ exists a'. split; [by right|done].
        -- intros p ->. apply takes_better in Ht. right.
           destruct Hprio as [->|Hb]; [done|]. eapply better_trans; eassumption.
        -- intros a' m [->|Ha']%elem_of_cons Hm.
           ++ rewrite Hspec in Hm. injection Hm as <-.
              destruct Hprio as [->|Hb]; [apply atLeast_refl|by apply better_atLeast].
           ++ by eapply Hall.
      * destruct priority as [p|]; [|discriminate].
        specialize (IH (Some p)).
        destruct (priorityLoop typ rest index (Some p)) as [r|]; [|by destruct IH].
        destruct IH as (Hfrom & Hprio & Hall).
        split; [|split].
        -- destruct Hfrom as [?|(a' & Ha' & Hs)]; [by left|].
           right. exists a'. split; [by right|done].
        -- done.
        -- intros a' m [->|Ha']%elem_of_cons Hm.
           ++ rewrite Hspec in Hm. injection Hm as <-.
              eapply better_atLeast_trans; [by apply Hprio|by apply takes_atLeast].
           ++ by eapply Hall.
    + specialize (IH priority).
      destruct (priorityLoop typ rest index priority) as [r|].
      * destruct IH as (Hfrom & Hprio & Hall). split; [|split].
        -- destruct Hfrom as [?|(a' & Ha' & Hs)]; [by left|].
           right. exists a'. split; [by right|done].
        -- done.
        -- intros a' m [->|Ha']%elem_of_cons Hm; [congruence|by eapply Hall].
      * destruct IH as [-> Hall]. split; [done|].
        intros a' [->|Ha']%elem_of_cons; [done|by apply Hall].
Qed.

End Priority.

(** ** The resolver *)

Section Resolver.
Import strings negotiator FloatFacts SortFacts.

Variable ParseFloat : string -> option float64.
Variable rangeParams : gmap string string -> list (string * string).

Local Abbreviation parseMediaType := (negotiator.parseMediaType ParseFloat).
Local Abbreviation parseAccept := (negotiator.parseAccept ParseFloat).
Local Abbreviation specify := (negotiator.specify ParseFloat rangeParams).
Local Abbreviation priorityLoop := (negotiator.priorityLoop ParseFloat rangeParams).
Local Abbreviation getMediaTypePriority :=
  (negotiator.getMediaTypePriority ParseFloat rangeParams).
Local Abbreviation priorityList := (negotiator.priorityList ParseFloat rangeParams).
Local Abbreviation PreferredMediaTypes :=
  (negotiator.PreferredMediaTypes ParseFloat rangeParams).
Local Abbreviation acceptableIn := (acceptable ParseFloat rangeParams).

(** The index handed to [specify] only ends up in the field [I]. *)
Lemma specify_index (typ : string) (a : mediaType.t) (i : Z) :
  specify typ a i = setI i <$> specify typ a 0.
Proof.
  unfold negotiator.specify.
  destruct (parseMediaType typ 0) as [p|]; simpl; [|reflexivity].
  destruct (EqualFold (mediaType.Type_ a) (mediaType.Type_ p));
    destruct (String.eqb (mediaType.Type_ a) "*");
    destruct (EqualFold (mediaType.Subtype a) (mediaType.Subtype p));
    destruct (String.eqb (mediaType.Subtype a) "*"); simpl; try reflexivity.
  all: match goal with
       | |- context [specifyParams ?l ?p0 ?s] => destruct (specifyParams l p0 s)
       end; reflexivity.
Qed.

Lemma takes_setI (i : Z) (spec : mediaType.t) (priority : option mediaType.t) :
  takes (setI i spec) (setI i <$> priority) = takes spec priority.
Proof. destruct priority; reflexivity. Qed.

Lemma priorityLoop_index (typ : string) (accepted : list mediaType.t) (i : Z)
  (priority : option mediaType.t) :
  priorityLoop typ accepted i (setI i <$> priority)
  = setI i <$> priorityLoop typ accepted 0 priority.
Proof.
  revert priority. induction accepted as [|a rest IH]; intros priority; simpl;
    [reflexivity|].
  rewrite (specify_index typ a i).
  destruct (specify typ a 0) as [spec|]; simpl; [|apply IH].
  rewrite takes_setI. destruct (takes spec priority); [|apply IH].
  apply (IH (Some spec)).
Qed.

Lemma getMediaTypePriority_index (typ : string) (accepted : list mediaType.t) (i : Z) :
  getMediaTypePriority typ accepted i = setI i <$> getMediaTypePriority typ accepted 0.
Proof. apply (priorityLoop_index typ accepted i None). Qed.

(** Every collected priority carries the index of a candidate, so the
    read [provided[priority.I]] is within bounds. *)
Lemma priorityList_index (accepts : list mediaType.t) (provided : list string)
  (i : Z) (priority : mediaType.t) :
  priority ∈ priorityList provided i accepts ->
  i <= mediaType.I priority < i + Z.of_nat (length provided).
Proof.
  revert i. induction provided as [|typ rest IH]; intros i; simpl.
  - intros H. by apply elem_of_nil in H.
  - rewrite getMediaTypePriority_index.
    destruct (getMediaTypePriority typ accepts 0) as [p|]; simpl.
    + intros [->|H]%elem_of_cons; [simpl; lia|].
      apply IH in H. lia.
    + intros H. apply IH in H. lia.
Qed.

Lemma acceptedTypes_eq (accepts : list mediaType.t) :
  acceptedTypes accepts = map getFullType (List.filter isQuality accepts).
Proof.
  induction accepts as [|m rest IH]; simpl; [reflexivity|].
  destruct (isQuality m); simpl; by rewrite IH.
Qed.

(** The two loops of the candidates branch keep, in the order given, the
    candidates that have a best match of positive quality. *)
Lemma providedTypes_filter (accepts : list mediaType.t) (pre rest : list string) :
  providedTypes (pre ++ rest)
    (priorityList rest (Z.of_nat (length pre)) accepts)
  = List.filter (acceptableIn accepts) rest.
Proof.
  revert pre. induction rest as [|typ rest IH]; intros pre; simpl; [reflexivity|].
  specialize (IH (pre ++ [typ])).
  rewrite <- app_assoc, length_app, Nat2Z.inj_add in IH. simpl in IH.
  unfold acceptable. rewrite getMediaTypePriority_index.
  destruct (getMediaTypePriority typ accepts 0) as [p|]; simpl; [|exact IH].
  change (isQuality (setI (Z.of_nat (length pre)) p)) with (isQuality p).
  destruct (isQuality p); [|exact IH].
  rewrite Nat2Z.id, nth_middle. f_equal. exact IH.
Qed.

(** [PreferredMediaTypes] as one expression. *)
Lemma PreferredMediaTypes_eq (accept : string) (provided : list string) :
  PreferredMediaTypes accept provided =
  specs ← parseAccept (if String.eqb accept "" then "*/*" else accept);
  Some (match provided with
        | [] => map getFullType (List.filter isQuality (sort.SliceStable less specs))
        | _ :: _ => List.filter (acceptableIn (sort.SliceStable less specs)) provided
        end).
Proof.
  unfold negotiator.PreferredMediaTypes.
  destruct (parseAccept _) as [specs|]; simpl; [|reflexivity].
  destruct provided as [|typ rest].
  - simpl. by rewrite acceptedTypes_eq.
  - change (length (typ :: rest) =? 0)%nat with false. cbv iota.
    by rewrite (providedTypes_filter _ [] (typ :: rest)).
Qed.

(** The candidates branch keeps the candidates in the order given. *)
Lemma PreferredMediaTypes_provided (accept : string) (provided : list string)
  (specs : list mediaType.t) :
  provided <> [] ->
  parseAccept (if String.eqb accept "" then "*/*" else accept) = Some specs ->
  PreferredMediaTypes accept provided
  = Some (List.filter (acceptableIn (sort.SliceStable less specs)) provided).
Proof.
  intros Hne Hspecs. rewrite PreferredMediaTypes_eq, Hspecs.
  by destruct provided.
Qed.

(** The branch without candidates lists the specs of positive quality. *)
Lemma PreferredMediaTypes_accepts (accept : string) (specs : list mediaType.t) :
  parseAccept (if String.eqb accept "" then "*/*" else accept) = Some specs ->
  PreferredMediaTypes accept []
  = Some (map getFullType (List.filter isQuality (sort.SliceStable less specs))).
Proof. intros Hspecs. by rewrite PreferredMediaTypes_eq, Hspecs. Qed.

(** A match found by [specify] carries the quality of its spec. *)
Lemma specify_Q (typ : string) (a r : mediaType.t) (i : Z) :
  specify typ a i = Some r -> mediaType.Q r = mediaType.Q a /\ mediaType.I r = i.
Proof.
  unfold negotiator.specify.
  destruct (parseMediaType typ 0) as [p|]; simpl; [|discriminate].
  destruct (EqualFold (mediaType.Type_ a) (mediaType.Type_ p));
    destruct (String.eqb (mediaType.Type_ a) "*");
    destruct (EqualFold (mediaType.Subtype a) (mediaType.Subtype p));
    destruct (String.eqb (mediaType.Subtype a) "*"); simpl; try discriminate.
  all: match goal with
       | |- context [specifyParams ?l ?p0 ?s] => destruct (specifyParams l p0 s)
       end; simpl; [|discriminate]; by intros [= <-].
Qed.

(** C3. The best match that [getMediaTypePriority] returns for a
    candidate is the result of matching it against one of the specs, no
    matching spec has a higher score, and among the matching specs of the
    same score none has a greater quality.  It returns nil exactly when
    no spec matches, and a candidate that no parsed spec matches is not
    in the list that [PreferredMediaTypes] returns for candidates. *)
Theorem getMediaTypePriority_best (typ : string) (accepted : list mediaType.t)
  (index : Z) :
  match getMediaTypePriority typ accepted index with
  | Some r =>
      (exists a, a ∈ accepted /\ specify typ a index = Some r)
      /\ forall a m, a ∈ accepted -> specify typ a index = Some m ->
           mediaType.S m <= mediaType.S r
           /\ (mediaType.S m = mediaType.S r ->
               float64.gt (mediaType.Q m) (mediaType.Q r) = false)
  | None => forall a, a ∈ accepted -> specify typ a index = None
  end
  /\ forall accept provided specs out,
       parseAccept (if String.eqb accept "" then "*/*" else accept) = Some specs ->
       PreferredMediaTypes accept provided = Some out ->
       provided <> [] ->
       (forall a, a ∈ specs -> specify typ a index = None) ->
       typ ∉ out.
Proof.
  split.
  - unfold negotiator.getMediaTypePriority.
    pose proof (priorityLoop_spec ParseFloat rangeParams typ accepted index None) as H.
    destruct (priorityLoop typ accepted index None) as [r|].
    + destruct H as ([[=]|Hfrom] & _ & Hall). split; [exact Hfrom|].
      intros a m Ha Hm. exact (Hall a m Ha Hm).
    + by destruct H.
  - intros accept provided specs out Hspecs Hout Hne Hnone Hin.
    rewrite (PreferredMediaTypes_provided _ _ _ Hne Hspecs) in Hout.
    injection Hout as <-.
    apply list_elem_of_In, filter_In in Hin as [_ Hacc].
    unfold acceptable, negotiator.getMediaTypePriority in Hacc.
    pose proof (priorityLoop_spec ParseFloat rangeParams typ
                  (sort.SliceStable less specs) 0 None) as H.
    destruct (priorityLoop typ (sort.SliceStable less specs) 0 None) as [r|];
      [|discriminate].
    destruct H as ([[=]|(a & Ha & Hr)] & _).
    rewrite SliceStable_perm in Ha. specialize (Hnone a Ha).
    rewrite specify_index, Hr in Hnone. discriminate.
Qed.

End Resolver.

(** ** What the result depends on

    The candidates branch uses [ParseFloat] only to parse the candidates
    and [rangeParams] only up to the order of the entries. *)

Section Congruence.
Import strings negotiator.

Variables ParseFloat ParseFloat' : string -> option float64.
Variables rangeParams rangeParams' : gmap string string -> list (string * string).

Lemma forallb_perm {A : Type} (f : A -> bool) (l l' : list A) :
  l ≡ₚ l' -> forallb f l = forallb f l'.
Proof.
  induction 1 as [|x l l' _ IH|x y l|l l' l'' _ IH1 _ IH2]; simpl.
  - reflexivity.
  - by rewrite IH.
  - by rewrite !andb_assoc, (andb_comm (f y)).
  - by rewrite IH1.
Qed.

Lemma specifyParams_perm (kvs kvs' : list (string * string)) (p : mediaType.t) (s : Z) :
  kvs ≡ₚ kvs' -> specifyParams kvs p s = specifyParams kvs' p s.
Proof.
  intros H. rewrite !specifyParams_forallb, (forallb_perm _ _ _ H).
  destruct kvs, kvs'; try reflexivity.
  - by apply Permutation_nil_cons in H.
  - symmetry in H. by apply Permutation_nil_cons in H.
Qed.

Lemma specify_congr (typ : string) (a : mediaType.t) (i : Z) :
  parseMediaType ParseFloat typ 0 = parseMediaType ParseFloat' typ 0 ->
  rangeParams (mediaType.Params a) ≡ₚ rangeParams' (mediaType.Params a) ->
  specify ParseFloat rangeParams typ a i = specify ParseFloat' rangeParams' typ a i.
Proof.
  intros Hp Hr. unfold specify. rewrite Hp.
  destruct (parseMediaType ParseFloat' typ 0) as [p|]; simpl; [|reflexivity].
  destruct (if EqualFold _ _ then _ else _) as [s1|]; simpl; [|reflexivity].
  destruct (if EqualFold _ _ then _ else _) as [s2|]; simpl; [|reflexivity].
  by rewrite (specifyParams_perm _ _ p s2 Hr).
Qed.

Lemma priorityLoop_congr (typ : string) (accepted : list mediaType.t) (i : Z)
  (priority : option mediaType.t) :
  parseMediaType ParseFloat typ 0 = parseMediaType ParseFloat' typ 0 ->
  (forall m, rangeParams m ≡ₚ rangeParams' m) ->
  priorityLoop ParseFloat rangeParams typ accepted i priority
  = priorityLoop ParseFloat' rangeParams' typ accepted i priority.
Proof.
  intros Hp Hr. revert priority.
  induction accepted as [|a rest IH]; intros priority; simpl; [reflexivity|].
  rewrite (specify_congr typ a i Hp (Hr _)).
  destruct (specify ParseFloat' rangeParams' typ a i) as [spec|]; [|apply IH].
  destruct (takes spec priority); apply IH.
Qed.

Lemma acceptable_congr (typ : string) (accepts : list mediaType.t) :
  parseMediaType ParseFloat typ 0 = parseMediaType ParseFloat' typ 0 ->
  (forall m, rangeParams m ≡ₚ rangeParams' m) ->
  acceptable ParseFloat rangeParams accepts typ
  = acceptable ParseFloat' rangeParams' accepts typ.
Proof.
  intros Hp Hr. unfold acceptable, getMediaTypePriority.
  by rewrite (priorityLoop_congr typ accepts 0 None Hp Hr).
Qed.

End Congruence.

(** The result of [PreferredMediaTypes] does not depend on the order in
    which the maps are visited. *)
Lemma PreferredMediaTypes_range (ParseFloat : string -> option float64)
  (rangeParams rangeParams' : gmap string string -> list (string * string))
  (accept : string) (provided : list string) :
  (forall m, rangeParams m ≡ₚ rangeParams' m) ->
  negotiator.PreferredMediaTypes ParseFloat rangeParams accept provided
  = negotiator.PreferredMediaTypes ParseFloat rangeParams' accept provided.
Proof.
  intros Hr. rewrite !PreferredMediaTypes_eq.
  destruct (negotiator.parseAccept ParseFloat _) as [specs|]; simpl; [|reflexivity].
  destruct provided as [|c rest]; [reflexivity|]. f_equal.
  apply filter_ext. intros typ. by apply acceptable_congr.
Qed.

(** ** The behaviour of the resolver *)

Section Behaviour.
Import strings negotiator FloatFacts SortFacts.

Variable ParseFloat : string -> option float64.
Variable rangeParams : gmap string string -> list (string * string).

Local Abbreviation parseMediaType := (negotiator.parseMediaType ParseFloat).
Local Abbreviation parseAccept := (negotiator.parseAccept ParseFloat).
Local Abbreviation specify := (negotiator.specify ParseFloat rangeParams).
Local Abbreviation getMediaTypePriority :=
  (negotiator.getMediaTypePriority ParseFloat rangeParams).
Local Abbreviation PreferredMediaTypes :=
  (negotiator.PreferredMediaTypes ParseFloat rangeParams).
Local Abbreviation acceptableIn := (acceptable ParseFloat rangeParams).

Hypothesis rangeParams_perm : forall m, rangeParams m ≡ₚ map_to_list m.

Lemma rangeParams_empty : rangeParams ∅ = [].
Proof. by apply (rangeParams_nil rangeParams rangeParams_perm). Qed.

(** For a candidate without a quality parameter the test [acceptable]
    can be run: nothing is left of the two parameters. *)
Lemma acceptable_closed (typ : string) (accepts : list mediaType.t) :
  parseMediaType typ 0 = negotiator.parseMediaType (fun _ => None) typ 0 ->
  acceptableIn accepts typ = acceptable (fun _ => None) map_to_list accepts typ.
Proof. intros Hp. by apply acceptable_congr. Qed.

Ltac vm_closed t := let v := eval vm_compute in t in change t with v.

Ltac vm_strings :=
  repeat match goal with
    | |- context [negotiator.splitMediaTypes ?a] =>
        vm_closed (negotiator.splitMediaTypes a)
    | |- context [strings.Split ?a ?b] => vm_closed (strings.Split a b)
    | |- context [strings.SplitN2 ?a ?b] => vm_closed (strings.SplitN2 a b)
    | |- context [strings.TrimSpace ?a] => vm_closed (strings.TrimSpace a)
    | |- context [strings.EqualFold ?a ?b] => vm_closed (strings.EqualFold a b)
    | |- context [String.eqb ?a ?b] => vm_closed (String.eqb a b)
    end.

Ltac run_parseMediaType :=
  unfold negotiator.parseMediaType; vm_strings; cbv beta iota; vm_strings;
  cbn [fold_left]; unfold negotiator.parseParam;
  repeat (progress (vm_strings; cbv beta iota)).

Ltac run_parseAccept :=
  unfold negotiator.parseAccept; vm_strings;
  cbn [mbind option_bind negotiator.parseAccepts]; vm_strings;
  run_parseMediaType.

Ltac run_acceptable :=
  cbn [List.filter];
  repeat match goal with
    | |- context [acceptable ParseFloat rangeParams ?l ?t] =>
        rewrite (acceptable_closed t l) by (run_parseMediaType; reflexivity);
        vm_closed (acceptable (fun _ => None) map_to_list l t)
    end.

(** C2. The candidates branch does not sort the matches it has
    collected: with [text/html] accepted at quality 0.2 and
    [application/json] at 0.8, the candidates [text/html],
    [application/json] come back in the order they were given, the less
    preferred one first. *)
Theorem PreferredMediaTypes_provided_order :
  ParseFloat "0.2" = Some (float64.ofRatio 2 10) ->
  ParseFloat "0.8" = Some (float64.ofRatio 8 10) ->
  PreferredMediaTypes "text/html;q=0.2, application/json;q=0.8"
    ["text/html"; "application/json"]
  = Some ["text/html"; "application/json"].
Proof.
  intros H2 H8.
  assert (parseAccept "text/html;q=0.2, application/json;q=0.8"
          = Some [mediaType.mk "text" "html" ∅ (float64.ofRatio 2 10) 0 0;
                  mediaType.mk "application" "json" ∅ (float64.ofRatio 8 10) 1 0])
    as Hspecs.
  { run_parseAccept. rewrite H2, H8. reflexivity. }
  rewrite (PreferredMediaTypes_provided ParseFloat rangeParams
             "text/html;q=0.2, application/json;q=0.8"
             ["text/html"; "application/json"] _ ltac:(discriminate) Hspecs).
  run_acceptable. reflexivity.
Qed.

(** A quality that is not a number breaks the order of the branch
    without candidates: NaN compares false with everything, the
    insertion sort never moves an entry across it, and [image/png] at
    quality 0.8 stays behind [text/html] at quality 0.5. *)
Lemma PreferredMediaTypes_NaN_order :
  ParseFloat "0.5" = Some (float64.ofRatio 5 10) ->
  ParseFloat "NaN" = Some float64.NaN ->
  ParseFloat "0.8" = Some (float64.ofRatio 8 10) ->
  PreferredMediaTypes "text/html;q=0.5, text/plain;q=NaN, image/png;q=0.8" []
  = Some ["text/html"; "image/png"].
Proof.
  intros H5 HN H8.
  assert (parseAccept "text/html;q=0.5, text/plain;q=NaN, image/png;q=0.8"
          = Some [mediaType.mk "text" "html" ∅ (float64.ofRatio 5 10) 0 0;
                  mediaType.mk "text" "plain" ∅ float64.NaN 1 0;
                  mediaType.mk "image" "png" ∅ (float64.ofRatio 8 10) 2 0])
    as Hspecs.
  { run_parseAccept. rewrite H5, HN, H8. reflexivity. }
  rewrite (PreferredMediaTypes_accepts ParseFloat rangeParams
             "text/html;q=0.5, text/plain;q=NaN, image/png;q=0.8" _ Hspecs).
  vm_compute. reflexivity.
Qed.

(** *** Parsing *)

Lemma parseParam_fields (m : mediaType.t) (part : string) :
  mediaType.Type_ (parseParam ParseFloat m part) = mediaType.Type_ m
  /\ mediaType.Subtype (parseParam ParseFloat m part) = mediaType.Subtype m
  /\ mediaType.I (parseParam ParseFloat m part) = mediaType.I m
  /\ mediaType.S (parseParam ParseFloat m part) = mediaType.S m.
Proof.
  unfold parseParam. destruct (SplitN2 part "=") as [|k [|v [|? ?]]]; try done.
  destruct (String.eqb (TrimSpace k) "q"); [|done].
  by destruct (ParseFloat (TrimSpace v)).
Qed.

Lemma fold_parseParam_fields (parts : list string) (m : mediaType.t) :
  mediaType.I (fold_left (parseParam ParseFloat) parts m) = mediaType.I m
  /\ mediaType.S (fold_left (parseParam ParseFloat) parts m) = mediaType.S m.
Proof.
  revert m. induction parts as [|part parts IH]; intros m; simpl; [done|].
  destruct (IH (parseParam ParseFloat m part)) as [-> ->].
  by destruct (parseParam_fields m part) as (_ & _ & -> & ->).
Qed.

(** [parseMediaType] returns nil exactly when the base token has no
    slash. *)
Lemma parseMediaType_None (str : string) (i : Z) :
  parseMediaType str i = None <-> IndexByte (baseToken str) "/" = None.
Proof.
  unfold negotiator.parseMediaType, baseToken.
  destruct (Split str ";") as [|p0 rest]; [done|].
  unfold SplitN2. by destruct (IndexByte p0 "/").
Qed.

Lemma parseMediaType_fields (str : string) (i : Z) (m : mediaType.t) :
  parseMediaType str i = Some m -> mediaType.I m = i /\ mediaType.S m = 0.
Proof.
  unfold negotiator.parseMediaType.
  destruct (Split str ";") as [|p0 rest]; [done|].
  destruct (SplitN2 p0 "/") as [|t [|st [|? ?]]]; try done.
  intros [= <-]. apply fold_parseParam_fields.
Qed.

Lemma parseAccepts_app (l1 l2 : list string) (i : Z) :
  parseAccepts ParseFloat (l1 ++ l2) i
  = parseAccepts ParseFloat l1 i
    ++ parseAccepts ParseFloat l2 (i + Z.of_nat (length l1)).
Proof.
  revert i. induction l1 as [|a l1 IH]; intros i; simpl.
  - by rewrite Z.add_0_r.
  - rewrite IH. replace (i + 1 + Z.of_nat (length l1)) with (i + Z.pos (Pos.of_succ_nat (length l1))) by lia.
    by destruct (parseMediaType (TrimSpace a) i).
Qed.

Lemma parseAccepts_fields (l : list string) (i : Z) (m : mediaType.t) :
  m ∈ parseAccepts ParseFloat l i ->
  mediaType.S m = 0 /\ i <= mediaType.I m < i + Z.of_nat (length l).
Proof.
  revert i. induction l as [|a l IH]; intros i; simpl.
  - intros H. by apply elem_of_nil in H.
  - destruct (parseMediaType (TrimSpace a) i) as [m0|] eqn:E.
    + intros [->|H]%elem_of_cons.
      * apply parseMediaType_fields in E as [-> ->]. lia.
      * apply IH in H. lia.
    + intros H. apply IH in H. lia.
Qed.

(** *** Quality zero *)

Lemma acceptable_iff (accepts : list mediaType.t) (typ : string) (i : Z) :
  acceptableIn accepts typ = true <->
  exists priority, getMediaTypePriority typ accepts i = Some priority
                   /\ isQuality priority = true.
Proof.
  unfold acceptable.
  rewrite (getMediaTypePriority_index ParseFloat rangeParams typ accepts i).
  destruct (negotiator.getMediaTypePriority ParseFloat rangeParams typ accepts 0)
    as [p|]; simpl.
  - split; [intros H; by exists (setI i p)|]. by intros (? & [= <-] & H).
  - split; [done|]. by intros (? & ? & _).
Qed.

(** C6. An entry of quality at most zero is left out in both branches.
    Without candidates the result lists the full types of the sorted
    specs that pass [isQuality]; with candidates it lists, in their
    order, the candidates whose best match passes [isQuality]; and
    [isQuality] fails for every quality that is at most zero.  So
    [application/json;q=0] accepts no [application/json]. *)
Theorem quality_zero_excluded :
  ParseFloat "0" = Some float64.zero ->
  (forall m, float64.le (mediaType.Q m) float64.zero = true -> isQuality m = false)
  /\ (forall accept specs,
        parseAccept (if String.eqb accept "" then "*/*" else accept) = Some specs ->
        PreferredMediaTypes accept []
        = Some (map getFullType
                  (List.filter isQuality (sort.SliceStable less specs))))
  /\ (forall accept provided specs,
        provided <> [] ->
        parseAccept (if String.eqb accept "" then "*/*" else accept) = Some specs ->
        PreferredMediaTypes accept provided
        = Some (List.filter (acceptableIn (sort.SliceStable less specs)) provided)
        /\ forall typ i,
             acceptableIn (sort.SliceStable less specs) typ = true <->
             exists priority,
               getMediaTypePriority typ (sort.SliceStable less specs) i
               = Some priority
               /\ isQuality priority = true)
  /\ PreferredMediaTypes "application/json;q=0" ["application/json"] = Some [].
Proof.
  intros H0. split; [|split; [|split]].
  - intros m. apply le_not_gt.
  - apply PreferredMediaTypes_accepts.
  - intros accept provided specs Hne Hspecs. split.
    + by apply PreferredMediaTypes_provided.
    + intros typ i. apply acceptable_iff.
  - assert (parseAccept "application/json;q=0"
            = Some [mediaType.mk "application" "json" ∅ float64.zero 0 0]) as Hspecs.
    { run_parseAccept. rewrite H0. reflexivity. }
    rewrite (PreferredMediaTypes_provided ParseFloat rangeParams
               "application/json;q=0" ["application/json"] _
               ltac:(discriminate) Hspecs).
    run_acceptable. reflexivity.
Qed.

(** *** The empty header *)

(** C7. An empty header is read as [*/*]: one spec, both names the
    wildcard, no parameter, quality 1.  So for one candidate whose base
    token has a slash the result is that candidate. *)
Theorem PreferredMediaTypes_empty_accept :
  (forall provided,
     PreferredMediaTypes "" provided = PreferredMediaTypes "*/*" provided)
  /\ parseAccept "*/*" = Some [mediaType.mk "*" "*" ∅ float64.one 0 0]
  /\ forall c, IndexByte (baseToken c) "/" <> None ->
               PreferredMediaTypes "" [c] = Some [c].
Proof.
  assert (parseAccept "*/*" = Some [mediaType.mk "*" "*" ∅ float64.one 0 0]) as Hspecs.
  { run_parseAccept. reflexivity. }
  split; [reflexivity|]. split; [exact Hspecs|].
  intros c Hc.
  rewrite (PreferredMediaTypes_provided ParseFloat rangeParams "" [c] _
             ltac:(discriminate) Hspecs).
  change (sort.SliceStable less [mediaType.mk "*" "*" ∅ float64.one 0 0])
    with [mediaType.mk "*" "*" ∅ float64.one 0 0].
  cbn [List.filter].
  assert (acceptableIn [mediaType.mk "*" "*" ∅ float64.one 0 0] c = true)
    as ->; [|reflexivity].
  unfold acceptable, negotiator.getMediaTypePriority. cbn [negotiator.priorityLoop].
  rewrite specify_eq by exact rangeParams_perm.
  destruct (parseMediaType c 0) as [p|] eqn:Hp;
    [|by apply parseMediaType_None in Hp].
  cbn [mediaType.Type_ mediaType.Subtype mediaType.Params mediaType.Q].
  cbv zeta. vm_strings. rewrite !orb_true_r. cbn [andb].
  rewrite rangeParams_empty. reflexivity.
Qed.

(** *** Malformed segments *)

(** C8. A segment whose base token has no slash is dropped and nothing
    else happens: [parseMediaType] returns nil for it (and for no other
    segment), the specs of a header are those of the segments before it
    followed by those of the segments after it, each with the index of
    its own position, and whenever the segmenter returns, so does
    [PreferredMediaTypes]. *)
Theorem malformed_segment_dropped :
  (forall str i, parseMediaType str i = None <->
                 IndexByte (baseToken str) "/" = None)
  /\ (forall before seg after i,
        IndexByte (baseToken (TrimSpace seg)) "/" = None ->
        parseAccepts ParseFloat (before ++ seg :: after) i
        = parseAccepts ParseFloat before i
          ++ parseAccepts ParseFloat after (i + Z.of_nat (length before) + 1))
  /\ (forall accept provided,
        is_Some (splitMediaTypes (if String.eqb accept "" then "*/*" else accept)) ->
        is_Some (PreferredMediaTypes accept provided)).
Proof.
  split; [|split].
  - apply parseMediaType_None.
  - intros before seg after i Hseg. rewrite parseAccepts_app. f_equal. simpl.
    by rewrite (proj2 (parseMediaType_None _ _) Hseg).
  - intros accept provided [segs Hsegs].
    unfold negotiator.PreferredMediaTypes, negotiator.parseAccept.
    rewrite Hsegs. simpl. by destruct (length provided =? 0)%nat.
Qed.

(** *** Specificity without candidates *)

Lemma less_lessQI (a b : mediaType.t) :
  mediaType.S a = 0 -> mediaType.S b = 0 -> less a b = lessQI a b.
Proof. unfold less, lessQI. by intros -> ->. Qed.

(** C10. A parsed spec has score 0, so in the branch without candidates
    the score decides nothing: the result is the one obtained by sorting
    on quality, then on the position in the header. *)
Theorem specificity_unused_without_candidates (accept : string) :
  (forall specs m,
     parseAccept (if String.eqb accept "" then "*/*" else accept) = Some specs ->
     m ∈ specs -> mediaType.S m = 0)
  /\ PreferredMediaTypes accept []
     = specs ← parseAccept (if String.eqb accept "" then "*/*" else accept);
       Some (map getFullType
               (List.filter isQuality (sort.SliceStable lessQI specs))).
Proof.
  assert (forall specs m,
            parseAccept (if String.eqb accept "" then "*/*" else accept) = Some specs ->
            m ∈ specs -> mediaType.S m = 0) as HS.
  { intros specs m. unfold negotiator.parseAccept.
    destruct (splitMediaTypes _) as [segs|]; simpl; [|done].
    intros [= <-] Hm. by apply parseAccepts_fields in Hm as [? _]. }
  split; [exact HS|].
  rewrite PreferredMediaTypes_eq.
  destruct (parseAccept _) as [specs|] eqn:Hspecs; simpl; [|reflexivity].
  do 3 f_equal. apply SliceStable_ext. intros x y Hx Hy.
  apply less_lessQI; by eapply HS.
Qed.

(** *** The order of the branch without candidates *)

Lemma less_true (a b : mediaType.t) :
  less a b = true <->
  float64.gt (mediaType.Q a) (mediaType.Q b) = true
  \/ (float64.ne (mediaType.Q a) (mediaType.Q b) = false
      /\ (mediaType.S b < mediaType.S a
          \/ (mediaType.S a = mediaType.S b /\ mediaType.I a < mediaType.I b))).
Proof.
  unfold less. destruct (float64.ne _ _) eqn:E.
  - split; [by left|]. by intros [?|[? _]].
  - destruct (Z.eqb_spec (mediaType.S a) (mediaType.S b)) as [HS|HS]; simpl.
    + rewrite Z.ltb_lt. split; [right; split; [done|right; done]|].
      intros [H|[_ [H|[_ H]]]]; [|lia|done].
      apply gt_ne in H. congruence.
    + rewrite Z.ltb_lt. split; [right; split; [done|by left]|].
      intros [H|[_ [H|[H _]]]]; [|done|done].
      apply gt_ne in H. congruence.
Qed.

Lemma less_trans (a b c : mediaType.t) :
  less a b = true -> less b c = true -> less a c = true.
Proof.
  rewrite !less_true.
  intros [Hab|[Eab Hab]] [Hbc|[Ebc Hbc]].
  - left. eapply gt_trans; eassumption.
  - left. by rewrite <- (ne_false_gt_r _ _ _ Ebc).
  - left. by rewrite (ne_false_gt _ _ _ Eab).
  - right. split; [by eapply ne_false_trans|]. lia.
Qed.

Lemma less_total (a b : mediaType.t) :
  float64.isNaN (mediaType.Q a) = false -> float64.isNaN (mediaType.Q b) = false ->
  mediaType.I a <> mediaType.I b ->
  less a b = true \/ less b a = true.
Proof.
  intros Ha Hb HI. rewrite !less_true.
  destruct (float64.ne (mediaType.Q a) (mediaType.Q b)) eqn:E.
  - destruct (ne_gt_total _ _ Ha Hb E); [left; by left|right; by left].
  - assert (float64.ne (mediaType.Q b) (mediaType.Q a) = false) by (by rewrite ne_sym).
    destruct (Z.lt_total (mediaType.S a) (mediaType.S b)) as [?|[?|?]].
    + right. right. split; [done|by left].
    + destruct (Z.lt_total (mediaType.I a) (mediaType.I b)) as [?|[?|?]]; [|done|].
      * left. right. split; [done|]. right. done.
      * right. right. split; [done|]. right. done.
    + left. right. split; [done|by left].
Qed.

Lemma parseAccepts_I_sorted (l : list string) (i : Z) :
  StronglySorted (fun a b => mediaType.I a < mediaType.I b)
    (parseAccepts ParseFloat l i).
Proof.
  revert i. induction l as [|a l IH]; intros i; simpl; [constructor|].
  destruct (parseMediaType (TrimSpace a) i) as [m|] eqn:E; [|apply IH].
  apply StronglySorted_cons. split; [|apply IH].
  apply Forall_forall. intros m' Hm'.
  apply parseMediaType_fields in E as [-> _].
  apply parseAccepts_fields in Hm'. lia.
Qed.

Lemma less_precedes (a b : mediaType.t) : less a b = true <-> precedes a b.
Proof. apply less_true. Qed.

(** C4 (as amended). Without candidates, and with no NaN among the
    qualities of the parsed specs, the call returns the full types of the
    specs of positive quality, each once, sorted by the rule: quality
    descending, then score descending, then position in the header
    ascending.  So specs of equal quality and score come out in the order
    of the header. *)
Theorem accepted_types_in_order (accept : string) (specs : list mediaType.t) :
  parseAccept (if String.eqb accept "" then "*/*" else accept) = Some specs ->
  (forall m, m ∈ specs -> float64.isNaN (mediaType.Q m) = false) ->
  emittedInOrder ParseFloat rangeParams accept.
Proof.
  intros Hspecs Hnum.
  exists specs, (List.filter isQuality (sort.SliceStable less specs)).
  split; [done|]. split; [by apply PreferredMediaTypes_accepts|]. split.
  - apply filter_perm, SliceStable_perm.
  - apply StronglySorted_filter.
    apply (StronglySorted_weaken (fun a b => less a b = true)).
    { intros a b _ _. apply less_precedes. }
    apply SliceStable_sorted; [apply less_trans|].
    unfold negotiator.parseAccept in Hspecs.
    destruct (splitMediaTypes _) as [segs|]; simpl in Hspecs; [|done].
    injection Hspecs as <-.
    eapply StronglySorted_weaken; [|apply parseAccepts_I_sorted].
    intros a b Ha Hb HI. simpl in HI.
    apply less_total; [by apply Hnum|by apply Hnum|lia].
Qed.

End Behaviour.

(** ** Determinism *)

(** C9. [PreferredMediaTypes] is a function of its two arguments: the
    one source of variation in a run, the order in which [range] visits
    the parameters of a spec, does not reach the result.  Two runs on the
    same arguments return the same list (or both fail to return),
    whatever the two orders. *)
Theorem PreferredMediaTypes_deterministic
  (ParseFloat : string -> option float64)
  (rangeParams1 rangeParams2 : gmap string string -> list (string * string))
  (accept : string) (provided : list string) :
  (forall m, rangeParams1 m ≡ₚ map_to_list m) ->
  (forall m, rangeParams2 m ≡ₚ map_to_list m) ->
  negotiator.PreferredMediaTypes ParseFloat rangeParams1 accept provided
  = negotiator.PreferredMediaTypes ParseFloat rangeParams2 accept provided.
Proof.
  intros H1 H2. apply PreferredMediaTypes_range. intros m. by rewrite H1, H2.
Qed.

(** ** The theorems at work *)

Lemma map_to_list_perm (m : gmap string string) : map_to_list m ≡ₚ map_to_list m.
Proof. reflexivity. Defined.

Lemma rangeReversed_perm (m : gmap string string) : rangeReversed m ≡ₚ map_to_list m.
Proof. unfold rangeReversed. symmetry. apply Permutation_rev. Defined.

Lemma specify_spec_witness :
  (forall m : gmap string string, map_to_list m ≡ₚ map_to_list m)
  /\ forall r,
       negotiator.specify decimalFloat map_to_list "text/html;level=1" textLevel1 7
       = Some r ->
       exists p,
         negotiator.parseMediaType decimalFloat "text/html;level=1" 0 = Some p
         /\ r = mediaType.mk (mediaType.Type_ textLevel1) (mediaType.Subtype textLevel1)
                  (mediaType.Params textLevel1) (mediaType.Q textLevel1) 7
                  (Z.lor
                     (Z.lor
                        (if strings.EqualFold (mediaType.Type_ textLevel1)
                              (mediaType.Type_ p) then 4 else 0)
                        (if strings.EqualFold (mediaType.Subtype textLevel1)
                              (mediaType.Subtype p) then 2 else 0))
                     (if decide (mediaType.Params textLevel1 = ∅) then 0 else 1)).
Proof.
  split; [exact map_to_list_perm|].
  exact (proj1 (proj2 (specify_spec decimalFloat map_to_list map_to_list_perm
                         "text/html;level=1" textLevel1 7))).
Defined.

Lemma PreferredMediaTypes_provided_order_witness :
  decimalFloat "0.2" = Some (float64.ofRatio 2 10)
  /\ decimalFloat "0.8" = Some (float64.ofRatio 8 10)
  /\ negotiator.PreferredMediaTypes decimalFloat map_to_list
       "text/html;q=0.2, application/json;q=0.8" ["text/html"; "application/json"]
     = Some ["text/html"; "application/json"].
Proof.
  split; [vm_compute; reflexivity|]. split; [vm_compute; reflexivity|].
  apply (PreferredMediaTypes_provided_order decimalFloat map_to_list map_to_list_perm);
    vm_compute; reflexivity.
Defined.

Lemma accepted_types_in_order_witness :
  negotiator.parseAccept decimalFloat
    "text/html, application/*;q=0.2, image/jpeg;q=0.8"
  = Some [mediaType.mk "text" "html" ∅ float64.one 0 0;
          mediaType.mk "application" "*" ∅ (float64.ofRatio 2 10) 1 0;
          mediaType.mk "image" "jpeg" ∅ (float64.ofRatio 8 10) 2 0]
  /\ emittedInOrder decimalFloat map_to_list
       "text/html, application/*;q=0.2, image/jpeg;q=0.8".
Proof.
  assert (negotiator.parseAccept decimalFloat
            "text/html, application/*;q=0.2, image/jpeg;q=0.8"
          = Some [mediaType.mk "text" "html" ∅ float64.one 0 0;
                  mediaType.mk "application" "*" ∅ (float64.ofRatio 2 10) 1 0;
                  mediaType.mk "image" "jpeg" ∅ (float64.ofRatio 8 10) 2 0]) as Hspecs
    by (vm_compute; reflexivity).
  split; [exact Hspecs|].
  apply (accepted_types_in_order decimalFloat map_to_list
           "text/html, application/*;q=0.2, image/jpeg;q=0.8" _ Hspecs).
  intros m Hm. repeat (apply elem_of_cons in Hm as [->|Hm]; [reflexivity|]).
  by apply elem_of_nil in Hm.
Defined.

(** With a NaN quality in the header the result is not in the order of
    the rule: [image/png] has the greater quality and comes second. *)
Lemma NaN_quality_not_in_order :
  ~ emittedInOrder decimalFloat map_to_list
      "text/html;q=0.5, text/plain;q=NaN, image/png;q=0.8".
Proof.
  intros (specs & emitted & Hspecs & Hout & Hperm & Hsorted).
  assert (negotiator.parseAccept decimalFloat
            "text/html;q=0.5, text/plain;q=NaN, image/png;q=0.8"
          = Some [mediaType.mk "text" "html" ∅ (float64.ofRatio 5 10) 0 0;
                  mediaType.mk "text" "plain" ∅ float64.NaN 1 0;
                  mediaType.mk "image" "png" ∅ (float64.ofRatio 8 10) 2 0]) as E
    by (vm_compute; reflexivity).
  change (if String.eqb _ "" then _ else _)
    with "text/html;q=0.5, text/plain;q=NaN, image/png;q=0.8" in Hspecs.
  rewrite E in Hspecs. injection Hspecs as <-.
  rewrite (PreferredMediaTypes_NaN_order decimalFloat map_to_list) in Hout
    by (vm_compute; reflexivity).
  injection Hout as Hout.
  change (List.filter negotiator.isQuality _)
    with [mediaType.mk "text" "html" ∅ (float64.ofRatio 5 10) 0 0;
          mediaType.mk "image" "png" ∅ (float64.ofRatio 8 10) 2 0] in Hperm.
  symmetry in Hperm. apply Permutation_length_2_inv in Hperm as [-> | ->].
  - apply StronglySorted_cons in Hsorted as [Hfirst _].
    apply Forall_cons in Hfirst as [[Hgt|[Hne _]] _]; vm_compute in *; discriminate.
  - vm_compute in Hout. discriminate.
Qed.

Lemma quality_zero_excluded_witness :
  decimalFloat "0" = Some float64.zero
  /\ negotiator.PreferredMediaTypes decimalFloat map_to_list
       "application/json;q=0" ["application/json"] = Some [].
Proof.
  split; [vm_compute; reflexivity|].
  apply (quality_zero_excluded decimalFloat map_to_list map_to_list_perm).
  vm_compute. reflexivity.
Defined.

Lemma PreferredMediaTypes_empty_accept_witness :
  (forall m : gmap string string, map_to_list m ≡ₚ map_to_list m)
  /\ strings.IndexByte (baseToken "application/json") "/" <> None
  /\ negotiator.PreferredMediaTypes decimalFloat map_to_list "" ["application/json"]
     = Some ["application/json"].
Proof.
  split; [exact map_to_list_perm|]. split; [vm_compute; discriminate|].
  apply (PreferredMediaTypes_empty_accept decimalFloat map_to_list map_to_list_perm).
  vm_compute. discriminate.
Defined.

Lemma PreferredMediaTypes_deterministic_witness :
  (forall m : gmap string string, map_to_list m ≡ₚ map_to_list m)
  /\ (forall m : gmap string string, rangeReversed m ≡ₚ map_to_list m)
  /\ negotiator.PreferredMediaTypes decimalFloat map_to_list
       "text/*;level=1;charset=utf-8, */*;q=0.5" ["text/html;charset=UTF-8;level=1"]
     = negotiator.PreferredMediaTypes decimalFloat rangeReversed
         "text/*;level=1;charset=utf-8, */*;q=0.5" ["text/html;charset=UTF-8;level=1"].
Proof.
  split; [exact map_to_list_perm|]. split; [exact rangeReversed_perm|].
  apply PreferredMediaTypes_deterministic;
    [exact map_to_list_perm|exact rangeReversed_perm].
Defined.

(** * Further properties of the negotiator *)

(** ** The segmenter is the plain comma split *)

Module SplitFacts.
Import strings StringFacts.

Lemma Split_IndexByte_None (s : string) (c : ascii) :
  IndexByte s c = None -> Split s c = [s].
Proof.
  induction s as [|b s IH]; simpl; [done|].
  destruct (Ascii.eqb b c); [done|].
  destruct (IndexByte s c); [done|]. intros _. by rewrite IH.
Qed.

Lemma Split_IndexByte_Some (s : string) (c : ascii) (i : nat) :
  IndexByte s c = Some i -> Split s c = take i s :: Split (drop (S i) s) c.
Proof.
  revert i. induction s as [|b s IH]; intros i; simpl; [done|].
  destruct (Ascii.eqb b c).
  - intros [= <-]. reflexivity.
  - destruct (IndexByte s c) as [j|]; simpl; [|done].
    intros [= <-]. rewrite (IH j eq_refl). reflexivity.
Qed.

Lemma TrimRight_fixed_tail (c : ascii) (s : string) :
  TrimRight (String c s) = String c s -> TrimRight s = s.
Proof.
  simpl. destruct (TrimRight s) as [|d r] eqn:E.
  - destruct (asciiSpace c); [done|]. by intros [= <-].
  - by intros [= <-].
Qed.

Lemma TrimRight_fixed_drop (n : nat) (s : string) :
  TrimRight s = s -> TrimRight (drop n s) = drop n s.
Proof.
  revert s. induction n as [|n IH]; intros [|c s]; simpl; try done.
  intros H. apply IH. by apply TrimRight_fixed_tail in H.
Qed.

Lemma TrimRight_fixed_TrimLeft (s : string) :
  TrimRight s = s -> TrimRight (TrimLeft s) = TrimLeft s.
Proof.
  induction s as [|c s IH]; [done|]. intros H.
  change (TrimLeft (String c s)) with (if asciiSpace c then TrimLeft s else String c s).
  destruct (asciiSpace c); [|exact H].
  apply IH. by apply TrimRight_fixed_tail in H.
Qed.

Lemma TrimSpace_fixed (s : string) : TrimRight s = s -> TrimSpace s = TrimLeft s.
Proof. apply TrimRight_fixed_TrimLeft. Qed.

Lemma TrimRight_TrimSpace (s : string) : TrimRight (TrimSpace s) = TrimSpace s.
Proof. apply TrimRight_idem. Qed.

(** White space before the first [c], which is no white space, does not
    hide it. *)
Lemma IndexByte_TrimLeft (s : string) (c : ascii) :
  asciiSpace c = false ->
  match IndexByte (TrimLeft s) c with
  | None => IndexByte s c = None
  | Some i =>
      exists j, IndexByte s c = Some j
                /\ take i (TrimLeft s) = TrimLeft (take j s)
                /\ drop (S i) (TrimLeft s) = drop (S j) s
  end.
Proof.
  intros Hc. induction s as [|b s IH]; [done|].
  change (TrimLeft (String b s)) with (if asciiSpace b then TrimLeft s else String b s).
  destruct (asciiSpace b) eqn:Hb.
  - assert (Ascii.eqb b c = false) as Hbc.
    { apply Ascii.eqb_neq. intros ->. congruence. }
    cbn [IndexByte]. rewrite Hbc.
    destruct (IndexByte (TrimLeft s) c) as [i|].
    + destruct IH as (j & -> & H1 & H2). exists (S j). simpl. by rewrite Hb.
    + by rewrite IH.
  - destruct (IndexByte (String b s) c) as [i|] eqn:E; [|done].
    exists i. split; [done|]. split; [|done].
    destruct i as [|i]; simpl; [done|]. by rewrite Hb.
Qed.

Lemma Count_TrimLeft (s : string) (c : ascii) :
  asciiSpace c = false -> Count (TrimLeft s) c = Count s c.
Proof.
  intros Hc. induction s as [|b s IH]; [done|].
  change (TrimLeft (String b s)) with (if asciiSpace b then TrimLeft s else String b s).
  destruct (asciiSpace b) eqn:Hb; [|done].
  simpl. rewrite IH.
  assert (Ascii.eqb b c = false) as ->; [|done].
  apply Ascii.eqb_neq. intros ->. congruence.
Qed.

End SplitFacts.

Section Segments.
Import strings StringFacts SplitFacts negotiator.

Lemma splitStep_TrimSpace (accept : string) (parts : list string) :
  splitStep (TrimSpace accept) parts = splitStep accept parts.
Proof. unfold splitStep. by rewrite TrimSpace_idem. Qed.

Lemma Split_length (s : string) (c : ascii) : (1 <= length (Split s c))%nat.
Proof. pose proof (Split_not_nil s c). destruct (Split s c); simpl; [done|lia]. Qed.

Lemma Split_single (s : string) (c : ascii) (x : string) :
  Split s c = [x] -> x = s.
Proof.
  destruct (IndexByte s c) as [i|] eqn:E.
  - rewrite (Split_IndexByte_Some _ _ _ E).
    pose proof (Split_not_nil (drop (S i) s) c). destruct (Split (drop (S i) s) c); done.
  - rewrite (Split_IndexByte_None _ _ E). by intros [= <-].
Qed.

(** The loop on a state whose header has no white space at its end. *)
Lemma splitLoop_fixed (fuel : nat) (accept : string) (parts : list string) :
  (String.length accept < fuel)%nat ->
  accept <> EmptyString ->
  TrimRight accept = accept ->
  splitLoop fuel accept parts =
  if forallb evenQuotes (removelast (Split accept ","))
  then Some (parts ++ plainSplit accept)
  else None.
Proof.
  revert accept parts. induction fuel as [|fuel IH]; intros accept parts Hlen Hne Hfix;
    [lia|].
  destruct accept as [|c0 s0] eqn:Eacc; [done|]. rewrite <- Eacc in *.
  assert (splitLoop (S fuel) accept parts =
          match splitStep accept parts with
          | Break r => Some r
          | Again (a', p') => splitLoop fuel a' p'
          end) as ->.
  { rewrite Eacc. reflexivity. }
  unfold splitStep. rewrite (TrimSpace_fixed _ Hfix).
  pose proof (IndexByte_TrimLeft accept "," eq_refl) as Hidx.
  destruct (IndexByte (TrimLeft accept) ",") as [idx|] eqn:E.
  - destruct Hidx as (j & Hj & Htake & Hdrop).
    rewrite (Split_IndexByte_Some _ _ _ Hj).
    pose proof (Split_not_nil (drop (S j) accept) ",") as Hnn.
    rewrite Htake, Hdrop.
    assert (removelast (take j accept :: Split (drop (S j) accept) ",")
            = take j accept :: removelast (Split (drop (S j) accept) ",")) as ->.
    { destruct (Split (drop (S j) accept) ","); [done|reflexivity]. }
    cbn [forallb]. unfold evenQuotes at 1, quoteCount.
    rewrite (Count_TrimLeft _ dquote eq_refl).
    destruct (Count (take j accept) dquote mod 2 =? 1)%nat eqn:Hq; cbn [negb andb].
    + (* inside quotes: the state does not change any more *)
      apply splitLoop_stuck.
      * intros E0. rewrite E0 in E. discriminate.
      * unfold splitStep.
        rewrite (TrimSpace_fixed _ (TrimRight_fixed_TrimLeft _ Hfix)).
        rewrite (TrimLeft_id _ (TrimLeft_trimmedLeft accept)), E.
        unfold quoteCount. rewrite Htake, (Count_TrimLeft _ dquote eq_refl), Hq.
        reflexivity.
    + destruct (drop (S j) accept) as [|c1 s1] eqn:Ed.
      * (* the header ends with this comma *)
        assert (plainSplit accept = [TrimLeft (take j accept)]) as ->.
        { unfold plainSplit. rewrite (Split_IndexByte_Some _ _ _ Hj), Ed.
          reflexivity. }
        destruct fuel; reflexivity.
      * rewrite <- Ed in *. rewrite IH.
        -- destruct (forallb evenQuotes _); [|done]. f_equal.
           rewrite <- app_assoc. f_equal. unfold plainSplit.
           rewrite (Split_IndexByte_Some _ _ _ Hj).
           destruct (Split (drop (S j) accept) ",") as [|x [|y l]] eqn:Es; [done| |].
           ++ apply Split_single in Es. subst x. rewrite Ed. reflexivity.
           ++ change (1 <? length (take j accept :: x :: y :: l))%nat with true.
              change (1 <? length (x :: y :: l))%nat with true.
              change (List.last (take j accept :: x :: y :: l) EmptyString)
                with (List.last (x :: y :: l) EmptyString).
              cbn [andb]. destruct (String.eqb _ ""); reflexivity.
        -- rewrite length_drop. apply IndexByte_lt in Hj. lia.
        -- rewrite Ed. done.
        -- by apply TrimRight_fixed_drop.
  - unfold plainSplit. rewrite (Split_IndexByte_None _ _ Hidx). reflexivity.
Qed.

(** [splitMediaTypes] on every header: it returns exactly when each piece
    that a comma ends is outside quotes, and then it returns the plain
    comma split. *)
Lemma splitMediaTypes_eq (accept : string) :
  splitMediaTypes accept =
  if forallb evenQuotes (removelast (Split (TrimSpace accept) ","))
  then Some (if String.eqb accept EmptyString then [] else commaSegments accept)
  else None.
Proof.
  unfold splitMediaTypes. destruct accept as [|c s] eqn:Eacc; [reflexivity|].
  rewrite <- Eacc.
  assert (String.eqb accept EmptyString = false) as -> by (by rewrite Eacc).
  assert (splitLoop (S (String.length accept)) accept [] =
          match splitStep (TrimSpace accept) [] with
          | Break r => Some r
          | Again (a', p') => splitLoop (String.length accept) a' p'
          end) as ->.
  { rewrite splitStep_TrimSpace, Eacc. reflexivity. }
  destruct (TrimSpace accept) as [|c1 s1] eqn:Et;
    [unfold commaSegments; rewrite Et; reflexivity|].
  rewrite <- Et.
  assert (match splitStep (TrimSpace accept) [] with
          | Break r => Some r
          | Again (a', p') => splitLoop (String.length accept) a' p'
          end = splitLoop (S (String.length accept)) (TrimSpace accept) []) as ->.
  { rewrite Et. reflexivity. }
  rewrite splitLoop_fixed.
  - reflexivity.
  - pose proof (length_TrimSpace accept). lia.
  - by rewrite Et.
  - apply TrimRight_idem.
Qed.

End Segments.

Module CountFacts.
Import strings StringFacts SplitFacts.

Lemma IndexByte_Count (s : string) (c : ascii) :
  IndexByte s c = None <-> Count s c = O.
Proof.
  induction s as [|b s IH]; simpl; [done|].
  destruct (Ascii.eqb b c); simpl; [done|].
  destruct (IndexByte s c); simpl.
  - split; [done|]. intros H. apply IH in H. done.
  - split; [|done]. intros _. by apply IH.
Qed.

Lemma Count_TrimLeft_le (s : string) (c : ascii) :
  (Count (TrimLeft s) c <= Count s c)%nat.
Proof.
  induction s as [|b s IH]; [done|].
  change (TrimLeft (String b s)) with (if asciiSpace b then TrimLeft s else String b s).
  destruct (asciiSpace b); [|done]. simpl. lia.
Qed.

Lemma Count_TrimRight_le (s : string) (c : ascii) :
  (Count (TrimRight s) c <= Count s c)%nat.
Proof.
  induction s as [|b s IH]; [done|]. simpl.
  destruct (TrimRight s) as [|d r].
  - destruct (asciiSpace b); simpl in *; lia.
  - simpl in *. lia.
Qed.

Lemma Count_TrimSpace_le (s : string) (c : ascii) :
  (Count (TrimSpace s) c <= Count s c)%nat.
Proof.
  unfold TrimSpace. pose proof (Count_TrimRight_le (TrimLeft s) c).
  pose proof (Count_TrimLeft_le s c). lia.
Qed.

Lemma Count_Split (s : string) (sep c : ascii) (seg : string) :
  seg ∈ Split s sep -> (Count seg c <= Count s c)%nat.
Proof.
  revert seg. induction s as [|b s IH]; intros seg; simpl.
  - intros ->%list_elem_of_singleton. done.
  - destruct (Ascii.eqb b sep).
    + intros [->|H]%elem_of_cons; simpl; [lia|]. apply IH in H. lia.
    + pose proof (Split_not_nil s sep) as Hnn.
      destruct (Split s sep) as [|p ps]; [done|].
      intros [->|H]%elem_of_cons.
      * simpl. specialize (IH p (list_elem_of_here _ _)). lia.
      * specialize (IH seg (list_elem_of_further _ _ _ H)). lia.
Qed.

Lemma elem_of_removelast {A : Type} (x : A) (l : list A) :
  x ∈ removelast l -> x ∈ l.
Proof.
  induction l as [|y l IH]; simpl; [done|].
  destruct l as [|z l]; [by intros ?%elem_of_nil|].
  intros [->|H]%elem_of_cons; [left|right; by apply IH].
Qed.

Lemma Count_plainSplit (s : string) (c : ascii) (seg : string) :
  seg ∈ plainSplit s -> (Count seg c <= Count s c)%nat.
Proof.
  unfold plainSplit. intros (x & -> & Hx)%list_elem_of_fmap.
  pose proof (Count_TrimLeft_le x c).
  assert (x ∈ Split s ",") as Hin.
  { destruct (_ && _); [by apply elem_of_removelast|done]. }
  pose proof (Count_Split _ _ c _ Hin). lia.
Qed.

End CountFacts.

Section SegmenterMore.
Import strings StringFacts SplitFacts CountFacts negotiator.

Variable ParseFloat : string -> option float64.
Variable rangeParams : gmap string string -> list (string * string).

(** X1. [splitMediaTypes] returns exactly when every piece of the trimmed
    header that a comma ends holds an even number of double quotes. *)
Theorem splitMediaTypes_returns_iff (accept : string) :
  is_Some (splitMediaTypes accept) <->
  forallb evenQuotes (removelast (Split (TrimSpace accept) ",")) = true.
Proof.
  rewrite splitMediaTypes_eq. destruct (forallb _ _).
  - split; [done|]. intros _. by eexists.
  - split; [|done]. by intros [? ?].
Qed.


Lemma evenQuotes_without_quotes (s : string) :
  quoteCount s = 0%nat ->
  forallb evenQuotes (removelast (Split (TrimSpace s) ",")) = true.
Proof.
  intros Hq. apply forallb_forall. intros seg Hin.
  apply list_elem_of_In, elem_of_removelast in Hin.
  pose proof (Count_Split _ _ dquote _ Hin) as H1.
  pose proof (Count_TrimSpace_le s dquote) as H2.
  unfold evenQuotes, quoteCount in *.
  assert (Count seg dquote = 0%nat) as -> by lia. reflexivity.
Qed.

(** X3. On a header without a double quote [PreferredMediaTypes]
    returns, whatever the candidates are. *)
Theorem PreferredMediaTypes_returns_without_quotes
  (accept : string) (provided : list string) :
  quoteCount accept = 0%nat ->
  is_Some (PreferredMediaTypes ParseFloat rangeParams accept provided).
Proof.
  intros Hq. rewrite PreferredMediaTypes_eq. unfold parseAccept.
  assert (quoteCount (if String.eqb accept EmptyString then "*/*" else accept) = 0%nat)
    as Hq' by (by destruct (String.eqb accept EmptyString)).
  rewrite splitMediaTypes_eq, (evenQuotes_without_quotes _ Hq').
  by eexists.
Qed.

Lemma baseToken_Count (str : string) (c : ascii) :
  (Count (baseToken str) c <= Count str c)%nat.
Proof.
  unfold baseToken. pose proof (Count_Split str ";" c) as H.
  destruct (Split str ";") as [|p0 rest]; simpl; [lia|].
  apply H. left.
Qed.

Lemma parseAccepts_without_slash (segs : list string) (i : Z) :
  (forall seg, seg ∈ segs -> Count seg "/" = 0%nat) ->
  parseAccepts ParseFloat segs i = [].
Proof.
  revert i. induction segs as [|seg segs IH]; intros i Hall; simpl; [done|].
  assert (parseMediaType ParseFloat (TrimSpace seg) i = None) as ->.
  { apply parseMediaType_None, IndexByte_Count.
    pose proof (baseToken_Count (TrimSpace seg) "/").
    pose proof (Count_TrimSpace_le seg "/").
    specialize (Hall seg (list_elem_of_here _ _)). lia. }
  apply IH. intros s Hs. apply Hall. by right.
Qed.

Lemma filter_acceptable_nil (provided : list string) :
  List.filter (acceptable ParseFloat rangeParams []) provided = [].
Proof. induction provided as [|typ rest IH]; simpl; [done|exact IH]. Qed.

(** X4. A header without a slash names no media type: when the segmenter
    returns on it, [PreferredMediaTypes] returns the empty list, with and
    without candidates. *)
Theorem PreferredMediaTypes_without_slash
  (accept : string) (provided : list string) :
  accept <> EmptyString ->
  IndexByte accept "/" = None ->
  PreferredMediaTypes ParseFloat rangeParams accept provided =
  if forallb evenQuotes (removelast (Split (TrimSpace accept) ","))
  then Some [] else None.
Proof.
  intros Hne Hslash. rewrite PreferredMediaTypes_eq. unfold parseAccept.
  assert (String.eqb accept EmptyString = false) as Hneb by (by destruct accept).
  rewrite Hneb, splitMediaTypes_eq, Hneb.
  destruct (forallb _ _); [|done]. simpl.
  rewrite parseAccepts_without_slash.
  - change (sort.SliceStable less []) with (@nil mediaType.t).
    destruct provided; [done|]. by rewrite filter_acceptable_nil.
  - intros seg Hseg. unfold commaSegments in Hseg.
    pose proof (Count_plainSplit _ "/" _ Hseg).
    pose proof (Count_TrimSpace_le accept "/").
    apply IndexByte_Count in Hslash. lia.
Qed.

End SegmenterMore.

(** ** The spec parser *)

Section ParserMore.
Import strings StringFacts SplitFacts CountFacts negotiator.

Variable ParseFloat : string -> option float64.
Variable rangeParams : gmap string string -> list (string * string).

Local Abbreviation parseParam := (negotiator.parseParam ParseFloat).
Local Abbreviation parseMediaType := (negotiator.parseMediaType ParseFloat).

Lemma parseParam_trimmedParams (m : mediaType.t) (part : string) :
  trimmedParams m -> trimmedParams (parseParam m part).
Proof.
  intros Hm. unfold negotiator.parseParam.
  destruct (SplitN2 part "=") as [|k [|v [|? ?]]]; try done.
  destruct (String.eqb (TrimSpace k) "q") eqn:Hk.
  - by destruct (ParseFloat (TrimSpace v)).
  - intros key value. simpl. intros [[<- <-]|[_ H]]%lookup_insert_Some.
    + split; [by apply String.eqb_neq|]. split; apply TrimSpace_idem.
    + by apply Hm.
Qed.

Lemma fold_parseParam_trimmedParams (parts : list string) (m : mediaType.t) :
  trimmedParams m -> trimmedParams (fold_left parseParam parts m).
Proof.
  revert m. induction parts as [|part parts IH]; intros m Hm; simpl; [done|].
  by apply IH, parseParam_trimmedParams.
Qed.

(** X5. In a parsed media type no parameter is named [q], and the names
    and the values of the parameters have no white space around them. *)
Theorem parseMediaType_params (str : string) (i : Z) (m : mediaType.t) :
  parseMediaType str i = Some m ->
  forall key value, mediaType.Params m !! key = Some value ->
    key <> "q" /\ TrimSpace key = key /\ TrimSpace value = value.
Proof.
  unfold negotiator.parseMediaType.
  destruct (Split str ";") as [|p0 rest]; [done|].
  destruct (SplitN2 p0 "/") as [|t [|st [|? ?]]]; try done.
  intros [= <-]. apply fold_parseParam_trimmedParams.
  intros key value. simpl. by rewrite lookup_empty.
Qed.

Lemma parseParam_Q (m : mediaType.t) (part : string) :
  mediaType.Q (parseParam m part)
  = default (mediaType.Q m) (qualityOf ParseFloat part).
Proof.
  unfold negotiator.parseParam, qualityOf.
  destruct (SplitN2 part "=") as [|k [|v [|? ?]]]; try done.
  destruct (String.eqb (TrimSpace k) "q"); [|done].
  by destruct (ParseFloat (TrimSpace v)).
Qed.

Lemma last_cons_any {A : Type} (x : A) (l : list A) (d d' : A) :
  List.last (x :: l) d = List.last (x :: l) d'.
Proof.
  revert x. induction l as [|y l IH]; intros x; [done|].
  change (List.last (y :: l) d = List.last (y :: l) d'). apply IH.
Qed.

Lemma last_cons_default {A : Type} (x : A) (l : list A) (d : A) :
  List.last (x :: l) d = List.last l x.
Proof. destruct l as [|y l]; [done|]. apply (last_cons_any y l). Qed.

Lemma fold_parseParam_Q (parts : list string) (m : mediaType.t) :
  mediaType.Q (fold_left parseParam parts m)
  = List.last (omap (qualityOf ParseFloat) parts) (mediaType.Q m).
Proof.
  revert m. induction parts as [|part parts IH]; intros m; [done|].
  cbn [fold_left omap list_omap]. rewrite IH, parseParam_Q.
  destruct (qualityOf ParseFloat part) as [q|]; [|done].
  symmetry. apply last_cons_default.
Qed.

(** X6. The quality of a parsed media type is the value of its last [q]
    parameter that [ParseFloat] accepts, and 1 when it has none: a [q]
    that does not parse changes nothing. *)
Theorem parseMediaType_quality (str : string) (i : Z) (m : mediaType.t) :
  parseMediaType str i = Some m ->
  mediaType.Q m
  = List.last (omap (qualityOf ParseFloat) (tail (Split str ";"))) float64.one.
Proof.
  unfold negotiator.parseMediaType.
  destruct (Split str ";") as [|p0 rest]; [done|].
  destruct (SplitN2 p0 "/") as [|t [|st [|? ?]]]; try done.
  intros [= <-]. apply fold_parseParam_Q.
Qed.

End ParserMore.

(** ** Plain media types *)

Module TokenFacts.
Import strings StringFacts SplitFacts CountFacts.

Lemma EqualFold_refl (s : string) : EqualFold s s = true.
Proof.
  induction s as [|c s IH]; simpl; [done|]. by rewrite Ascii.eqb_refl, IH.
Qed.

Lemma take_drop_IndexByte (s : string) (c : ascii) (i : nat) :
  IndexByte s c = Some i -> (take i s ++ String c (drop (S i) s))%string = s.
Proof.
  revert i. induction s as [|b s IH]; intros i; simpl; [done|].
  destruct (Ascii.eqb b c) eqn:E.
  - intros [= <-]. apply Ascii.eqb_eq in E. by subst.
  - destruct (IndexByte s c) as [j|]; simpl; [|done].
    intros [= <-].
    change (String b (take j s ++ String c (drop (S j) s))%string = String b s).
    by rewrite (IH j eq_refl).
Qed.

Lemma plainToken_cons (c : ascii) (s : string) :
  plainToken (String c s) = true ->
  asciiSpace c = false /\ Ascii.eqb c "," = false /\ Ascii.eqb c ";" = false
  /\ plainToken s = true.
Proof.
  unfold plainToken. simpl.
  destruct (asciiSpace c), (Ascii.eqb c ","), (Ascii.eqb c ";"); simpl; try done.
Qed.

Lemma plainToken_take (n : nat) (s : string) :
  plainToken s = true -> plainToken (take n s) = true.
Proof.
  revert s. induction n as [|n IH]; intros [|c s]; try done.
  intros H. pose proof (plainToken_cons _ _ H) as (H1 & H2 & H3 & H4).
  specialize (IH s H4). unfold plainToken in *. simpl.
  by rewrite H1, H2, H3, IH.
Qed.

Lemma plainToken_drop (n : nat) (s : string) :
  plainToken s = true -> plainToken (drop n s) = true.
Proof.
  revert s. induction n as [|n IH]; intros [|c s]; try done.
  intros H. apply plainToken_cons in H as (_ & _ & _ & H). by apply IH.
Qed.

Lemma plainToken_TrimRight (s : string) : plainToken s = true -> TrimRight s = s.
Proof.
  induction s as [|c s IH]; [done|].
  intros H. apply plainToken_cons in H as (H1 & _ & _ & H). simpl.
  rewrite (IH H), H1. by destruct s.
Qed.

Lemma plainToken_TrimSpace (s : string) : plainToken s = true -> TrimSpace s = s.
Proof.
  intros H. unfold TrimSpace.
  assert (TrimLeft s = s) as ->; [|by apply plainToken_TrimRight].
  destruct s as [|c s]; [done|].
  apply plainToken_cons in H as (H1 & _). simpl. by rewrite H1.
Qed.


Lemma plainToken_semicolon (s : string) :
  plainToken s = true -> IndexByte s ";" = None.
Proof.
  induction s as [|c s IH]; [done|].
  intros H. apply plainToken_cons in H as (_ & _ & H3 & H). simpl.
  by rewrite H3, (IH H).
Qed.

End TokenFacts.

Section RoundTrip.
Import strings StringFacts SplitFacts CountFacts TokenFacts negotiator.

Variable ParseFloat : string -> option float64.
Variable rangeParams : gmap string string -> list (string * string).
Hypothesis rangeParams_perm : forall m, rangeParams m ≡ₚ map_to_list m.

Local Abbreviation parseMediaType := (negotiator.parseMediaType ParseFloat).
Local Abbreviation parseAccept := (negotiator.parseAccept ParseFloat).
Local Abbreviation specify := (negotiator.specify ParseFloat rangeParams).
Local Abbreviation PreferredMediaTypes :=
  (negotiator.PreferredMediaTypes ParseFloat rangeParams).

Lemma parseMediaType_token (s : string) (i : nat) (j : Z) :
  plainToken s = true -> IndexByte s "/" = Some i ->
  parseMediaType s j
  = Some (mediaType.mk (take i s) (drop (S i) s) ∅ float64.one j 0).
Proof.
  intros Htok Hi. unfold negotiator.parseMediaType.
  rewrite (Split_IndexByte_None _ _ (plainToken_semicolon _ Htok)).
  unfold SplitN2. rewrite Hi. cbn [fold_left].
  by rewrite (plainToken_TrimSpace _ (plainToken_take _ _ Htok)),
             (plainToken_TrimSpace _ (plainToken_drop _ _ Htok)).
Qed.





End RoundTrip.

(** ** The resolver and the order of the header *)

Section ResolverMore.
Import strings negotiator FloatFacts SortFacts.

Variable ParseFloat : string -> option float64.
Variable rangeParams : gmap string string -> list (string * string).

Local Abbreviation parseAccept := (negotiator.parseAccept ParseFloat).
Local Abbreviation specify := (negotiator.specify ParseFloat rangeParams).
Local Abbreviation priorityLoop := (negotiator.priorityLoop ParseFloat rangeParams).
Local Abbreviation PreferredMediaTypes :=
  (negotiator.PreferredMediaTypes ParseFloat rangeParams).
Local Abbreviation acceptableIn := (acceptable ParseFloat rangeParams).

Lemma specify_setI (typ : string) (a : mediaType.t) (j i : Z) :
  specify typ (setI j a) i = specify typ a i.
Proof. by destruct a. Qed.

Lemma priorityLoop_setI (typ : string) (l : list mediaType.t) (j i : Z)
  (priority : option mediaType.t) :
  priorityLoop typ (map (setI j) l) i priority = priorityLoop typ l i priority.
Proof.
  revert priority. induction l as [|a l IH]; intros priority; [done|].
  cbn [map negotiator.priorityLoop]. rewrite specify_setI.
  destruct (specify typ a i) as [spec|]; [|apply IH].
  destruct (takes spec priority); apply IH.
Qed.

Lemma acceptable_setI (l : list mediaType.t) (j : Z) (typ : string) :
  acceptableIn (map (setI j) l) typ = acceptableIn l typ.
Proof. unfold acceptable, getMediaTypePriority. by rewrite priorityLoop_setI. Qed.

(** Two qualities that are numbers, neither greater than the other, pass
    [isQuality] together. *)
Lemma isQuality_tie (r r' : mediaType.t) :
  float64.isNaN (mediaType.Q r) = false ->
  float64.isNaN (mediaType.Q r') = false ->
  float64.gt (mediaType.Q r) (mediaType.Q r') = false ->
  float64.gt (mediaType.Q r') (mediaType.Q r) = false ->
  isQuality r = isQuality r'.
Proof.
  intros Hr Hr' H1 H2. unfold isQuality. apply ne_false_gt.
  destruct (float64.ne (mediaType.Q r) (mediaType.Q r')) eqn:E; [|done].
  destruct (ne_gt_total _ _ Hr Hr' E); congruence.
Qed.

Lemma acceptable_incl (l l' : list mediaType.t) (typ : string) :
  (forall a, a ∈ l -> a ∈ l') -> (forall a, a ∈ l' -> a ∈ l) ->
  (forall m, m ∈ l -> float64.isNaN (mediaType.Q m) = false) ->
  acceptableIn l typ = acceptableIn l' typ.
Proof.
  intros H12 H21 Hnum. unfold acceptable, getMediaTypePriority.
  pose proof (priorityLoop_spec ParseFloat rangeParams typ l 0 None) as H.
  pose proof (priorityLoop_spec ParseFloat rangeParams typ l' 0 None) as H'.
  destruct (negotiator.priorityLoop _ _ typ l 0 None) as [r|],
           (negotiator.priorityLoop _ _ typ l' 0 None) as [r'|]; [| | |done].
  - destruct H as ([?|(a & Ha & Hsa)] & _ & Hbest); [done|].
    destruct H' as ([?|(a' & Ha' & Hsa')] & _ & Hbest'); [done|].
    destruct (Hbest a' r' (H21 _ Ha') Hsa') as [Hle Hq].
    destruct (Hbest' a r (H12 _ Ha) Hsa) as [Hle' Hq'].
    apply specify_Q in Hsa as [HQ _]. apply specify_Q in Hsa' as [HQ' _].
    apply isQuality_tie.
    + rewrite HQ. by apply Hnum.
    + rewrite HQ'. by apply Hnum, H21.
    + apply Hq'. lia.
    + apply Hq. lia.
  - destruct H as ([?|(a & Ha & Hsa)] & _); [done|].
    destruct H' as [_ Hnone]. rewrite (Hnone a (H12 _ Ha)) in Hsa. done.
  - destruct H' as ([?|(a' & Ha' & Hsa')] & _); [done|].
    destruct H as [_ Hnone]. rewrite (Hnone a' (H21 _ Ha')) in Hsa'. done.
Qed.

Lemma acceptable_perm (l l' : list mediaType.t) (typ : string) :
  l ≡ₚ l' ->
  (forall m, m ∈ l -> float64.isNaN (mediaType.Q m) = false) ->
  acceptableIn l typ = acceptableIn l' typ.
Proof.
  intros Hperm. apply acceptable_incl; intros a; by rewrite Hperm.
Qed.

(** The sort of [PreferredMediaTypes] does not change which candidates
    are accepted. *)
Lemma acceptable_unsorted (specs : list mediaType.t) (typ : string) :
  (forall m, m ∈ specs -> float64.isNaN (mediaType.Q m) = false) ->
  acceptableIn (sort.SliceStable less specs) typ = acceptableIn specs typ.
Proof.
  intros Hnum. apply acceptable_perm; [apply SliceStable_perm|].
  intros m Hm. apply Hnum. by rewrite <- (SliceStable_perm less specs).
Qed.

(** X8. With candidates, and no NaN among the qualities, the result does
    not depend on the order of the entries of the header: two headers
    whose parsed specs are the same up to their order (and so up to their
    indices) give the same result. *)
Theorem candidates_ignore_header_order
  (accept accept' : string) (specs specs' : list mediaType.t)
  (provided : list string) :
  provided <> [] ->
  parseAccept (if String.eqb accept "" then "*/*" else accept) = Some specs ->
  parseAccept (if String.eqb accept' "" then "*/*" else accept') = Some specs' ->
  map (setI 0) specs ≡ₚ map (setI 0) specs' ->
  (forall m, m ∈ specs -> float64.isNaN (mediaType.Q m) = false) ->
  PreferredMediaTypes accept provided = PreferredMediaTypes accept' provided.
Proof.
  intros Hne Hspecs Hspecs' Hperm Hnum.
  rewrite (PreferredMediaTypes_provided _ _ _ _ specs Hne Hspecs).
  rewrite (PreferredMediaTypes_provided _ _ _ _ specs' Hne Hspecs').
  f_equal. apply filter_ext. intros typ.
  assert (forall m, m ∈ specs' -> float64.isNaN (mediaType.Q m) = false) as Hnum'.
  { intros m' Hm'.
    assert (setI 0 m' ∈ map (setI 0) specs) as Hin.
    { rewrite Hperm. exact (list_elem_of_fmap_2 (setI 0) specs' m' Hm'). }
    apply list_elem_of_fmap in Hin as (m & Heq & Hm).
    replace (mediaType.Q m') with (mediaType.Q (setI 0 m')) by done.
    rewrite Heq. exact (Hnum m Hm). }
  rewrite !acceptable_unsorted by done.
  rewrite <- (acceptable_setI specs 0), <- (acceptable_setI specs' 0).
  apply acceptable_perm; [done|].
  intros m (m0 & -> & Hm0)%list_elem_of_fmap. exact (Hnum m0 Hm0).
Qed.

(** X9. Without candidates the result holds the full types of the parsed
    specs of positive quality, each as often as the header has it,
    whatever the qualities are: the sort loses nothing and repeats
    nothing, also when a quality is NaN. *)
Theorem accepted_types_permutation (accept : string) (specs : list mediaType.t) :
  parseAccept (if String.eqb accept "" then "*/*" else accept) = Some specs ->
  exists out,
    PreferredMediaTypes accept [] = Some out
    /\ out ≡ₚ map getFullType (List.filter isQuality specs).
Proof.
  intros Hspecs. eexists. split; [by apply PreferredMediaTypes_accepts|].
  apply Permutation_map, filter_perm, SliceStable_perm.
Qed.

End ResolverMore.

(** ** Candidates one by one, and their case *)

Module FoldFacts.
Import strings StringFacts SplitFacts CountFacts TokenFacts.

Lemma EqualFold_sym (s t : string) : EqualFold s t = EqualFold t s.
Proof.
  revert t. induction s as [|a s IH]; intros [|b t]; simpl; try done.
  by rewrite IH, Ascii.eqb_sym.
Qed.

Lemma EqualFold_trans (s t u : string) :
  EqualFold s t = true -> EqualFold t u = true -> EqualFold s u = true.
Proof.
  revert t u. induction s as [|a s IH]; intros [|b t] [|c u]; simpl; try done.
  intros [H1 H2]%andb_true_iff [H3 H4]%andb_true_iff.
  apply Ascii.eqb_eq in H1, H3. rewrite H1, H3, Ascii.eqb_refl. simpl.
  by apply (IH t).
Qed.

(** Folding to the same string is folding to the same strings. *)
Lemma EqualFold_congr (s t u : string) :
  EqualFold t u = true -> EqualFold s t = EqualFold s u.
Proof.
  intros Htu. destruct (EqualFold s t) eqn:E1, (EqualFold s u) eqn:E2; try done.
  - by rewrite (EqualFold_trans s t u E1 Htu) in E2.
  - rewrite EqualFold_sym in Htu. by rewrite (EqualFold_trans s u t E2 Htu) in E1.
Qed.

Lemma lower_slash (c : ascii) :
  Ascii.eqb (lower c) "/" = Ascii.eqb c "/".
Proof.
  destruct c as [[] [] [] [] [] [] [] []]; reflexivity.
Qed.

Lemma lower_idem (c : ascii) : lower (lower c) = lower c.
Proof. destruct c as [[] [] [] [] [] [] [] []]; reflexivity. Qed.

Lemma EqualFold_IndexByte (s t : string) :
  EqualFold s t = true -> IndexByte s "/" = IndexByte t "/".
Proof.
  revert t. induction s as [|a s IH]; intros [|b t]; simpl; try done.
  intros [H1 H2]%andb_true_iff. apply Ascii.eqb_eq in H1.
  rewrite <- (lower_slash a), <- (lower_slash b), H1.
  by rewrite (IH t H2).
Qed.

Lemma EqualFold_take (n : nat) (s t : string) :
  EqualFold s t = true -> EqualFold (take n s) (take n t) = true.
Proof.
  revert s t. induction n as [|n IH]; intros [|a s] [|b t]; simpl; try done.
  intros [H1 H2]%andb_true_iff. by rewrite H1, (IH s t H2).
Qed.

Lemma EqualFold_drop (n : nat) (s t : string) :
  EqualFold s t = true -> EqualFold (drop n s) (drop n t) = true.
Proof.
  revert s t. induction n as [|n IH]; intros [|a s] [|b t]; simpl; try done.
  intros [H1 H2]%andb_true_iff. by apply IH.
Qed.

End FoldFacts.

Section Candidates.
Import strings StringFacts SplitFacts CountFacts TokenFacts FoldFacts negotiator.

Variable ParseFloat : string -> option float64.
Variable rangeParams : gmap string string -> list (string * string).

Local Abbreviation parseMediaType := (negotiator.parseMediaType ParseFloat).
Local Abbreviation parseAccept := (negotiator.parseAccept ParseFloat).
Local Abbreviation specify := (negotiator.specify ParseFloat rangeParams).
Local Abbreviation priorityLoop := (negotiator.priorityLoop ParseFloat rangeParams).
Local Abbreviation PreferredMediaTypes :=
  (negotiator.PreferredMediaTypes ParseFloat rangeParams).
Local Abbreviation acceptableIn := (acceptable ParseFloat rangeParams).

(** X15. The candidates are judged one by one: the result for two lists
    of candidates put together is the two results put together. *)
Theorem PreferredMediaTypes_app (accept : string)
  (provided1 provided2 out1 out2 : list string) :
  provided1 <> [] -> provided2 <> [] ->
  PreferredMediaTypes accept provided1 = Some out1 ->
  PreferredMediaTypes accept provided2 = Some out2 ->
  PreferredMediaTypes accept (provided1 ++ provided2) = Some (out1 ++ out2).
Proof.
  intros Hne1 Hne2. rewrite !PreferredMediaTypes_eq.
  destruct (parseAccept _) as [specs|]; [|done]. cbn [mbind option_bind].
  destruct provided1 as [|t1 r1]; [done|]. destruct provided2 as [|t2 r2]; [done|].
  intros [= <-] [= <-]. change ((t1 :: r1) ++ t2 :: r2) with (t1 :: (r1 ++ t2 :: r2)).
  f_equal. change (t1 :: (r1 ++ t2 :: r2)) with ((t1 :: r1) ++ t2 :: r2).
  apply List.filter_app.
Qed.

Lemma specifyParams_Params (kvs : list (string * string)) (p p' : mediaType.t)
  (s : Z) :
  mediaType.Params p = mediaType.Params p' ->
  specifyParams kvs p s = specifyParams kvs p' s.
Proof.
  intros Hp. revert s. induction kvs as [|[key val] kvs IH]; intros s; [done|].
  cbn [specifyParams]. rewrite Hp. destruct (_ || _); [apply IH|done].
Qed.

Lemma specify_fold (s s' : string) (spec : mediaType.t) (i : Z) :
  plainToken s = true -> plainToken s' = true ->
  EqualFold s s' = true ->
  specify s spec i = specify s' spec i.
Proof.
  intros Htok Htok' Hfold. unfold negotiator.specify.
  pose proof (EqualFold_IndexByte _ _ Hfold) as Hidx.
  destruct (IndexByte s "/") as [j|] eqn:Hj.
  - symmetry in Hidx.
    rewrite (parseMediaType_token ParseFloat s j 0 Htok Hj).
    rewrite (parseMediaType_token ParseFloat s' j 0 Htok' Hidx).
    cbn [mbind option_bind mediaType.Type_ mediaType.Subtype mediaType.Params].
    rewrite (EqualFold_congr (mediaType.Type_ spec) _ _ (EqualFold_take j _ _ Hfold)).
    rewrite (EqualFold_congr (mediaType.Subtype spec) _ _
               (EqualFold_drop (S j) _ _ Hfold)).
    destruct (if EqualFold (mediaType.Type_ spec) (take j s') then _ else _)
      as [s1|]; [|done].
    cbn [mbind option_bind].
    destruct (if EqualFold (mediaType.Subtype spec) (drop (S j) s') then _ else _)
      as [s2|]; [|done].
    cbn [mbind option_bind].
    by rewrite (specifyParams_Params _ _
                  (mediaType.mk (take j s') (drop (S j) s') ∅ float64.one 0 0)).
  - symmetry in Hidx.
    assert (parseMediaType s 0 = None) as ->.
    { apply parseMediaType_None. unfold baseToken.
      by rewrite (Split_IndexByte_None _ _ (plainToken_semicolon _ Htok)). }
    assert (parseMediaType s' 0 = None) as ->; [|done].
    apply parseMediaType_None. unfold baseToken.
    by rewrite (Split_IndexByte_None _ _ (plainToken_semicolon _ Htok')).
Qed.

Lemma priorityLoop_fold (s s' : string) (accepted : list mediaType.t) (i : Z)
  (priority : option mediaType.t) :
  plainToken s = true -> plainToken s' = true ->
  EqualFold s s' = true ->
  priorityLoop s accepted i priority = priorityLoop s' accepted i priority.
Proof.
  intros Htok Htok' Hfold. revert priority.
  induction accepted as [|a rest IH]; intros priority; [done|].
  cbn [negotiator.priorityLoop]. rewrite (specify_fold s s' a i) by done.
  destruct (specify s' a i) as [spec|]; [|apply IH].
  destruct (takes spec priority); apply IH.
Qed.

(** X16. The case of the letters of a candidate does not matter: two
    candidates without white space, comma or semicolon that are equal up
    to the case of their ASCII letters are accepted together or refused
    together. *)
Theorem candidates_fold_case (accept : string) (s s' : string) :
  plainToken s = true -> plainToken s' = true ->
  EqualFold s s' = true ->
  (PreferredMediaTypes accept [s] = Some [s]
   <-> PreferredMediaTypes accept [s'] = Some [s'])
  /\ (PreferredMediaTypes accept [s] = Some []
      <-> PreferredMediaTypes accept [s'] = Some []).
Proof.
  intros Htok Htok' Hfold. rewrite !PreferredMediaTypes_eq.
  destruct (parseAccept _) as [specs|]; [|done]. cbn [mbind option_bind List.filter].
  assert (acceptableIn (sort.SliceStable less specs) s
          = acceptableIn (sort.SliceStable less specs) s') as ->.
  { unfold acceptable, getMediaTypePriority. by rewrite (priorityLoop_fold s s'). }
  destruct (acceptableIn (sort.SliceStable less specs) s'); split; split; done.
Qed.

End Candidates.

(** ** The listing and the candidates *)

Module AppendFacts.
Import strings StringFacts SplitFacts CountFacts TokenFacts.

Lemma Count_append (a b : string) (c : ascii) :
  Count (a ++ b)%string c = (Count a c + Count b c)%nat.
Proof. induction a as [|x a IH]; simpl; [done|]. rewrite IH. lia. Qed.

Lemma IndexByte_append (a b : string) (c : ascii) :
  IndexByte a c = None ->
  IndexByte (a ++ String c b)%string c = Some (String.length a).
Proof.
  induction a as [|x a IH]; simpl.
  - by rewrite Ascii.eqb_refl.
  - destruct (Ascii.eqb x c); [done|].
    destruct (IndexByte a c); [done|]. intros _. by rewrite IH.
Qed.

Lemma take_append (a b : string) : take (String.length a) (a ++ b)%string = a.
Proof. induction a as [|x a IH]; simpl; [by destruct b|]. by rewrite IH. Qed.

Lemma drop_append (a b : string) (c : ascii) :
  drop (S (String.length a)) (a ++ String c b)%string = b.
Proof. induction a as [|x a IH]; simpl; [done|]. exact IH. Qed.

Lemma Count_take (n : nat) (s : string) (c : ascii) :
  (Count (take n s) c <= Count s c)%nat.
Proof.
  revert s. induction n as [|n IH]; intros [|x s]; simpl; try lia.
  specialize (IH s). lia.
Qed.

Lemma Count_drop (n : nat) (s : string) (c : ascii) :
  (Count (drop n s) c <= Count s c)%nat.
Proof.
  revert s. induction n as [|n IH]; intros [|x s]; simpl; try lia.
  specialize (IH s). lia.
Qed.

Lemma IndexByte_take (s : string) (c : ascii) (i : nat) :
  IndexByte s c = Some i -> IndexByte (take i s) c = None.
Proof.
  revert i. induction s as [|x s IH]; intros i; simpl; [done|].
  destruct (Ascii.eqb x c) eqn:E.
  - by intros [= <-].
  - destruct (IndexByte s c) as [j|]; simpl; [|done].
    intros [= <-]. simpl. by rewrite E, (IH j eq_refl).
Qed.

(** No piece of a split holds the separator. *)
Lemma Split_Count_sep (s : string) (sep : ascii) (seg : string) :
  seg ∈ Split s sep -> Count seg sep = 0%nat.
Proof.
  revert seg. induction s as [|b s IH]; intros seg; simpl.
  - by intros ->%list_elem_of_singleton.
  - destruct (Ascii.eqb b sep) eqn:E.
    + intros [->|H]%elem_of_cons; [done|]. by apply IH.
    + pose proof (Split_not_nil s sep) as Hnn.
      destruct (Split s sep) as [|p ps]; [done|].
      intros [->|H]%elem_of_cons.
      * simpl. rewrite E. apply IH. left.
      * apply IH. by right.
Qed.

End AppendFacts.

Section Listing.
Import strings StringFacts SplitFacts CountFacts TokenFacts FoldFacts AppendFacts.
Import negotiator FloatFacts SortFacts.

Variable ParseFloat : string -> option float64.
Variable rangeParams : gmap string string -> list (string * string).
Hypothesis rangeParams_perm : forall m, rangeParams m ≡ₚ map_to_list m.

Local Abbreviation parseMediaType := (negotiator.parseMediaType ParseFloat).
Local Abbreviation parseAccept := (negotiator.parseAccept ParseFloat).
Local Abbreviation specify := (negotiator.specify ParseFloat rangeParams).
Local Abbreviation priorityLoop := (negotiator.priorityLoop ParseFloat rangeParams).
Local Abbreviation PreferredMediaTypes :=
  (negotiator.PreferredMediaTypes ParseFloat rangeParams).
Local Abbreviation acceptableIn := (acceptable ParseFloat rangeParams).

Lemma parseParam_names (m : mediaType.t) (part : string) :
  mediaType.Type_ (parseParam ParseFloat m part) = mediaType.Type_ m
  /\ mediaType.Subtype (parseParam ParseFloat m part) = mediaType.Subtype m.
Proof. by destruct (parseParam_fields ParseFloat m part) as (-> & -> & _). Qed.

Lemma fold_parseParam_names (parts : list string) (m : mediaType.t) :
  mediaType.Type_ (fold_left (parseParam ParseFloat) parts m) = mediaType.Type_ m
  /\ mediaType.Subtype (fold_left (parseParam ParseFloat) parts m)
     = mediaType.Subtype m.
Proof.
  revert m. induction parts as [|part parts IH]; intros m; simpl; [done|].
  destruct (IH (parseParam ParseFloat m part)) as [-> ->].
  apply parseParam_names.
Qed.

(** The type and the subtype of a parsed media type are trimmed, hold no
    semicolon, and the type holds no slash. *)
Lemma parseMediaType_names (str : string) (i : Z) (m : mediaType.t) :
  parseMediaType str i = Some m ->
  TrimSpace (mediaType.Type_ m) = mediaType.Type_ m
  /\ TrimSpace (mediaType.Subtype m) = mediaType.Subtype m
  /\ IndexByte (mediaType.Type_ m) "/" = None
  /\ IndexByte (mediaType.Type_ m) ";" = None
  /\ IndexByte (mediaType.Subtype m) ";" = None.
Proof.
  unfold negotiator.parseMediaType.
  pose proof (Split_Count_sep str ";") as Hsep.
  destruct (Split str ";") as [|p0 rest]; [done|].
  specialize (Hsep p0 (list_elem_of_here _ _)).
  unfold SplitN2. destruct (IndexByte p0 "/") as [j|] eqn:Hj; [|done].
  intros H.
  assert (fold_left (parseParam ParseFloat) rest
            (mediaType.mk (TrimSpace (take j p0)) (TrimSpace (drop (S j) p0))
               ∅ float64.one i 0) = m) as <- by congruence.
  clear H.
  destruct (fold_parseParam_names rest
              (mediaType.mk (TrimSpace (take j p0)) (TrimSpace (drop (S j) p0))
                 ∅ float64.one i 0)) as [-> ->].
  cbn [mediaType.Type_ mediaType.Subtype].
  split; [apply TrimSpace_idem|]. split; [apply TrimSpace_idem|].
  rewrite !IndexByte_Count.
  pose proof (IndexByte_take _ _ _ Hj) as Ht. apply IndexByte_Count in Ht.
  pose proof (Count_TrimSpace_le (take j p0) "/").
  pose proof (Count_TrimSpace_le (take j p0) ";").
  pose proof (Count_TrimSpace_le (drop (S j) p0) ";").
  pose proof (Count_take j p0 ";"). pose proof (Count_drop (S j) p0 ";").
  lia.
Qed.

Lemma parseAccepts_elem (l : list string) (i : Z) (m : mediaType.t) :
  m ∈ parseAccepts ParseFloat l i ->
  exists str j, parseMediaType str j = Some m.
Proof.
  revert i. induction l as [|a l IH]; intros i; simpl.
  - by intros ?%elem_of_nil.
  - destruct (parseMediaType (TrimSpace a) i) as [m0|] eqn:E; [|apply IH].
    intros [->|H]%elem_of_cons; [by eexists _, _|by eapply IH].
Qed.

(** The full type of a parsed media type parses to the same type and
    subtype, without parameters. *)
Lemma parseMediaType_getFullType (str : string) (i : Z) (m : mediaType.t) :
  parseMediaType str i = Some m ->
  parseMediaType (getFullType m) 0
  = Some (mediaType.mk (mediaType.Type_ m) (mediaType.Subtype m) ∅
            float64.one 0 0).
Proof.
  intros (Ht & Hst & Hslash & Hsemi & Hsemi')%parseMediaType_names.
  unfold negotiator.parseMediaType, getFullType.
  change (mediaType.Type_ m ++ "/" ++ mediaType.Subtype m)%string
    with (mediaType.Type_ m ++ String "/" (mediaType.Subtype m))%string.
  rewrite Split_IndexByte_None.
  - unfold SplitN2. rewrite (IndexByte_append _ _ _ Hslash).
    rewrite take_append, drop_append. cbn [fold_left]. by rewrite Ht, Hst.
  - apply IndexByte_Count. rewrite Count_append. simpl.
    apply IndexByte_Count in Hsemi, Hsemi'. lia.
Qed.

(** A spec without parameters matches its own full type with the score
    6, and no candidate with a greater score. *)
Lemma specify_getFullType (str : string) (i : Z) (m : mediaType.t) :
  parseMediaType str i = Some m ->
  mediaType.Params m = ∅ ->
  specify (getFullType m) m 0
  = Some (mediaType.mk (mediaType.Type_ m) (mediaType.Subtype m) ∅
            (mediaType.Q m) 0 6).
Proof.
  intros Hparse Hparams. unfold negotiator.specify.
  rewrite (parseMediaType_getFullType _ _ _ Hparse).
  cbn [mbind option_bind mediaType.Type_ mediaType.Subtype].
  rewrite !EqualFold_refl. cbn [mbind option_bind].
  rewrite Hparams, (rangeParams_empty _ rangeParams_perm). reflexivity.
Qed.

Lemma specify_score_bound (typ : string) (a r : mediaType.t) (i : Z) :
  mediaType.Params a = ∅ ->
  specify typ a i = Some r -> mediaType.S r <= 6.
Proof.
  intros Hparams. rewrite specify_eq.
  destruct (parseMediaType typ 0) as [p|]; [|done]. cbn zeta.
  destruct (_ && _); [|done].
  rewrite Hparams, (rangeParams_empty _ rangeParams_perm). cbn [specifyParams].
  cbn [mbind option_bind]. intros [= <-]. cbn [mediaType.S].
  destruct (EqualFold (mediaType.Type_ a) (mediaType.Type_ p)),
           (EqualFold (mediaType.Subtype a) (mediaType.Subtype p));
    vm_compute; discriminate.
Qed.

(** A number that is not below a positive number is positive. *)
Lemma gt_zero_not_below (a b : spec_float) :
  float64.isNaN a = false -> float64.isNaN b = false ->
  float64.gt a float64.zero = true -> float64.gt a b = false ->
  float64.gt b float64.zero = true.
Proof.
  intros Ha Hb Hpos Hab.
  destruct (float64.ne a b) eqn:E.
  - destruct (ne_gt_total _ _ Ha Hb E) as [H|H]; [congruence|].
    by apply (gt_trans b a).
  - by rewrite <- (ne_false_gt a b).
Qed.

(** X17. What the listing without candidates names is accepted when it
    is offered: for a header whose specs have no parameters and no NaN
    quality, every string of [PreferredMediaTypes(accept)] is returned by
    [PreferredMediaTypes(accept, t)]. *)
Theorem listed_types_are_accepted (accept : string) (specs : list mediaType.t)
  (out : list string) (t : string) :
  parseAccept (if String.eqb accept "" then "*/*" else accept) = Some specs ->
  (forall m, m ∈ specs ->
     mediaType.Params m = ∅ /\ float64.isNaN (mediaType.Q m) = false) ->
  PreferredMediaTypes accept [] = Some out ->
  t ∈ out ->
  PreferredMediaTypes accept [t] = Some [t].
Proof.
  intros Hspecs Hplain Hout Ht.
  rewrite (PreferredMediaTypes_accepts _ _ _ _ Hspecs) in Hout.
  injection Hout as <-.
  apply list_elem_of_fmap in Ht as (m & -> & Hm).
  apply list_elem_of_In, filter_In in Hm as [Hm Hq].
  apply list_elem_of_In in Hm.
  assert (forall a, a ∈ sort.SliceStable less specs -> a ∈ specs) as Hsub.
  { intros a. by rewrite (SliceStable_perm less specs). }
  assert (exists str j, parseMediaType str j = Some m) as (str & j & Hparse).
  { unfold negotiator.parseAccept in Hspecs.
    destruct (splitMediaTypes _) as [segs|]; [|done].
    injection Hspecs as <-. eapply parseAccepts_elem, Hsub, Hm. }
  destruct (Hplain m (Hsub m Hm)) as [Hparams Hnum].
  pose proof (specify_getFullType _ _ _ Hparse Hparams) as Hself.
  rewrite (PreferredMediaTypes_provided ParseFloat rangeParams accept
             [getFullType m] specs ltac:(discriminate) Hspecs).
  cbn [List.filter].
  assert (acceptableIn (sort.SliceStable less specs) (getFullType m) = true) as ->;
    [|done].
  unfold acceptable, getMediaTypePriority.
  pose proof (priorityLoop_spec ParseFloat rangeParams (getFullType m)
                (sort.SliceStable less specs) 0 None) as H.
  destruct (negotiator.priorityLoop _ _ (getFullType m) _ 0 None) as [r|].
  - destruct H as ([?|(a & Ha & Hsa)] & _ & Hbest); [done|].
    destruct (Hbest m _ Hm Hself) as [Hle Htie]. cbn [mediaType.S mediaType.Q] in *.
    destruct (Hplain a (Hsub a Ha)) as [Hpa Hna].
    pose proof (specify_score_bound _ _ _ _ Hpa Hsa).
    pose proof (specify_Q _ _ _ _ _ _ Hsa) as [HQ _].
    unfold isQuality. rewrite HQ.
    apply (gt_zero_not_below (mediaType.Q m)); [done|done|exact Hq|].
    rewrite <- HQ. apply Htie. lia.
  - destruct H as [_ Hnone]. by rewrite (Hnone m Hm) in Hself.
Qed.

End Listing.

(** * The session configuration: [configDefault] *)

Module SelectorFacts.
Import strings StringFacts SplitFacts CountFacts TokenFacts.

Lemma Split_two (s : string) (c : ascii) :
  length (Split s c) = 2%nat ->
  exists i, IndexByte s c = Some i
            /\ IndexByte (drop (S i) s) c = None
            /\ Split s c = [take i s; drop (S i) s].
Proof.
  destruct (IndexByte s c) as [i|] eqn:Hi.
  - rewrite (Split_IndexByte_Some _ _ _ Hi). intros Hlen. exists i.
    split; [done|].
    destruct (IndexByte (drop (S i) s) c) as [j|] eqn:Hj.
    + rewrite (Split_IndexByte_Some _ _ _ Hj) in Hlen.
      pose proof (Split_not_nil (drop (S j) (drop (S i) s)) c).
      destruct (Split (drop (S j) (drop (S i) s)) c); [done|]. simpl in Hlen. lia.
    + split; [done|]. by rewrite (Split_IndexByte_None _ _ Hj).
  - rewrite (Split_IndexByte_None _ _ Hi). simpl. lia.
Qed.

Lemma Split_append (src rest : string) (c : ascii) :
  IndexByte src c = None ->
  Split (src ++ String c rest)%string c = src :: Split rest c.
Proof.
  induction src as [|b src IH]; simpl.
  - intros _. by rewrite Ascii.eqb_refl.
  - destruct (Ascii.eqb b c); [done|].
    destruct (IndexByte src c); [done|]. intros _. by rewrite IH.
Qed.

End SelectorFacts.

Section ConfigFacts.
Import strings StringFacts SplitFacts TokenFacts SelectorFacts session.

Context {Handler StorePtr ErrorHandlerFunc StorageValue KeyGeneratorFunc : Type}.
Variable UUIDv4 : KeyGeneratorFunc.

Local Abbreviation Config :=
  (session.Config Handler StorePtr ErrorHandlerFunc StorageValue KeyGeneratorFunc).

Implicit Types current cfg r : Config.

Lemma withDefaults_KeyLookup current cfg :
  KeyLookup (withDefaults current cfg)
  = effectiveKeyLookup current cfg.
Proof.
  unfold withDefaults, effectiveKeyLookup.
  destruct (toInt _ <=? 0); simpl;
    destruct (String.eqb (KeyLookup cfg) ""); simpl;
    by destruct (KeyGenerator cfg).
Qed.

Lemma withDefaults_fields current cfg :
  let c := withDefaults current cfg in
  Next c = Next cfg /\ Store c = Store cfg /\ ErrorHandler c = ErrorHandler cfg
  /\ Storage c = Storage cfg /\ CookieDomain c = CookieDomain cfg
  /\ CookiePath c = CookiePath cfg /\ CookieSecure c = CookieSecure cfg
  /\ CookieHTTPOnly c = CookieHTTPOnly cfg
  /\ CookieSameSite c = CookieSameSite cfg
  /\ CookieSessionOnly c = CookieSessionOnly cfg.
Proof.
  unfold withDefaults.
  destruct (toInt _ <=? 0); simpl;
    destruct (String.eqb (KeyLookup cfg) EmptyString); simpl;
    by destruct (KeyGenerator cfg).
Qed.

Lemma withDefaults_IdleTimeout current cfg :
  IdleTimeout (withDefaults current cfg)
  = if toInt (time.Seconds (IdleTimeout cfg)) <=? 0
    then IdleTimeout current else IdleTimeout cfg.
Proof.
  unfold withDefaults.
  destruct (toInt _ <=? 0); simpl;
    destruct (String.eqb (KeyLookup cfg) EmptyString); simpl;
    by destruct (KeyGenerator cfg).
Qed.

Lemma withDefaults_KeyGenerator current cfg :
  KeyGenerator (withDefaults current cfg)
  = match KeyGenerator cfg with
    | None => KeyGenerator current
    | Some g => Some g
    end.
Proof.
  unfold withDefaults.
  destruct (toInt _ <=? 0); simpl;
    destruct (String.eqb (KeyLookup cfg) EmptyString); simpl;
    destruct (KeyGenerator cfg) eqn:E; simpl; by rewrite ?E.
Qed.

(** A config whose three defaulted fields are set, or hold the default
    already, is left as it is. *)
Lemma withDefaults_fixed current c :
  ((toInt (time.Seconds (IdleTimeout c)) <=? 0) = true ->
   IdleTimeout c = IdleTimeout current) ->
  (KeyLookup c = EmptyString -> KeyLookup current = EmptyString) ->
  (KeyGenerator c = None -> KeyGenerator current = None) ->
  withDefaults current c = c.
Proof.
  destruct c as [n s e d st k cd cp cs ch css cso g src nm].
  cbn [IdleTimeout KeyLookup KeyGenerator]. intros Hd Hk Hg.
  unfold withDefaults. cbn [IdleTimeout].
  assert ((if toInt (time.Seconds d) <=? 0
           then setIdleTimeout (IdleTimeout current)
                  (mkConfig n s e d st k cd cp cs ch css cso g src nm)
           else mkConfig n s e d st k cd cp cs ch css cso g src nm)
          = mkConfig n s e d st k cd cp cs ch css cso g src nm) as ->.
  { destruct (toInt (time.Seconds d) <=? 0); [|done].
    unfold setIdleTimeout. simpl. by rewrite <- Hd. }
  cbn [KeyLookup].
  assert ((if String.eqb k EmptyString
           then setKeyLookup (KeyLookup current)
                  (mkConfig n s e d st k cd cp cs ch css cso g src nm)
           else mkConfig n s e d st k cd cp cs ch css cso g src nm)
          = mkConfig n s e d st k cd cp cs ch css cso g src nm) as ->.
  { destruct (String.eqb k EmptyString) eqn:E; [|done].
    apply String.eqb_eq in E. unfold setKeyLookup. simpl.
    by rewrite (Hk E), E. }
  cbn [KeyGenerator]. destruct g as [g|]; [done|].
  unfold setKeyGenerator. simpl. by rewrite (Hg eq_refl).
Qed.

(** What [configDefault] does after the defaults are in: the selectors
    are cut from [KeyLookup]. *)
Lemma configDefault_selectors current cfg rest r :
  configDefault current (cfg :: rest) = Returns r ->
  exists i,
    let k := effectiveKeyLookup current cfg in
    IndexByte k ":" = Some i
    /\ IndexByte (drop (S i) k) ":" = None
    /\ (take i k = "cookie" \/ take i k = "header" \/ take i k = "query")
    /\ r = setSessionName (drop (S i) k)
             (setSource (take i k) (withDefaults current cfg)).
Proof.
  unfold configDefault. rewrite withDefaults_KeyLookup.
  destruct (length (Split (effectiveKeyLookup current cfg) ":") =? 2)%nat eqn:Hlen;
    [|cbn [negb]; discriminate].
  apply Nat.eqb_eq, Split_two in Hlen as (i & Hi & Hrest & ->).
  cbn [negb nth]. intros H. exists i. cbn zeta.
  split; [done|]. split; [done|].
  destruct (String.eqb (take i _) SourceCookie) eqn:E1.
  { apply String.eqb_eq in E1. rewrite E1. split; [by left|]. by injection H as <-. }
  destruct (String.eqb (take i _) SourceHeader) eqn:E2.
  { apply String.eqb_eq in E2. rewrite E2. split; [right; by left|].
    by injection H as <-. }
  destruct (String.eqb (take i _) SourceURLQuery) eqn:E3; [|done].
  apply String.eqb_eq in E3. rewrite E3. split; [right; by right|].
  by injection H as <-.
Qed.

(** X10. When [configDefault] returns for a given config, [KeyLookup] is
    the one given, or the default when none is given, and it is made of
    the two fields read from it: [KeyLookup = source:sessionName], with a
    source among [cookie], [header] and [query] and a name without colon. *)
Theorem configDefault_KeyLookup current cfg rest r :
  configDefault current (cfg :: rest) = Returns r ->
  KeyLookup r = effectiveKeyLookup current cfg
  /\ KeyLookup r = (source r ++ ":" ++ sessionName r)%string
  /\ (source r = "cookie" \/ source r = "header" \/ source r = "query")
  /\ IndexByte (sessionName r) ":" = None.
Proof.
  intros (i & Hi & Hrest & Hsrc & ->)%configDefault_selectors.
  cbn [KeyLookup source sessionName setSessionName setSource].
  rewrite withDefaults_KeyLookup.
  split; [done|]. split; [|done].
  symmetry. apply (take_drop_IndexByte _ ":" i Hi).
Qed.

(** X11. [configDefault] returns for a given config exactly when the
    [KeyLookup] it reads is a supported source, one colon and a name
    without colon; in every other case it panics. *)
Theorem configDefault_returns_iff current cfg rest :
  (exists r, configDefault current (cfg :: rest) = Returns r) <->
  exists src name,
    effectiveKeyLookup current cfg = (src ++ ":" ++ name)%string
    /\ (src = "cookie" \/ src = "header" \/ src = "query")
    /\ IndexByte name ":" = None.
Proof.
  split.
  - intros [r (i & Hi & Hrest & Hsrc & _)%configDefault_selectors].
    eexists _, _. split; [|done]. symmetry. apply (take_drop_IndexByte _ ":" i Hi).
  - intros (src & name & Hk & Hsrc & Hname).
    unfold configDefault. rewrite withDefaults_KeyLookup, Hk.
    assert (Split (src ++ ":" ++ name)%string ":" = [src; name]) as ->.
    { change (src ++ ":" ++ name)%string with (src ++ String ":" name)%string.
      rewrite Split_append, (Split_IndexByte_None _ _ Hname); [done|].
      by destruct Hsrc as [->|[->| ->]]. }
    cbn [length Nat.eqb negb nth].
    destruct Hsrc as [->|[->| ->]]; by eexists.
Qed.

(** X12. [configDefault] is idempotent: given its own result again, it
    returns it unchanged. *)
Theorem configDefault_idempotent current cfg rest r :
  configDefault current (cfg :: rest) = Returns r ->
  configDefault current [r] = Returns r.
Proof.
  intros (i & Hi & Hrest & Hsrc & Hr)%configDefault_selectors.
  assert (withDefaults current r = r) as Hfix.
  { apply withDefaults_fixed; rewrite Hr;
      cbn [IdleTimeout KeyLookup KeyGenerator setSessionName setSource].
    - rewrite withDefaults_IdleTimeout.
      destruct (toInt (time.Seconds (IdleTimeout cfg)) <=? 0) eqn:E; [done|].
      by rewrite E.
    - rewrite withDefaults_KeyLookup. intros E. by rewrite E in Hi.
    - rewrite withDefaults_KeyGenerator. by destruct (KeyGenerator cfg). }
  assert (KeyLookup r = effectiveKeyLookup current cfg) as Hk.
  { rewrite Hr. cbn [KeyLookup setSessionName setSource].
    apply withDefaults_KeyLookup. }
  unfold configDefault. rewrite Hfix, Hk.
  rewrite (Split_IndexByte_Some _ _ _ Hi), (Split_IndexByte_None _ _ Hrest).
  cbn [length Nat.eqb negb nth].
  assert (setSessionName (drop (S i) (effectiveKeyLookup current cfg))
            (setSource (take i (effectiveKeyLookup current cfg)) r) = r) as Hset.
  { rewrite Hr. reflexivity. }
  destruct Hsrc as [E|[E|E]]; rewrite E in *; exact (f_equal Returns Hset).
Qed.

(** X13. A config that sets none of [IdleTimeout], [KeyLookup] and
    [KeyGenerator] gets the values of the package's [ConfigDefault] for
    them, with the source [cookie] and the name [session_id], and keeps
    its other fields; for the zero config the result is [ConfigDefault]
    itself, as for a call without argument. *)
Theorem configDefault_unset cfg rest :
  IdleTimeout cfg = 0 -> KeyLookup cfg = EmptyString -> KeyGenerator cfg = None ->
  configDefault (ConfigDefault UUIDv4) (cfg :: rest)
  = Returns (mkConfig (Next cfg) (Store cfg) (ErrorHandler cfg) (24 * time.Hour)
               (Storage cfg) "cookie:session_id" (CookieDomain cfg)
               (CookiePath cfg) (CookieSecure cfg) (CookieHTTPOnly cfg)
               (CookieSameSite cfg) (CookieSessionOnly cfg) (Some UUIDv4)
               "cookie" "session_id")
  /\ configDefault (ConfigDefault UUIDv4 : Config) [zeroConfig]
     = configDefault (ConfigDefault UUIDv4) [].
Proof.
  intros Hd Hk Hg. split; [|reflexivity].
  destruct cfg as [n s e d st k cd cp cs ch css cso g src nm].
  simpl in Hd, Hk, Hg. subst d k g. reflexivity.
Qed.

(** X14. With the package's [ConfigDefault], the idle timeout of every
    config that [configDefault] returns is at least one whole second:
    [int(cfg.IdleTimeout.Seconds())] is positive. *)
Theorem configDefault_IdleTimeout (config : list Config) r :
  configDefault (ConfigDefault UUIDv4) config = Returns r ->
  0 < toInt (time.Seconds (IdleTimeout r)).
Proof.
  destruct config as [|cfg rest].
  - intros [= <-]. reflexivity.
  - intros (i & _ & _ & _ & ->)%configDefault_selectors.
    cbn [IdleTimeout setSessionName setSource].
    rewrite withDefaults_IdleTimeout.
    destruct (toInt (time.Seconds (IdleTimeout cfg)) <=? 0) eqn:E.
    + reflexivity.
    + lia.
Qed.

End ConfigFacts.

(** * The session data: the generated codec *)

Section Codec.
Import session.

Context {V E : Type} `{!msgp.Runtime V E}.
Variable rangeData : gmap string V -> list (string * V).
Hypothesis rangeData_perm : forall m, rangeData m ≡ₚ map_to_list m.

(** The laws of the runtime that the properties rest on: the [Append]
    functions append, and what they append does not depend on the bytes
    before. *)
Hypothesis AppendMapHeader_app :
  forall b n, msgp.AppendMapHeader b n = b ++ msgp.AppendMapHeader [] n.
Hypothesis AppendString_app :
  forall b s, msgp.AppendString b s = b ++ msgp.AppendString [] s.
Hypothesis AppendIntf_app :
  forall b value,
    msgp.AppendIntf b value
    = match msgp.AppendIntf [] value with
      | Ok ev => Ok (b ++ ev)
      | Err err => Err err
      end.

Local Abbreviation data := (session.data V).
Local Abbreviation MarshalMsg := (session.MarshalMsg rangeData).
Local Abbreviation UnmarshalMsg := (session.UnmarshalMsg rangeData).
Local Abbreviation Msgsize := (session.Msgsize rangeData).
Local Abbreviation entries := (session.entries rangeData).

Lemma marshalEntries_encode (kvs : list (string * V)) (o : bytes) :
  marshalEntries kvs o
  = match encodeEntries kvs with
    | Ok enc => Ok (o ++ enc)
    | Err err => Err err
    end.
Proof.
  revert o. induction kvs as [|[key value] kvs IH]; intros o; simpl.
  - by rewrite app_nil_r.
  - rewrite AppendIntf_app, AppendString_app.
    destruct (msgp.AppendIntf [] value) as [ev|err]; [|done].
    rewrite IH. destruct (encodeEntries kvs) as [er|err]; [|done].
    by rewrite <- !app_assoc.
Qed.

(** What [MarshalMsg] returns, in one piece. *)
Lemma MarshalMsg_encode (z : data) (b : bytes) :
  MarshalMsg z b
  = match encodeEntries (entries z) with
    | Ok enc =>
        Ok (b ++ ["129"; "164"; "068"; "097"; "116"; "097"]%char
              ++ msgp.AppendMapHeader [] (uint32 (lenData z)) ++ enc)
    | Err err => Err err
    end.
Proof.
  unfold session.MarshalMsg, msgp.Require.
  rewrite marshalEntries_encode, AppendMapHeader_app.
  destruct (encodeEntries _); [|done]. by rewrite <- !app_assoc.
Qed.

(** X18. [MarshalMsg] appends: the bytes of [b] come first, unchanged, and
    what follows them, like the error when there is one, does not depend
    on [b]. *)
Theorem MarshalMsg_appends (z : data) (b : bytes) :
  MarshalMsg z b
  = match MarshalMsg z [] with
    | Ok enc => Ok (b ++ enc)
    | Err err => Err err
    end.
Proof.
  rewrite !MarshalMsg_encode. by destruct (encodeEntries _).
Qed.

Lemma encodeEntries_Ok (kvs : list (string * V)) :
  (exists enc, encodeEntries kvs = Ok enc) <->
  forall key value, (key, value) ∈ kvs -> exists ev, msgp.AppendIntf [] value = Ok ev.
Proof.
  induction kvs as [|[k v] kvs IH]; simpl.
  - split; [intros _ ? ? ?%elem_of_nil; done|by eexists].
  - destruct (msgp.AppendIntf [] v) as [ev|err] eqn:Ev.
    + destruct (encodeEntries kvs) as [er|err].
      * split; [|by eexists]. intros _ key value [[= -> ->]|Hin]%elem_of_cons.
        -- by eexists.
        -- by apply (proj1 IH ltac:(by eexists) key value).
      * split; [by intros [? ?]|]. intros Hall.
        destruct (proj2 IH) as [? ?]; [|done].
        intros key value Hin. apply (Hall key value). by right.
    + split; [by intros [? ?]|]. intros Hall.
      destruct (Hall k v ltac:(left)) as [ev Hev]. congruence.
Qed.

Lemma entries_elem (z : data) (key : string) (value : V) :
  (key, value) ∈ entries z <->
  exists m, Data z = Some m /\ m !! key = Some value.
Proof.
  unfold session.entries. destruct (Data z) as [m|].
  - rewrite rangeData_perm, elem_of_map_to_list. split; [by eexists|].
    by intros (? & [= <-] & ?).
  - split; [by intros ?%elem_of_nil|]. by intros (? & ? & _).
Qed.

(** X19. [MarshalMsg] returns an error exactly when [AppendIntf] refuses
    one of the values of [Data]; a message is written when every value
    can be written. *)
Theorem MarshalMsg_returns_iff (z : data) (b : bytes) :
  (exists o, MarshalMsg z b = Ok o) <->
  forall m key value,
    Data z = Some m -> m !! key = Some value ->
    exists ev, msgp.AppendIntf [] value = Ok ev.
Proof.
  rewrite MarshalMsg_encode. split.
  - intros [o Ho] m key value Hm Hkey.
    assert (exists enc, encodeEntries (entries z) = Ok enc) as Henc.
    { destruct (encodeEntries _); [by eexists|done]. }
    apply (proj1 (encodeEntries_Ok (entries z)) Henc key value).
    apply entries_elem. by eexists.
  - intros Hall. destruct (proj2 (encodeEntries_Ok (entries z))) as [enc ->].
    + intros key value (m & Hm & Hkey)%entries_elem. by eapply Hall.
    + by eexists.
Qed.

Lemma clear_all (kvs : list (string * V)) (m : gmap string V) :
  (forall key, is_Some (m !! key) -> key ∈ kvs.*1) ->
  fold_left (fun m kv => delete kv.1 m) kvs m = ∅.
Proof.
  revert m. induction kvs as [|[k v] kvs IH]; intros m Hkeys; simpl.
  - apply map_empty. intros key. apply eq_None_not_Some. intros Hs.
    by apply Hkeys, elem_of_nil in Hs.
  - apply IH. intros key [x Hx]. apply lookup_delete_Some in Hx as [Hne Hx].
    assert (key ∈ ((k, v) :: kvs).*1) as Hin by (apply Hkeys; by eexists).
    apply elem_of_cons in Hin as [Heq|Hin]; [done|exact Hin].
Qed.

(** The loop that deletes the keys leaves no entry. *)
Lemma clearData_empty (m : gmap string V) : clearData rangeData m = ∅.
Proof.
  apply clear_all. intros key [x Hx].
  apply list_elem_of_fmap. exists (key, x). split; [done|].
  rewrite rangeData_perm. by apply elem_of_map_to_list.
Qed.

Lemma resetData_empty (z : data) : resetData rangeData z = ∅.
Proof.
  unfold resetData. destruct (Data z) as [m|]; [|done].
  destruct (0 <? size m)%nat eqn:Hsize; [apply clearData_empty|].
  apply Nat.ltb_ge in Hsize. apply map_size_empty_iff. lia.
Qed.

Lemma unmarshalFields_receiver (zb0001 : nat) (z0 z1 : data) (bts : bytes) :
  (unmarshalFields rangeData zb0001 z0 bts).2
  = (unmarshalFields rangeData zb0001 z1 bts).2
  /\ (((unmarshalFields rangeData zb0001 z0 bts).1 = z0
       /\ (unmarshalFields rangeData zb0001 z1 bts).1 = z1)
      \/ (unmarshalFields rangeData zb0001 z0 bts).1
         = (unmarshalFields rangeData zb0001 z1 bts).1).
Proof.
  revert z0 z1 bts. induction zb0001 as [|n IH]; intros z0 z1 bts; simpl.
  - split; [done|]. by left.
  - destruct (msgp.ReadMapKeyZC bts) as [[field bts1]|err]; simpl;
      [|split; [done|by left]].
    destruct (String.eqb (msgp.UnsafeString field) "Data").
    + destruct (msgp.ReadMapHeaderBytes bts1) as [[zb0002 bts2]|err]; simpl;
        [|split; [done|by left]].
      rewrite !resetData_empty.
      destruct (unmarshalEntries (N.to_nat zb0002) ∅ bts2) as [m [bts3|err]];
        simpl; split; try done; by right.
    + destruct (msgp.Skip bts1) as [bts2|err]; simpl; [apply IH|].
      split; [done|by left].
Qed.

(** X22. [UnmarshalMsg] never merges the message with what the receiver
    held: either the receiver is left as it was (no field [Data] was
    reached), or its state after the call is the same for every receiver;
    and the bytes or the error returned never depend on the receiver. *)
Theorem UnmarshalMsg_receiver (z0 z1 : data) (bts : bytes) :
  (UnmarshalMsg z0 bts).2 = (UnmarshalMsg z1 bts).2
  /\ (((UnmarshalMsg z0 bts).1 = z0 /\ (UnmarshalMsg z1 bts).1 = z1)
      \/ (UnmarshalMsg z0 bts).1 = (UnmarshalMsg z1 bts).1).
Proof.
  unfold session.UnmarshalMsg.
  destruct (msgp.ReadMapHeaderBytes bts) as [[zb0001 bts1]|err]; simpl.
  - apply unmarshalFields_receiver.
  - split; [done|]. by left.
Qed.

(** The laws of reading: the [Read] functions read back what the
    [Append] functions write, and the bytes that [MarshalMsg] writes
    itself are the header of a map of one entry and the string [Data]. *)
Hypothesis ReadMapHeaderBytes_append :
  forall n rest, (n < 4294967296)%N ->
    msgp.ReadMapHeaderBytes (msgp.AppendMapHeader [] n ++ rest) = Ok (n, rest).
Hypothesis ReadStringBytes_append :
  forall s rest, (N.of_nat (String.length s) < 4294967296)%N ->
    msgp.ReadStringBytes (msgp.AppendString [] s ++ rest) = Ok (s, rest).
Hypothesis ReadMapKeyZC_append :
  forall s rest, (N.of_nat (String.length s) < 4294967296)%N ->
    msgp.ReadMapKeyZC (msgp.AppendString [] s ++ rest)
    = Ok (list_ascii_of_string s, rest).
Hypothesis AppendMapHeader_one : msgp.AppendMapHeader [] 1 = ["129"%char].
Hypothesis AppendString_Data :
  msgp.AppendString [] "Data" = ["164"; "068"; "097"; "116"; "097"]%char.

Lemma unmarshalEntries_encode (kvs : list (string * V)) (enc rest : bytes)
  (m : gmap string V) :
  (forall key value, (key, value) ∈ kvs ->
     (N.of_nat (String.length key) < 4294967296)%N /\ readsBack value) ->
  encodeEntries kvs = Ok enc ->
  unmarshalEntries (length kvs) m (enc ++ rest) = (insertAll kvs m, Ok rest).
Proof.
  revert enc m. induction kvs as [|[k v] kvs IH]; intros enc m Hall; simpl.
  - by intros [= <-].
  - destruct (msgp.AppendIntf [] v) as [ev|] eqn:Ev; [|done].
    destruct (encodeEntries kvs) as [er|] eqn:Er; [|done].
    intros [= <-]. destruct (Hall k v ltac:(left)) as [Hk Hv].
    rewrite <- !app_assoc, (ReadStringBytes_append _ _ Hk), (Hv _ _ Ev).
    apply IH; [|done]. intros key value Hin. apply Hall. by right.
Qed.

Lemma insertAll_list_to_map (kvs : list (string * V)) :
  insertAll kvs ∅ = list_to_map (rev kvs).
Proof.
  unfold insertAll. rewrite <- fold_left_rev_right.
  induction (rev kvs) as [|[k v] l IH]; simpl; [done|]. by rewrite IH.
Qed.

Lemma insertAll_range (m : gmap string V) : insertAll (rangeData m) ∅ = m.
Proof.
  rewrite insertAll_list_to_map.
  rewrite <- (list_to_map_to_list m) at 2.
  assert (rev (rangeData m) ≡ₚ map_to_list m) as Hperm.
  { by rewrite <- Permutation_rev, rangeData_perm. }
  apply list_to_map_proper; [|exact Hperm].
  rewrite Hperm. apply NoDup_fst_map_to_list.
Qed.

(** X20. [UnmarshalMsg] reads back what [MarshalMsg] writes: when the map
    has fewer than 2^32 entries, each key is shorter than 2^32 bytes and
    each value is one that [ReadIntfBytes] reads back, then on the
    message, followed by any bytes, [UnmarshalMsg] leaves in the receiver
    the entries of the map, whatever the receiver held before, and
    returns the bytes that follow.  A nil map comes back as an empty
    one. *)
Theorem UnmarshalMsg_MarshalMsg (z z0 : data) (enc rest : bytes) :
  (N.of_nat (lenData z) < 4294967296)%N ->
  (forall m key value, Data z = Some m -> m !! key = Some value ->
     (N.of_nat (String.length key) < 4294967296)%N /\ readsBack value) ->
  MarshalMsg z [] = Ok enc ->
  UnmarshalMsg z0 (enc ++ rest)
  = (mkData (Some (default ∅ (Data z))), Ok rest).
Proof.
  intros Hlen Hall. rewrite MarshalMsg_encode.
  destruct (encodeEntries (entries z)) as [er|] eqn:Er; [|done].
  intros [= <-]. unfold session.UnmarshalMsg.
  change (("129"%char :: "164"%char :: "068"%char :: "097"%char :: "116"%char
           :: "097"%char :: ?x) ++ rest)
    with (["129"%char]
            ++ (["164"; "068"; "097"; "116"; "097"]%char ++ (x ++ rest))).
  rewrite <- app_assoc.
  rewrite <- AppendMapHeader_one at 1.
  rewrite (ReadMapHeaderBytes_append 1) by done.
  change (N.to_nat 1) with 1%nat. cbn [unmarshalFields].
  rewrite <- AppendString_Data at 1.
  rewrite (ReadMapKeyZC_append "Data") by done.
  change (msgp.UnsafeString (list_ascii_of_string "Data")) with "Data".
  cbn [String.eqb Ascii.eqb Bool.eqb].
  assert (uint32 (lenData z) = N.of_nat (lenData z)) as Hu.
  { unfold uint32. by apply N.mod_small. }
  rewrite ReadMapHeaderBytes_append by (by rewrite Hu).
  rewrite Hu, Nat2N.id, resetData_empty.
  assert (lenData z = length (entries z)) as ->.
  { unfold lenData, session.entries. destruct (Data z) as [m|]; [|done].
    by rewrite rangeData_perm, length_map_to_list. }
  rewrite (unmarshalEntries_encode _ er).
  - do 3 f_equal. unfold session.entries.
    destruct (Data z) as [m|]; [apply insertAll_range|done].
  - intros key value (m & Hm & Hkey)%entries_elem. by eapply Hall.
  - done.
Qed.

(** The laws of the sizes: the constants bound the header of a map and
    the prefix of a string. *)
Hypothesis AppendMapHeader_size :
  forall n, Z.of_nat (length (msgp.AppendMapHeader [] n)) <= msgp.MapHeaderSize.
Hypothesis AppendString_size :
  forall s,
    Z.of_nat (length (msgp.AppendString [] s))
    <= msgp.StringPrefixSize + Z.of_nat (String.length s).

Lemma encodeEntries_size (kvs : list (string * V)) (enc : bytes) (s : Z) :
  (forall key value ev, (key, value) ∈ kvs ->
     msgp.AppendIntf [] value = Ok ev ->
     Z.of_nat (length ev) <= msgp.GuessSize value) ->
  encodeEntries kvs = Ok enc ->
  s + Z.of_nat (length enc)
  <= fold_left
       (fun s kv =>
          s + (msgp.StringPrefixSize + Z.of_nat (String.length kv.1)
               + msgp.GuessSize kv.2))
       kvs s.
Proof.
  revert enc s. induction kvs as [|[k v] kvs IH]; intros enc s Hall; simpl.
  - intros [= <-]. simpl. lia.
  - destruct (msgp.AppendIntf [] v) as [ev|] eqn:Ev; [|done].
    destruct (encodeEntries kvs) as [er|] eqn:Er; [|done].
    intros [= <-].
    pose proof (Hall k v ev ltac:(left) Ev).
    pose proof (AppendString_size k).
    assert (forall key value ev, (key, value) ∈ kvs ->
              msgp.AppendIntf [] value = Ok ev ->
              Z.of_nat (length ev) <= msgp.GuessSize value) as Hall'.
    { intros key value ev' Hin. apply (Hall key). by right. }
    specialize (IH er (s + (msgp.StringPrefixSize + Z.of_nat (String.length k)
                            + msgp.GuessSize v)) Hall' eq_refl).
    cbn [fst snd]. rewrite !length_app, !Nat2Z.inj_add. lia.
Qed.

(** X21. [Msgsize] is an upper bound, as its comment says, when
    [GuessSize] is one: if no value of the map is written in more bytes
    than [GuessSize] tells, the message that [MarshalMsg] writes is at
    most [Msgsize] bytes long. *)
Theorem Msgsize_bound (z : data) (enc : bytes) :
  (forall m key value ev, Data z = Some m -> m !! key = Some value ->
     msgp.AppendIntf [] value = Ok ev ->
     Z.of_nat (length ev) <= msgp.GuessSize value) ->
  MarshalMsg z [] = Ok enc ->
  Z.of_nat (length enc) <= Msgsize z.
Proof.
  intros Hall. rewrite MarshalMsg_encode.
  destruct (encodeEntries (entries z)) as [er|] eqn:Er; [|done].
  intros [= <-]. cbn [length]. rewrite length_app.
  pose proof (AppendMapHeader_size (uint32 (lenData z))) as Hh.
  unfold session.Msgsize, session.entries in *.
  destruct (Data z) as [m|] eqn:Hm.
  - pose proof (encodeEntries_size (rangeData m) er (1 + 5 + msgp.MapHeaderSize))
      as Hs.
    assert (forall key value ev, (key, value) ∈ rangeData m ->
              msgp.AppendIntf [] value = Ok ev ->
              Z.of_nat (length ev) <= msgp.GuessSize value) as Hall'.
    { intros key value ev Hin. apply (Hall m key); [done|].
      rewrite rangeData_perm in Hin. by apply elem_of_map_to_list in Hin. }
    specialize (Hs Hall' Er). lia.
  - injection Er as <-. simpl length. lia.
Qed.

End Codec.

(** ** The runtime of the examples *)

Module WireFacts.
Import wire.

Lemma be32_read (n : N) :
  (n < 4294967296)%N ->
  match be32 n with
  | [b3; b2; b1; b0] => readBe32 b3 b2 b1 b0 = n
  | _ => False
  end.
Proof.
  intros Hn. unfold be32, readBe32.
  rewrite !N_ascii_embedding.
  - zify. Z.to_euclidean_division_equations. lia.
  - apply N.mod_lt. done.
  - apply N.mod_lt. done.
  - apply N.mod_lt. done.
  - apply N.Div0.div_lt_upper_bound. lia.
Defined.

Lemma readMapHeader_mapHeader (n : N) (rest : bytes) :
  (n < 4294967296)%N -> readMapHeader (mapHeader n ++ rest) = Ok (n, rest).
Proof.
  intros Hn. unfold mapHeader. destruct (n <=? 15)%N eqn:E.
  - apply N.leb_le in E. cbn [app readMapHeader].
    rewrite N_ascii_embedding by lia.
    assert ((128 <=? 128 + n)%N && (128 + n <=? 143)%N = true) as ->.
    { apply andb_true_iff. split; apply N.leb_le; lia. }
    do 2 f_equal. lia.
  - pose proof (be32_read n Hn) as Hread. unfold be32 in *.
    cbn [app readMapHeader]. change (N_of_ascii "223") with 223%N.
    cbn [N.leb N.compare Pos.compare Pos.compare_cont andb N.eqb Pos.eqb].
    by rewrite Hread.
Defined.

Lemma length_list_ascii (s : string) :
  length (list_ascii_of_string s) = String.length s.
Proof. induction s as [|c s IH]; simpl; congruence. Defined.

Lemma readBody_append (s : string) (rest : bytes) :
  readBody (N.of_nat (String.length s)) (list_ascii_of_string s ++ rest)
  = Ok (list_ascii_of_string s, rest).
Proof.
  unfold readBody. rewrite length_app, length_list_ascii.
  assert ((N.of_nat (String.length s + length rest)
           <? N.of_nat (String.length s))%N = false) as ->.
  { apply N.ltb_ge. lia. }
  rewrite Nat2N.id, <- (length_list_ascii s).
  by rewrite take_app_length, drop_app_length.
Defined.

Lemma readString_encodeString (s : string) (rest : bytes) :
  (N.of_nat (String.length s) < 4294967296)%N ->
  readString (encodeString s ++ rest) = Ok (list_ascii_of_string s, rest).
Proof.
  intros Hn. unfold encodeString, strHeader.
  destruct (N.of_nat (String.length s) <=? 31)%N eqn:E.
  - apply N.leb_le in E. cbn [app readString].
    rewrite N_ascii_embedding by lia.
    assert ((160 <=? 160 + N.of_nat (String.length s))%N
            && (160 + N.of_nat (String.length s) <=? 191)%N = true) as ->.
    { apply andb_true_iff. split; apply N.leb_le; lia. }
    replace (160 + N.of_nat (String.length s) - 160)%N
      with (N.of_nat (String.length s)) by lia.
    apply readBody_append.
  - pose proof (be32_read _ Hn) as Hread. unfold be32 in *.
    cbn [app readString]. change (N_of_ascii "219") with 219%N.
    cbn [N.leb N.compare Pos.compare Pos.compare_cont andb N.eqb Pos.eqb].
    rewrite Hread. apply readBody_append.
Defined.

(** The laws of the runtime hold of this one. *)
Lemma wire_AppendMapHeader_app (b : bytes) (n : N) :
  msgp.AppendMapHeader b n = b ++ msgp.AppendMapHeader [] n.
Proof. reflexivity. Defined.

Lemma wire_AppendString_app (b : bytes) (s : string) :
  msgp.AppendString b s = b ++ msgp.AppendString [] s.
Proof. reflexivity. Defined.

Lemma wire_AppendIntf_app (b : bytes) (value : bool) :
  msgp.AppendIntf b value
  = match msgp.AppendIntf [] value with
    | Ok ev => Ok (b ++ ev)
    | Err err => Err err
    end.
Proof. reflexivity. Defined.

Lemma wire_ReadMapHeaderBytes_append (n : N) (rest : bytes) :
  (n < 4294967296)%N ->
  msgp.ReadMapHeaderBytes (msgp.AppendMapHeader [] n ++ rest) = Ok (n, rest).
Proof. apply readMapHeader_mapHeader. Defined.

Lemma wire_ReadMapKeyZC_append (s : string) (rest : bytes) :
  (N.of_nat (String.length s) < 4294967296)%N ->
  msgp.ReadMapKeyZC (msgp.AppendString [] s ++ rest)
  = Ok (list_ascii_of_string s, rest).
Proof. apply readString_encodeString. Defined.

Lemma wire_ReadStringBytes_append (s : string) (rest : bytes) :
  (N.of_nat (String.length s) < 4294967296)%N ->
  msgp.ReadStringBytes (msgp.AppendString [] s ++ rest) = Ok (s, rest).
Proof.
  intros Hn. cbn [msgp.ReadStringBytes msgp.AppendString runtime app].
  rewrite (readString_encodeString s rest Hn).
  by rewrite string_of_list_ascii_of_string.
Defined.

Lemma readsBack_bool (value : bool) : readsBack value.
Proof. intros ev rest [= <-]. by destruct value. Defined.

Lemma wire_AppendMapHeader_size (n : N) :
  Z.of_nat (length (msgp.AppendMapHeader [] n)) <= msgp.MapHeaderSize.
Proof.
  cbn [msgp.AppendMapHeader runtime app]. unfold mapHeader, msgp.MapHeaderSize.
  destruct (n <=? 15)%N; simpl; lia.
Defined.

Lemma wire_AppendString_size (s : string) :
  Z.of_nat (length (msgp.AppendString [] s))
  <= msgp.StringPrefixSize + Z.of_nat (String.length s).
Proof.
  cbn [msgp.AppendString runtime app].
  unfold encodeString, strHeader, msgp.StringPrefixSize.
  rewrite length_app, length_list_ascii.
  destruct (_ <=? 31)%N; simpl length; lia.
Defined.

End WireFacts.

(** ** The codec on streams *)

Section StreamCodec.
Import session.

Context {V E : Type} `{!msgp.Runtime V E}.
Variable rangeData : gmap string V -> list (string * V).
Context {W R : Type} `{!msgp.Writer V E W} `{!msgp.Reader V E R}.

(** What a writer has written, and what a reader has not read yet. *)
Variable written : W -> bytes.
Variable unread : R -> bytes.

(** The methods of the writer write what the [Append] functions
    append. *)
Hypothesis Append_written :
  forall en b en', msgp.Append en b = Ok en' -> written en' = written en ++ b.
Hypothesis WriteMapHeader_written :
  forall en n en', msgp.WriteMapHeader en n = Ok en' ->
    written en' = msgp.AppendMapHeader (written en) n.
Hypothesis WriteString_written :
  forall en s en', msgp.WriteString en s = Ok en' ->
    written en' = msgp.AppendString (written en) s.
Hypothesis WriteIntf_written :
  forall en value en', msgp.WriteIntf en value = Ok en' ->
    msgp.AppendIntf (written en) value = Ok (written en').

Lemma encodeLoop_marshalEntries (kvs : list (string * V)) (en en' : W) :
  session.encodeLoop kvs en = Ok en' ->
  marshalEntries kvs (written en) = Ok (written en').
Proof.
  revert en. induction kvs as [|[k v] kvs IH]; intros en; simpl.
  - by intros [= <-].
  - destruct (msgp.WriteString en k) as [en1|] eqn:E1; [|done].
    destruct (msgp.WriteIntf en1 v) as [en2|] eqn:E2; [|done].
    intros Hloop. rewrite <- (WriteString_written _ _ _ E1).
    rewrite (WriteIntf_written _ _ _ E2). by apply IH.
Qed.

(** X23. [EncodeMsg] writes the message of [MarshalMsg]: when the methods
    of the writer write what the [Append] functions append, and
    [EncodeMsg] returns no error, [MarshalMsg] on the bytes written
    before returns the bytes written after. *)
Theorem EncodeMsg_MarshalMsg (z : session.data V) (en en' : W) :
  session.EncodeMsg rangeData z en = Ok en' ->
  session.MarshalMsg rangeData z (written en) = Ok (written en').
Proof.
  unfold session.EncodeMsg, session.MarshalMsg, msgp.Require.
  destruct (msgp.Append en _) as [en1|] eqn:E1; [|done].
  destruct (msgp.WriteMapHeader en1 _) as [en2|] eqn:E2; [|done].
  intros Hloop. rewrite <- (Append_written _ _ _ E1).
  rewrite <- (WriteMapHeader_written _ _ _ E2).
  by apply encodeLoop_marshalEntries.
Qed.

(** The methods of the reader read what the functions on byte slices
    read. *)
Hypothesis ReadMapHeader_unread :
  forall dc n dc', msgp.ReadMapHeader dc = Ok (n, dc') ->
    msgp.ReadMapHeaderBytes (unread dc) = Ok (n, unread dc').
Hypothesis ReadMapKeyPtr_unread :
  forall dc field dc', msgp.ReadMapKeyPtr dc = Ok (field, dc') ->
    msgp.ReadMapKeyZC (unread dc) = Ok (field, unread dc').
Hypothesis ReadString_unread :
  forall dc s dc', msgp.ReadString dc = Ok (s, dc') ->
    msgp.ReadStringBytes (unread dc) = Ok (s, unread dc').
Hypothesis ReadIntf_unread :
  forall dc value dc', msgp.ReadIntf dc = Ok (value, dc') ->
    msgp.ReadIntfBytes (unread dc) = Ok (value, unread dc').
Hypothesis SkipField_unread :
  forall dc dc', msgp.SkipField dc = Ok dc' ->
    msgp.Skip (unread dc) = Ok (unread dc').

Lemma decodeEntries_unmarshalEntries (zb0002 : nat) (m m' : gmap string V)
  (dc dc' : R) :
  session.decodeEntries zb0002 m dc = (m', Ok dc') ->
  unmarshalEntries zb0002 m (unread dc) = (m', Ok (unread dc')).
Proof.
  revert m dc. induction zb0002 as [|n IH]; intros m dc; simpl.
  - by intros [= <- <-].
  - destruct (msgp.ReadString dc) as [[k dc1]|] eqn:E1; [|done].
    destruct (msgp.ReadIntf dc1) as [[v dc2]|] eqn:E2; [|done].
    rewrite (ReadString_unread _ _ _ E1), (ReadIntf_unread _ _ _ E2).
    apply IH.
Qed.

Lemma decodeFields_unmarshalFields (zb0001 : nat) (z z' : session.data V)
  (dc dc' : R) :
  session.decodeFields rangeData zb0001 z dc = (z', Ok dc') ->
  unmarshalFields rangeData zb0001 z (unread dc) = (z', Ok (unread dc')).
Proof.
  revert z dc. induction zb0001 as [|n IH]; intros z dc; simpl.
  - by intros [= <- <-].
  - destruct (msgp.ReadMapKeyPtr dc) as [[field dc1]|] eqn:E1; [|done].
    rewrite (ReadMapKeyPtr_unread _ _ _ E1).
    destruct (String.eqb (msgp.UnsafeString field) "Data").
    + destruct (msgp.ReadMapHeader dc1) as [[zb0002 dc2]|] eqn:E2; [|done].
      rewrite (ReadMapHeader_unread _ _ _ E2).
      destruct (session.decodeEntries (N.to_nat zb0002) _ dc2)
        as [m [dc3|err]] eqn:E3; [|done].
      rewrite (decodeEntries_unmarshalEntries _ _ _ _ _ E3). apply IH.
    + destruct (msgp.SkipField dc1) as [dc2|] eqn:E2; [|done].
      rewrite (SkipField_unread _ _ E2). apply IH.
Qed.

(** X24. [DecodeMsg] reads as [UnmarshalMsg] does: when the methods of
    the reader read what the functions on byte slices read, and
    [DecodeMsg] returns no error, [UnmarshalMsg] on the bytes not read
    before leaves the same receiver and returns the bytes not read
    after. *)
Theorem DecodeMsg_UnmarshalMsg (z z' : session.data V) (dc dc' : R) :
  session.DecodeMsg rangeData z dc = (z', Ok dc') ->
  session.UnmarshalMsg rangeData z (unread dc) = (z', Ok (unread dc')).
Proof.
  unfold session.DecodeMsg, session.UnmarshalMsg.
  destruct (msgp.ReadMapHeader dc) as [[zb0001 dc1]|] eqn:E1; [|done].
  rewrite (ReadMapHeader_unread _ _ _ E1).
  apply decodeFields_unmarshalFields.
Qed.

End StreamCodec.

(** * Instances of the further properties *)


Lemma PreferredMediaTypes_returns_without_quotes_witness :
  negotiator.quoteCount "text/html;q=0.5, */*;q=0.1" = 0%nat
  /\ is_Some (negotiator.PreferredMediaTypes decimalFloat map_to_list
                "text/html;q=0.5, */*;q=0.1" ["text/html"; "image/png"]).
Proof.
  split; [vm_compute; reflexivity|].
  apply PreferredMediaTypes_returns_without_quotes. vm_compute. reflexivity.
Defined.

Lemma PreferredMediaTypes_without_slash_witness :
  "gzip, deflate;q=0.5" <> EmptyString
  /\ strings.IndexByte "gzip, deflate;q=0.5" "/" = None
  /\ negotiator.PreferredMediaTypes decimalFloat map_to_list
       "gzip, deflate;q=0.5" ["text/html"; "image/png"]
     = Some [].
Proof.
  split; [discriminate|]. split; [vm_compute; reflexivity|].
  apply (PreferredMediaTypes_without_slash decimalFloat map_to_list
           "gzip, deflate;q=0.5" ["text/html"; "image/png"]);
    [discriminate|vm_compute; reflexivity].
Defined.

Lemma parseMediaType_params_witness :
  negotiator.parseMediaType decimalFloat "text/html; charset = utf-8 ;q=0.5" 0
  = Some (mediaType.mk "text" "html" {["charset" := "utf-8"]}
            (float64.ofRatio 5 10) 0 0)
  /\ forall key value,
       ({["charset" := "utf-8"]} : gmap string string) !! key = Some value ->
       key <> "q" /\ strings.TrimSpace key = key /\ strings.TrimSpace value = value.
Proof.
  assert (negotiator.parseMediaType decimalFloat
            "text/html; charset = utf-8 ;q=0.5" 0
          = Some (mediaType.mk "text" "html" {["charset" := "utf-8"]}
                    (float64.ofRatio 5 10) 0 0)) as Hparse
    by (vm_compute; reflexivity).
  split; [exact Hparse|].
  exact (parseMediaType_params decimalFloat _ _ _ Hparse).
Defined.

Lemma parseMediaType_quality_witness :
  negotiator.parseMediaType decimalFloat "text/html;q=0.5;q=x;level=1" 0
  = Some (mediaType.mk "text" "html" {["level" := "1"]}
            (float64.ofRatio 5 10) 0 0)
  /\ float64.ofRatio 5 10
     = List.last
         (omap (qualityOf decimalFloat)
            (tail (strings.Split "text/html;q=0.5;q=x;level=1" ";")))
         float64.one.
Proof.
  assert (negotiator.parseMediaType decimalFloat "text/html;q=0.5;q=x;level=1" 0
          = Some (mediaType.mk "text" "html" {["level" := "1"]}
                    (float64.ofRatio 5 10) 0 0)) as Hparse
    by (vm_compute; reflexivity).
  split; [exact Hparse|].
  exact (parseMediaType_quality decimalFloat _ _ _ Hparse).
Defined.


Lemma candidates_ignore_header_order_witness :
  ["text/html"; "image/png"] <> []
  /\ negotiator.parseAccept decimalFloat "text/html;q=0.5, */*;q=0.1"
     = Some [mediaType.mk "text" "html" ∅ (float64.ofRatio 5 10) 0 0;
             mediaType.mk "*" "*" ∅ (float64.ofRatio 1 10) 1 0]
  /\ negotiator.parseAccept decimalFloat "*/*;q=0.1, text/html;q=0.5"
     = Some [mediaType.mk "*" "*" ∅ (float64.ofRatio 1 10) 0 0;
             mediaType.mk "text" "html" ∅ (float64.ofRatio 5 10) 1 0]
  /\ negotiator.PreferredMediaTypes decimalFloat map_to_list
       "text/html;q=0.5, */*;q=0.1" ["text/html"; "image/png"]
     = negotiator.PreferredMediaTypes decimalFloat map_to_list
         "*/*;q=0.1, text/html;q=0.5" ["text/html"; "image/png"].
Proof.
  assert (negotiator.parseAccept decimalFloat "text/html;q=0.5, */*;q=0.1"
          = Some [mediaType.mk "text" "html" ∅ (float64.ofRatio 5 10) 0 0;
                  mediaType.mk "*" "*" ∅ (float64.ofRatio 1 10) 1 0]) as H1
    by (vm_compute; reflexivity).
  assert (negotiator.parseAccept decimalFloat "*/*;q=0.1, text/html;q=0.5"
          = Some [mediaType.mk "*" "*" ∅ (float64.ofRatio 1 10) 0 0;
                  mediaType.mk "text" "html" ∅ (float64.ofRatio 5 10) 1 0]) as H2
    by (vm_compute; reflexivity).
  split; [discriminate|]. split; [exact H1|]. split; [exact H2|].
  apply (candidates_ignore_header_order decimalFloat map_to_list
           "text/html;q=0.5, */*;q=0.1" "*/*;q=0.1, text/html;q=0.5" _ _
           ["text/html"; "image/png"] ltac:(discriminate) H1 H2).
  - apply perm_swap.
  - intros m Hm. repeat (apply elem_of_cons in Hm as [->|Hm]; [reflexivity|]).
    by apply elem_of_nil in Hm.
Defined.

Lemma accepted_types_permutation_witness :
  negotiator.parseAccept decimalFloat
    "text/html;q=0.5, text/plain;q=NaN, image/png;q=0.8"
  = Some [mediaType.mk "text" "html" ∅ (float64.ofRatio 5 10) 0 0;
          mediaType.mk "text" "plain" ∅ float64.NaN 1 0;
          mediaType.mk "image" "png" ∅ (float64.ofRatio 8 10) 2 0]
  /\ exists out,
       negotiator.PreferredMediaTypes decimalFloat map_to_list
         "text/html;q=0.5, text/plain;q=NaN, image/png;q=0.8" [] = Some out
       /\ out ≡ₚ ["text/html"; "image/png"].
Proof.
  assert (negotiator.parseAccept decimalFloat
            "text/html;q=0.5, text/plain;q=NaN, image/png;q=0.8"
          = Some [mediaType.mk "text" "html" ∅ (float64.ofRatio 5 10) 0 0;
                  mediaType.mk "text" "plain" ∅ float64.NaN 1 0;
                  mediaType.mk "image" "png" ∅ (float64.ofRatio 8 10) 2 0]) as H
    by (vm_compute; reflexivity).
  split; [exact H|].
  exact (accepted_types_permutation decimalFloat map_to_list
           "text/html;q=0.5, text/plain;q=NaN, image/png;q=0.8" _ H).
Defined.

Lemma configDefault_KeyLookup_witness :
  session.configDefault (session.ConfigDefault tt) [headerConfig]
  = Returns headerConfigDefaulted
  /\ session.KeyLookup headerConfigDefaulted
     = session.effectiveKeyLookup (session.ConfigDefault tt) headerConfig
  /\ session.KeyLookup headerConfigDefaulted
     = (session.source headerConfigDefaulted ++ ":"
        ++ session.sessionName headerConfigDefaulted)%string
  /\ (session.source headerConfigDefaulted = "cookie"
      \/ session.source headerConfigDefaulted = "header"
      \/ session.source headerConfigDefaulted = "query")
  /\ strings.IndexByte (session.sessionName headerConfigDefaulted) ":" = None.
Proof.
  split; [vm_compute; reflexivity|].
  apply (configDefault_KeyLookup (session.ConfigDefault tt) headerConfig []).
  vm_compute. reflexivity.
Defined.

Lemma configDefault_idempotent_witness :
  session.configDefault (session.ConfigDefault tt) [headerConfig]
  = Returns headerConfigDefaulted
  /\ session.configDefault (session.ConfigDefault tt) [headerConfigDefaulted]
     = Returns headerConfigDefaulted.
Proof.
  split; [vm_compute; reflexivity|].
  apply (configDefault_idempotent (session.ConfigDefault tt) headerConfig []).
  vm_compute. reflexivity.
Defined.

Lemma configDefault_unset_witness :
  session.IdleTimeout cookieConfig = 0
  /\ session.KeyLookup cookieConfig = EmptyString
  /\ session.KeyGenerator cookieConfig = None
  /\ session.configDefault (session.ConfigDefault tt) [cookieConfig]
     = Returns (session.mkConfig None None None (24 * time.Hour) None
                  "cookie:session_id" "example.com" "/" true true "Strict" false
                  (Some tt) "cookie" "session_id").
Proof.
  split; [reflexivity|]. split; [reflexivity|]. split; [reflexivity|].
  exact (proj1 (configDefault_unset tt cookieConfig [] eq_refl eq_refl eq_refl)).
Defined.

Lemma configDefault_IdleTimeout_witness :
  session.configDefault (session.ConfigDefault tt) [headerConfig]
  = Returns headerConfigDefaulted
  /\ 0 < toInt (time.Seconds (session.IdleTimeout headerConfigDefaulted)).
Proof.
  split; [vm_compute; reflexivity|].
  apply (configDefault_IdleTimeout tt [headerConfig]). vm_compute. reflexivity.
Defined.

Lemma PreferredMediaTypes_app_witness :
  ["text/html"] <> [] /\ ["image/png"; "text/plain"] <> []
  /\ negotiator.PreferredMediaTypes decimalFloat map_to_list
       "text/html;q=0.5, image/*;q=0.1" ["text/html"] = Some ["text/html"]
  /\ negotiator.PreferredMediaTypes decimalFloat map_to_list
       "text/html;q=0.5, image/*;q=0.1" ["image/png"; "text/plain"]
     = Some ["image/png"]
  /\ negotiator.PreferredMediaTypes decimalFloat map_to_list
       "text/html;q=0.5, image/*;q=0.1" (["text/html"] ++ ["image/png"; "text/plain"])
     = Some (["text/html"] ++ ["image/png"]).
Proof.
  split; [discriminate|]. split; [discriminate|].
  split; [vm_compute; reflexivity|]. split; [vm_compute; reflexivity|].
  apply (PreferredMediaTypes_app decimalFloat map_to_list);
    [discriminate|discriminate|vm_compute; reflexivity|vm_compute; reflexivity].
Defined.

Lemma candidates_fold_case_witness :
  plainToken "TEXT/Html" = true /\ plainToken "text/html" = true
  /\ strings.EqualFold "TEXT/Html" "text/html" = true
  /\ (negotiator.PreferredMediaTypes decimalFloat map_to_list
        "text/html;q=0.5" ["TEXT/Html"] = Some ["TEXT/Html"]
      <-> negotiator.PreferredMediaTypes decimalFloat map_to_list
            "text/html;q=0.5" ["text/html"] = Some ["text/html"])
  /\ (negotiator.PreferredMediaTypes decimalFloat map_to_list
        "text/html;q=0.5" ["TEXT/Html"] = Some []
      <-> negotiator.PreferredMediaTypes decimalFloat map_to_list
            "text/html;q=0.5" ["text/html"] = Some []).
Proof.
  split; [vm_compute; reflexivity|]. split; [vm_compute; reflexivity|].
  split; [vm_compute; reflexivity|].
  apply (candidates_fold_case decimalFloat map_to_list); vm_compute; reflexivity.
Defined.

Lemma listed_types_are_accepted_witness :
  negotiator.parseAccept decimalFloat "text/html;q=0.5, */*;q=0.1"
  = Some [mediaType.mk "text" "html" ∅ (float64.ofRatio 5 10) 0 0;
          mediaType.mk "*" "*" ∅ (float64.ofRatio 1 10) 1 0]
  /\ negotiator.PreferredMediaTypes decimalFloat map_to_list
       "text/html;q=0.5, */*;q=0.1" [] = Some ["text/html"; "*/*"]
  /\ "*/*" ∈ ["text/html"; "*/*"]
  /\ negotiator.PreferredMediaTypes decimalFloat map_to_list
       "text/html;q=0.5, */*;q=0.1" ["*/*"] = Some ["*/*"].
Proof.
  assert (negotiator.parseAccept decimalFloat "text/html;q=0.5, */*;q=0.1"
          = Some [mediaType.mk "text" "html" ∅ (float64.ofRatio 5 10) 0 0;
                  mediaType.mk "*" "*" ∅ (float64.ofRatio 1 10) 1 0]) as Hspecs
    by (vm_compute; reflexivity).
  assert (negotiator.PreferredMediaTypes decimalFloat map_to_list
            "text/html;q=0.5, */*;q=0.1" [] = Some ["text/html"; "*/*"]) as Hout
    by (vm_compute; reflexivity).
  assert ("*/*" ∈ ["text/html"; "*/*"]) as Hin by (right; left).
  split; [exact Hspecs|]. split; [exact Hout|]. split; [exact Hin|].
  apply (listed_types_are_accepted decimalFloat map_to_list map_to_list_perm
           "text/html;q=0.5, */*;q=0.1" _ ["text/html"; "*/*"] "*/*" Hspecs);
    [|exact Hout|exact Hin].
  intros m Hm. repeat (apply elem_of_cons in Hm as [->|Hm]; [by split|]).
  by apply elem_of_nil in Hm.
Defined.


Lemma map_to_list_perm_bool (m : gmap string bool) :
  map_to_list m ≡ₚ map_to_list m.
Proof. reflexivity. Defined.

Lemma MarshalMsg_appends_witness :
  session.MarshalMsg map_to_list userData ["000"%char]
  = Ok ("000"%char :: userMessage).
Proof.
  exact (MarshalMsg_appends map_to_list WireFacts.wire_AppendMapHeader_app
           WireFacts.wire_AppendString_app WireFacts.wire_AppendIntf_app
           userData ["000"%char]).
Defined.

Lemma MarshalMsg_returns_iff_witness :
  (exists o, session.MarshalMsg map_to_list userData [] = Ok o) <->
  forall m key (value : bool),
    session.Data userData = Some m -> m !! key = Some value ->
    exists ev, msgp.AppendIntf [] value = Ok ev.
Proof.
  exact (MarshalMsg_returns_iff map_to_list map_to_list_perm_bool
           WireFacts.wire_AppendMapHeader_app WireFacts.wire_AppendString_app
           WireFacts.wire_AppendIntf_app userData []).
Defined.

Lemma UnmarshalMsg_receiver_witness :
  (session.UnmarshalMsg map_to_list staleData userMessage).2
  = (session.UnmarshalMsg map_to_list userData userMessage).2
  /\ (((session.UnmarshalMsg map_to_list staleData userMessage).1 = staleData
       /\ (session.UnmarshalMsg map_to_list userData userMessage).1 = userData)
      \/ (session.UnmarshalMsg map_to_list staleData userMessage).1
         = (session.UnmarshalMsg map_to_list userData userMessage).1).
Proof.
  exact (UnmarshalMsg_receiver map_to_list map_to_list_perm_bool
           staleData userData userMessage).
Defined.

Lemma UnmarshalMsg_MarshalMsg_witness :
  (N.of_nat (session.lenData userData) < 4294967296)%N
  /\ session.MarshalMsg map_to_list userData [] = Ok userMessage
  /\ session.UnmarshalMsg map_to_list staleData (userMessage ++ ["000"%char])
     = (userData, Ok ["000"%char]).
Proof.
  split; [vm_compute; reflexivity|]. split; [vm_compute; reflexivity|].
  apply (UnmarshalMsg_MarshalMsg map_to_list map_to_list_perm_bool
           WireFacts.wire_AppendMapHeader_app WireFacts.wire_AppendString_app
           WireFacts.wire_AppendIntf_app WireFacts.wire_ReadMapHeaderBytes_append
           WireFacts.wire_ReadStringBytes_append WireFacts.wire_ReadMapKeyZC_append
           eq_refl eq_refl userData staleData userMessage ["000"%char]).
  - vm_compute. reflexivity.
  - intros m key value Hm Hkey. split; [|apply WireFacts.readsBack_bool].
    assert (m = {["user" := true; "admin" := false]}) as ->
      by (unfold userData in Hm; cbn [session.Data] in Hm; congruence).
    apply elem_of_map_to_list in Hkey.
    change (map_to_list _) with [("user", true); ("admin", false)] in Hkey.
    repeat (apply elem_of_cons in Hkey as [[= -> ->]|Hkey];
            [vm_compute; reflexivity|]).
    by apply elem_of_nil in Hkey.
  - vm_compute. reflexivity.
Defined.

Lemma Msgsize_bound_witness :
  session.MarshalMsg map_to_list userData [] = Ok userMessage
  /\ Z.of_nat (length userMessage) <= session.Msgsize map_to_list userData.
Proof.
  split; [vm_compute; reflexivity|].
  apply (Msgsize_bound map_to_list map_to_list_perm_bool
           WireFacts.wire_AppendMapHeader_app WireFacts.wire_AppendString_app
           WireFacts.wire_AppendIntf_app WireFacts.wire_AppendMapHeader_size
           WireFacts.wire_AppendString_size userData userMessage).
  - intros m key value ev _ _ [= <-]. by destruct value.
  - vm_compute. reflexivity.
Defined.

Lemma wireWriter_Append (en b en' : bytes) :
  msgp.Append en b = Ok en' -> en' = en ++ b.
Proof. by intros [= <-]. Defined.

Lemma wireWriter_WriteMapHeader (en : bytes) (n : N) (en' : bytes) :
  msgp.WriteMapHeader en n = Ok en' -> en' = msgp.AppendMapHeader en n.
Proof. by intros [= <-]. Defined.

Lemma wireWriter_WriteString (en : bytes) (s : string) (en' : bytes) :
  msgp.WriteString en s = Ok en' -> en' = msgp.AppendString en s.
Proof. by intros [= <-]. Defined.

Lemma wireWriter_WriteIntf (en : bytes) (value : bool) (en' : bytes) :
  msgp.WriteIntf en value = Ok en' -> msgp.AppendIntf en value = Ok en'.
Proof. by intros Hw. Defined.

Lemma EncodeMsg_MarshalMsg_witness :
  session.EncodeMsg map_to_list userData ([] : bytes) = Ok userMessage
  /\ session.MarshalMsg map_to_list userData [] = Ok userMessage.
Proof.
  split; [vm_compute; reflexivity|].
  apply (EncodeMsg_MarshalMsg map_to_list (fun en : bytes => en)
           wireWriter_Append wireWriter_WriteMapHeader wireWriter_WriteString
           wireWriter_WriteIntf userData [] userMessage).
  vm_compute. reflexivity.
Defined.

Lemma wireReader_ReadMapHeader (dc : bytes) (n : N) (dc' : bytes) :
  msgp.ReadMapHeader dc = Ok (n, dc') ->
  msgp.ReadMapHeaderBytes dc = Ok (n, dc').
Proof. by intros Hr. Defined.

Lemma wireReader_ReadMapKeyPtr (dc field dc' : bytes) :
  msgp.ReadMapKeyPtr dc = Ok (field, dc') ->
  msgp.ReadMapKeyZC dc = Ok (field, dc').
Proof. by intros Hr. Defined.

Lemma wireReader_ReadString (dc : bytes) (s : string) (dc' : bytes) :
  msgp.ReadString dc = Ok (s, dc') -> msgp.ReadStringBytes dc = Ok (s, dc').
Proof. by intros Hr. Defined.

Lemma wireReader_ReadIntf (dc : bytes) (value : bool) (dc' : bytes) :
  msgp.ReadIntf dc = Ok (value, dc') ->
  msgp.ReadIntfBytes dc = Ok (value, dc').
Proof. by intros Hr. Defined.

Lemma wireReader_SkipField (dc dc' : bytes) :
  msgp.SkipField dc = Ok dc' -> msgp.Skip dc = Ok dc'.
Proof. by intros Hr. Defined.

Lemma DecodeMsg_UnmarshalMsg_witness :
  session.DecodeMsg map_to_list staleData userMessage = (userData, Ok ([] : bytes))
  /\ session.UnmarshalMsg map_to_list staleData userMessage = (userData, Ok []).
Proof.
  split; [vm_compute; reflexivity|].
  apply (DecodeMsg_UnmarshalMsg map_to_list (fun dc : bytes => dc)
           wireReader_ReadMapHeader wireReader_ReadMapKeyPtr
           wireReader_ReadString wireReader_ReadIntf wireReader_SkipField staleData userData userMessage []).
  vm_compute. reflexivity.
Defined.
